(** * Rate protection and transaction authorization of the agentic wallet

    A shallow embedding of the TypeScript sources

      - [rate-history.ts]        (class [RateHistory])
      - [yield-monitor.ts]       (class [YieldMonitor])
      - [approval-flow.ts]       (class [ApprovalFlow])
      - [session-key-manager.ts] (class [SecureSessionKeyManager])

    Conventions of the embedding.

      - A JavaScript [number] that holds a rate is an IEEE 754 binary64
        value ([float]), and the arithmetic and the comparisons on rates
        are those of binary64, as in the engine. A decimal literal denotes
        the nearest binary64 value, in JavaScript as here.
      - A [number] that holds a count of milliseconds or seconds is an
        integer ([Z]), as [Date.now()] gives it; it enters the arithmetic
        on rates through [number], which is exact below 2^53. A [bigint]
        is an integer ([Z]).
      - The rates of approval-flow.ts only pass through its records and
        are kept as rationals ([Q]), as is [Date.now() / 1000] in
        session-key-manager.ts.
      - [Date.now()] / [new Date()] is an explicit argument [now]
        (milliseconds) of every operation that reads the clock.
      - A [Map] is a [gmap]; only lookups and membership are observed.
      - A method that throws returns an explicit failure value. *)

From stdpp Require Import gmap strings list fin_maps sorting.
From Stdlib Require Import Ascii ZArith QArith Lia Lqa Floats.

#[local] Set Warnings "-inexact-float".

Local Open Scope Z_scope.

(** ** Numbers *)

(** [x > y] on the rationals. *)
Definition Qgtb (x y : Q) : bool := negb (Qle_bool x y).

(** The [number] that holds the integer [z]. *)
Definition number (z : Z) : float :=
  if z <? 0 then (- of_uint63 (Uint63.of_Z (- z)))%float
  else of_uint63 (Uint63.of_Z z).

(** [Math.round]: the integer nearest to [x], a half going up; a [NaN] or
    an infinity is returned as it is, and so is the sign of a zero. The
    value of a finite [x] is [±m × 2^e]. *)
Definition Math_round (x : float) : float :=
  match Prim2SF x with
  | S754_finite s m e =>
      if 0 <=? e then x
      else
        let n := (2 * (if s then Z.neg m else Z.pos m) + 2 ^ (- e))
                 / 2 ^ (- e + 1) in
        if n =? 0 then (if s then neg_zero else zero) else number n
  | _ => x
  end.

(** ** rate-history.ts *)

Module RateHistory.

Inductive RateSource := onchain | defillama.

Record RateEntry := {
  protocolId : string;
  apy : float;
  timestamp : Z;
  source : RateSource;
}.

Inductive Severity := low | medium | high.

Record AnomalyDetails := {
  currentRate : float;
  previousRate : float;
  changePercent : float;
  timeWindowMs : Z;
}.

Record RateAnomaly := {
  suspicious : bool;
  reason : option string;
  severity : option Severity;
  details : option AnomalyDetails;
}.

Record TWAPResult := {
  twap : float;
  sampleCount : nat;
  oldestSample : Z;
  newestSample : Z;
}.

Definition DEFAULT_HISTORY_WINDOW_MS : Z := 24 * 60 * 60 * 1000.
Definition MAX_ENTRIES_PER_PROTOCOL : nat := 1000.
Definition RATE_VELOCITY_THRESHOLD : float := 0.5.
Definition RATE_VELOCITY_WINDOW_MS : Z := 60 * 60 * 1000.

(** The private fields of the class. *)
Record t := {
  history : gmap string (list RateEntry);
  windowMs : Z;
}.

(** [new RateHistory(windowMs)] *)
Definition create (windowMs : Z) : t :=
  {| history := ∅; windowMs := windowMs |}.

(** [arr.slice(-n)] for [n > 0]: the last [n] elements. *)
Definition slice_last {A} (n : nat) (l : list A) : list A :=
  drop (length l - n) l.

(** [entries.filter((e) => e.timestamp >= cutoff)] *)
Definition since (cutoff : Z) (entries : list RateEntry) : list RateEntry :=
  filter (λ e, cutoff ≤ timestamp e) entries.

Definition record (h : t) (now : Z) (entry : RateEntry) : t :=
  let entries := default [] (history h !! protocolId entry) in
  let entries := entries ++ [entry] in
  let cutoff := now - windowMs h in
  let pruned := since cutoff entries in
  let limited :=
    if decide (MAX_ENTRIES_PER_PROTOCOL < length pruned)%nat
    then slice_last MAX_ENTRIES_PER_PROTOCOL pruned
    else pruned in
  {| history := <[protocolId entry := limited]> (history h);
     windowMs := windowMs h |}.

Definition getEntries (h : t) (id : string) (window : option Z) (now : Z)
  : list RateEntry :=
  let entries := default [] (history h !! id) in
  let cutoff := now - default (windowMs h) window in
  since cutoff entries.

(** [[...entries].sort((a, b) => a.timestamp - b.timestamp)]: the sort is
    stable, so an entry goes behind the entries of the same timestamp
    that precede it. *)
Fixpoint insert_by_timestamp (x : RateEntry) (l : list RateEntry)
  : list RateEntry :=
  match l with
  | [] => [x]
  | y :: l' =>
      if timestamp x <? timestamp y then x :: y :: l'
      else y :: insert_by_timestamp x l'
  end.

Definition sort_by_timestamp (l : list RateEntry) : list RateEntry :=
  foldr insert_by_timestamp [] (reverse l).

(** The loop over [i = 0 .. sorted.length - 2] of [getTWAP], threading
    [(weightedSum, totalWeight)]. *)
Fixpoint twap_loop (sorted : list RateEntry) (acc : float * float)
  : float * float :=
  match sorted with
  | [] => acc
  | current :: rest =>
      match rest with
      | [] => acc
      | next :: _ =>
          let weight := number (timestamp next - timestamp current) in
          twap_loop rest
            ((fst acc + apy current * weight)%float, (snd acc + weight)%float)
      end
  end.

Definition getTWAP (h : t) (id : string) (windowHours : Z) (now : Z)
  : option TWAPResult :=
  let windowMs := windowHours * 60 * 60 * 1000 in
  let entries := getEntries h id (Some windowMs) now in
  match entries with
  | [] => None
  | [e] =>
      Some {| twap := apy e; sampleCount := 1;
              oldestSample := timestamp e; newestSample := timestamp e |}
  | e0 :: _ =>
      let sorted := sort_by_timestamp entries in
      let '(weightedSum, totalWeight) := twap_loop sorted (0, 0)%float in
      let lastEntry := default e0 (last sorted) in
      let timeSinceLast :=
        number (Z.min (now - timestamp lastEntry) (60 * 60 * 1000)) in
      let weightedSum := (weightedSum + apy lastEntry * timeSinceLast)%float in
      let totalWeight := (totalWeight + timeSinceLast)%float in
      let twap :=
        if (0 <? totalWeight)%float then (weightedSum / totalWeight)%float
        else apy lastEntry in
      Some {| twap := twap; sampleCount := length sorted;
              oldestSample := timestamp (default e0 (head sorted));
              newestSample := timestamp lastEntry |}
  end.

Definition detectAnomalies (h : t) (id : string) (currentRate : option float)
    (now : Z) : RateAnomaly :=
  let entries := getEntries h id (Some RATE_VELOCITY_WINDOW_MS) now in
  match entries with
  | [] | [_] =>
      {| suspicious := false; reason := Some "insufficient_data";
         severity := Some low; details := None |}
  | e0 :: _ =>
      let sorted := sort_by_timestamp entries in
      let latest := default (apy (default e0 (last sorted))) currentRate in
      let oldest := apy (default e0 (head sorted)) in
      let velocity :=
        if (0 <? oldest)%float then
          let changePercent := (abs (latest - oldest) / oldest)%float in
          if (RATE_VELOCITY_THRESHOLD <? changePercent)%float then
            Some {| suspicious := true; reason := Some "high_rate_velocity";
                    severity :=
                      Some (if (1.0 <? changePercent)%float then high else medium);
                    details := Some {| currentRate := latest;
                                       previousRate := oldest;
                                       changePercent := changePercent;
                                       timeWindowMs := RATE_VELOCITY_WINDOW_MS |} |}
          else None
        else None in
      match velocity with
      | Some flagged => flagged
      | None =>
          let deviation_check :=
            match getTWAP h id 1 now with
            | Some twapResult =>
                if (0 <? twap twapResult)%float then
                  let deviation :=
                    (abs (latest - twap twapResult) / twap twapResult)%float in
                  if (0.2 <? deviation)%float then
                    Some {| suspicious := true; reason := Some "twap_deviation";
                            severity :=
                              Some (if (0.5 <? deviation)%float then high else medium);
                            details := Some {| currentRate := latest;
                                               previousRate := twap twapResult;
                                               changePercent := deviation;
                                               timeWindowMs := 60 * 60 * 1000 |} |}
                  else None
                else None
            | None => None
            end in
          match deviation_check with
          | Some flagged => flagged
          | None =>
              {| suspicious := false; reason := None;
                 severity := None; details := None |}
          end
      end
  end.

(** [getLatestRate] *)
Definition getLatestRate (h : t) (id : string) : option RateEntry :=
  match history h !! id with
  | None => None
  | Some entries => last entries
  end.

Definition isStale (h : t) (id : string) (maxAgeMs : Z) (now : Z) : bool :=
  match getLatestRate h id with
  | None => true
  | Some latest => maxAgeMs <? now - timestamp latest
  end.

Definition clear (h : t) : t :=
  {| history := ∅; windowMs := windowMs h |}.

End RateHistory.


(** ** yield-monitor.ts *)

Module YieldMonitor.

(** The fields of a [YieldProtocol] that the monitor reads; its methods
    [getAPY] and [getBalance] are the reads of [Reads] below. *)
Record YieldProtocol := {
  id : string;
  name : string;
  address : string;
}.

Record ProtocolSnapshot := {
  protocolId : string;
  protocolName : string;
  snapshotAddress : string;
  apyPercent : float;
  balance : Z;
  timestamp : Z;
}.

Inductive DataSource := onchain | defillama | mixed.

Record YieldMonitorConfig := {
  useTWAP : bool;
  twapWindowHours : Z;
  enableAnomalyDetection : bool;
  useDeFiLlamaFallback : bool;
  rateStalenesMs : Z;
}.

(** [YIELD_CONFIG] of config.ts *)
Definition MIN_APY_DIFFERENTIAL_BPS : float := 50.
Definition RATE_STALENESS_MS : Z := 2 * 60 * 60 * 1000.

Definition DEFAULT_CONFIG : YieldMonitorConfig :=
  {| useTWAP := true;
     twapWindowHours := 1;
     enableAnomalyDetection := true;
     useDeFiLlamaFallback := true;
     rateStalenesMs := RATE_STALENESS_MS |}.

Record ProtectedYieldComparison := {
  snapshots : list ProtocolSnapshot;
  bestProtocol : ProtocolSnapshot;
  currentProtocol : option ProtocolSnapshot;
  apyDifferentialBps : float;
  shouldRebalance : bool;
  comparisonTimestamp : Z;
  twapUsed : bool;
  anomalies : gmap string RateHistory.RateAnomaly;
  rejectReason : option string;
  dataSource : DataSource;
}.

(** The private fields of the class. *)
Record t := {
  protocols : list YieldProtocol;
  config : YieldMonitorConfig;
  rateHistory : RateHistory.t;
  lastComparison : option ProtectedYieldComparison;
}.

(** The four protocols the constructor installs, in its order. *)
Definition AaveProtocol : YieldProtocol :=
  {| id := "aave"; name := "Aave V3";
     address := "0xA238Dd80C259a72e81d7e4664a9801593F98d1c5" |}.
Definition CompoundProtocol : YieldProtocol :=
  {| id := "compound"; name := "Compound V3";
     address := "0xb125E6687d4313864e53df431d5425969c15Eb2F" |}.
Definition MorphoProtocol : YieldProtocol :=
  {| id := "morpho"; name := "Morpho Blue (Spark)";
     address := "0x7BfA7C4f149E7415b73bdeDfe609237e29CBF34A" |}.
Definition MoonwellProtocol : YieldProtocol :=
  {| id := "moonwell"; name := "Moonwell";
     address := "0xEdc817A28E8B93B03976FBd4a3dDBc9f7D176c22" |}.

(** [new YieldMonitor(client, config)], on the rate history [h] that
    [getRateHistory()] hands out. *)
Definition create (config : YieldMonitorConfig) (h : RateHistory.t) : t :=
  {| protocols := [AaveProtocol; CompoundProtocol; MorphoProtocol; MoonwellProtocol];
     config := config;
     rateHistory := h;
     lastComparison := None |}.

(** An entry of [Promise.allSettled]: the rate and the balance read, or a
    rejection. Of the reason of a rejection the monitor makes one use: it
    puts it in the context of an error log, which the logger passes to
    [JSON.stringify]; [serializable] tells whether [JSON.stringify]
    accepts it (it throws a [TypeError] on a [bigint], as the errors of
    contract reads carry, and on a cycle). *)
Inductive Settled :=
| fulfilled (rate : float) (held : Z)
| rejected (serializable : bool).

(** What the outside world answers during one cycle. *)
Record Reads := {
  (** [Promise.all([protocol.getAPY(), protocol.getBalance(vault)])] *)
  onchainRead : string → Settled;
  (** [fetchDeFiLlamaRates()], its [rates] map; [None] when it throws *)
  defillamaFetch : option (gmap string float);
  (** the second [protocol.getBalance(vault)], of the fallback branch;
      [None] when it throws *)
  balanceRetry : string → option Z;
}.

(** The errors that leave [getSnapshots] and [compareYields]: the
    [TypeError] of [JSON.stringify] in [logger.logError], and the
    [TypeError] of [reduce] on an empty array without initial value. *)
Inductive Failure := cannot_serialize | reduce_of_empty_array.

Inductive result (A : Type) :=
| Return (a : A)
| Throw (e : Failure).
Arguments Return {A} a.
Arguments Throw {A} e.

(** The variables the loop of [getSnapshots] updates. *)
Record Cycle := {
  results : list ProtocolSnapshot;
  onchainCount : nat;
  defillamaCount : nat;
  hist : RateHistory.t;
}.

(** One iteration of [for (let i = 0; i < this.protocols.length; i++)];
    [None] when [logger.logError] throws, which it does before the
    iteration has changed anything. *)
Definition cycle_step (reads : Reads) (defillamaRates : option (gmap string float))
    (now : Z) (c : Cycle) (protocol : YieldProtocol) : option Cycle :=
  match onchainRead reads (id protocol) with
  | fulfilled apy bal =>
      Some
        {| results := results c ++
             [{| protocolId := id protocol; protocolName := name protocol;
                 snapshotAddress := address protocol;
                 apyPercent := apy; balance := bal; timestamp := now |}];
           onchainCount := S (onchainCount c);
           defillamaCount := defillamaCount c;
           hist := RateHistory.record (hist c) now
             {| RateHistory.protocolId := id protocol;
                RateHistory.apy := apy;
                RateHistory.timestamp := now;
                RateHistory.source := RateHistory.onchain |} |}
  | rejected serializable =>
      match defillamaRates ≫= (λ rates, rates !! id protocol) with
      | Some defillamaApy =>
          let bal := default 0 (balanceRetry reads (id protocol)) in
          Some
            {| results := results c ++
                 [{| protocolId := id protocol; protocolName := name protocol;
                     snapshotAddress := address protocol;
                     apyPercent := defillamaApy; balance := bal;
                     timestamp := now |}];
               onchainCount := onchainCount c;
               defillamaCount := S (defillamaCount c);
               hist := RateHistory.record (hist c) now
                 {| RateHistory.protocolId := id protocol;
                    RateHistory.apy := defillamaApy;
                    RateHistory.timestamp := now;
                    RateHistory.source := RateHistory.defillama |} |}
      | None =>
          let lastRate := RateHistory.getLatestRate (hist c) (id protocol) in
          (* this.logger.logError(..., { onchainError: result.reason, ... }) *)
          if serializable then
            Some
              {| results := results c ++
                   [{| protocolId := id protocol; protocolName := name protocol;
                       snapshotAddress := address protocol;
                       apyPercent :=
                         default 0%float (RateHistory.apy <$> lastRate);
                       balance := 0; timestamp := now |}];
                 onchainCount := onchainCount c;
                 defillamaCount := defillamaCount c;
                 hist := hist c |}
          else None
      end
  end.

(** The loop: [inl] with the variables at its end, [inr] with the
    variables as they were when an iteration threw. *)
Fixpoint cycle_loop (reads : Reads) (defillamaRates : option (gmap string float))
    (now : Z) (c : Cycle) (ps : list YieldProtocol) : Cycle + Cycle :=
  match ps with
  | [] => inl c
  | protocol :: rest =>
      match cycle_step reads defillamaRates now c protocol with
      | Some c' => cycle_loop reads defillamaRates now c' rest
      | None => inr c
      end
  end.

Definition set_rateHistory (m : t) (h : RateHistory.t) : t :=
  {| protocols := protocols m; config := config m;
     rateHistory := h; lastComparison := lastComparison m |}.

(** [getSnapshots]: what it returns or throws, and the monitor after it
    (the samples recorded until then stay in the history). The error log
    of a failed DeFiLlama fetch holds the message and the stack of an
    [Error], which are strings: it does not throw. *)
Definition getSnapshots (m : t) (reads : Reads) (now : Z)
  : result (list ProtocolSnapshot * DataSource) * t :=
  let defillamaRates :=
    if useDeFiLlamaFallback (config m) then defillamaFetch reads else None in
  match cycle_loop reads defillamaRates now
          {| results := []; onchainCount := 0; defillamaCount := 0;
             hist := rateHistory m |}
          (protocols m) with
  | inl c =>
      let dataSource :=
        if decide (defillamaCount c = 0%nat) then onchain
        else if decide (onchainCount c = 0%nat) then defillama
        else mixed in
      (Return (results c, dataSource), set_rateHistory m (hist c))
  | inr c => (Throw cannot_serialize, set_rateHistory m (hist c))
  end.

(** The [for (const snapshot of snapshots)] loop that fills [anomalies]. *)
Definition detect_step (h : RateHistory.t) (now : Z)
    (anomalies : gmap string RateHistory.RateAnomaly)
    (snapshot : ProtocolSnapshot) : gmap string RateHistory.RateAnomaly :=
  let anomaly :=
    RateHistory.detectAnomalies h (protocolId snapshot)
      (Some (apyPercent snapshot)) now in
  if RateHistory.suspicious anomaly
  then <[protocolId snapshot := anomaly]> anomalies
  else anomalies.

(** [twapResult && twapResult.sampleCount >= 2], and then its [twap]. *)
Definition usable_twap (cfg : YieldMonitorConfig) (h : RateHistory.t)
    (now : Z) (snapshot : ProtocolSnapshot) : option float :=
  match RateHistory.getTWAP h (protocolId snapshot) (twapWindowHours cfg) now with
  | Some twapResult =>
      if decide (2 ≤ RateHistory.sampleCount twapResult)%nat
      then Some (RateHistory.twap twapResult) else None
  | None => None
  end.

Definition with_apy (snapshot : ProtocolSnapshot) (apy : float) : ProtocolSnapshot :=
  {| protocolId := protocolId snapshot;
     protocolName := protocolName snapshot;
     snapshotAddress := snapshotAddress snapshot;
     apyPercent := apy;
     balance := balance snapshot;
     timestamp := timestamp snapshot |}.

Definition effective (cfg : YieldMonitorConfig) (h : RateHistory.t)
    (now : Z) (snapshot : ProtocolSnapshot) : ProtocolSnapshot :=
  match usable_twap cfg h now snapshot with
  | Some twap => with_apy snapshot twap
  | None => snapshot
  end.

(** [arr.reduce((best, current) => current.apyPercent > best.apyPercent
    ? current : best)]; without an initial value [reduce] throws on the
    empty array. *)
Definition better (best current : ProtocolSnapshot) : ProtocolSnapshot :=
  if (apyPercent best <? apyPercent current)%float then current else best.

Definition reduce_best (l : list ProtocolSnapshot) : option ProtocolSnapshot :=
  match l with
  | [] => None
  | first :: rest => Some (foldl better first rest)
  end.

(** The body of [compareYields] from the snapshots on; [None] when
    [reduce] throws. *)
Definition compareSnapshots (cfg : YieldMonitorConfig) (h : RateHistory.t)
    (now : Z) (snaps : list ProtocolSnapshot) (dataSource : DataSource)
  : option ProtectedYieldComparison :=
  let anomalies :=
    if enableAnomalyDetection cfg
    then foldl (detect_step h now) ∅ snaps else ∅ in
  let effectiveSnapshots :=
    if useTWAP cfg then effective cfg h now <$> snaps else snaps in
  let twapUsed :=
    if useTWAP cfg
    then existsb (λ s, bool_decide (is_Some (usable_twap cfg h now s))) snaps
    else false in
  match reduce_best effectiveSnapshots with
  | None => None
  | Some bestProtocol =>
      let currentProtocol :=
        List.find (λ s, 0 <? balance s) effectiveSnapshots in
      let currentApy := default 0%float (apyPercent <$> currentProtocol) in
      let apyDifferentialBps :=
        Math_round ((apyPercent bestProtocol - currentApy) * 10000)%float in
      let '(shouldRebalance, rejectReason) :=
        match currentProtocol with
        | None => (false, Some "no_funds_to_move")
        | Some current =>
            if decide (protocolId current = protocolId bestProtocol)
            then (false, Some "already_in_best_protocol")
            else if (apyDifferentialBps <? MIN_APY_DIFFERENTIAL_BPS)%float
            then (false, Some "apy_differential_below_threshold")
            else if bool_decide (is_Some (anomalies !! protocolId bestProtocol))
            then (false, Some "target_protocol_anomaly_detected")
            else (true, None)
        end in
      Some {| snapshots := effectiveSnapshots;
              bestProtocol := bestProtocol;
              currentProtocol := currentProtocol;
              apyDifferentialBps := apyDifferentialBps;
              shouldRebalance := shouldRebalance;
              comparisonTimestamp := now;
              twapUsed := twapUsed;
              anomalies := anomalies;
              rejectReason := rejectReason;
              dataSource := dataSource |}
  end.

Definition compareYields (m : t) (reads : Reads) (now : Z)
  : result ProtectedYieldComparison * t :=
  match getSnapshots m reads now with
  | (Throw e, m1) => (Throw e, m1)
  | (Return (snaps, dataSource), m1) =>
      match compareSnapshots (config m1) (rateHistory m1) now snaps dataSource with
      | None => (Throw reduce_of_empty_array, m1)
      | Some comparison =>
          (Return comparison,
           {| protocols := protocols m1; config := config m1;
              rateHistory := rateHistory m1;
              lastComparison := Some comparison |})
      end
  end.

End YieldMonitor.


(** ** URLSearchParams

    [new URLSearchParams(record).toString()] is the
    application/x-www-form-urlencoded serializer: the pairs in the order of
    the record, [name=value] joined by [&], every byte of a name or value
    kept when it is an ASCII letter, a digit or one of [* - . _], a space
    turned into [+], and any other byte written [%XX] in uppercase
    hexadecimal. A [string] stands for the UTF-8 bytes of the JavaScript
    string. *)

Module URLSearchParams.

Definition is_unreserved (c : ascii) : bool :=
  let n := N_of_ascii c in
  ((n =? 42) || (n =? 45) || (n =? 46) || (n =? 95)
   || ((48 <=? n) && (n <=? 57))
   || ((65 <=? n) && (n <=? 90))
   || ((97 <=? n) && (n <=? 122)))%N.

Definition hex_digit (n : N) : ascii :=
  (if n <? 10 then ascii_of_N (48 + n) else ascii_of_N (55 + n))%N.

Definition percent_encode (c : ascii) : string :=
  let n := N_of_ascii c in
  String "%"%char (String (hex_digit (n / 16)) (String (hex_digit (n mod 16)) "")).

Definition serialize_byte (c : ascii) : string :=
  if Ascii.eqb c " "%char then "+"
  else if is_unreserved c then String c ""
  else percent_encode c.

Fixpoint serialize (s : string) : string :=
  match s with
  | EmptyString => ""
  | String c s' => serialize_byte c +:+ serialize s'
  end.

Definition pair_toString (p : string * string) : string :=
  serialize (fst p) +:+ "=" +:+ serialize (snd p).

Fixpoint toString (params : list (string * string)) : string :=
  match params with
  | [] => ""
  | [p] => pair_toString p
  | p :: rest => pair_toString p +:+ "&" +:+ toString rest
  end.

End URLSearchParams.

(** ** approval-flow.ts (with the types of types.ts it uses) *)

Module ApprovalFlow.

Inductive Protocol := AAVE_V3 | COMPOUND_V3 | MORPHO_BLUE | MOONWELL.

Inductive ProposalStatus :=
  PENDING_APPROVAL | APPROVED | REJECTED | EXECUTED | EXPIRED | FAILED.

Record RebalanceProposal := {
  id : string;
  fromProtocol : Protocol;
  toProtocol : Protocol;
  amount : Z;
  fromAPY : Q;
  toAPY : Q;
  apyDelta : Q;
  estimatedGasCost : Z;
  createdAt : Z;
  proposalExpiresAt : Z;
  status : ProposalStatus;
}.

Record PackedUserOperation := {
  sender : string;
  nonce : Z;
  initCode : string;
  callData : string;
  accountGasLimits : string;
  preVerificationGas : Z;
  gasFees : string;
  paymasterAndData : string;
  signature : string;
}.

Record WebAuthnAuth := {
  authenticatorData : string;
  clientDataJSON : string;
  challengeIndex : Z;
  typeIndex : Z;
  r : Z;
  s : Z;
}.

Record ApprovalDisplayData := {
  action : string;
  displayFromProtocol : string;
  displayToProtocol : string;
  displayAmount : string;
  currentAPY : string;
  newAPY : string;
  apyGain : string;
  estimatedGas : string;
}.

Record ApprovalRequest := {
  proposalId : string;
  vaultAddress : string;
  userOpHash : string;
  userOp : PackedUserOperation;
  displayData : ApprovalDisplayData;
  approvalUrl : string;
  expiresAt : Z;
}.

Record ApprovalResponse := {
  responseProposalId : string;
  approved : bool;
  responseSignature : option string;
  webAuthnAuth : option WebAuthnAuth;
  responseTimestamp : Z;
}.

Record ApprovalNotification := {
  notificationProposalId : string;
  notificationApprovalUrl : string;
  message : string;
  notificationDisplayData : ApprovalDisplayData;
  notificationExpiresAt : Z;
}.

Inductive AuditEventType :=
| PROPOSAL_CREATED | APPROVAL_REQUESTED | APPROVAL_RECEIVED
| APPROVAL_REJECTED | APPROVAL_EXPIRED | EXECUTION_STARTED
| EXECUTION_SUCCESS | EXECUTION_FAILED
| SESSION_KEY_GRANTED | SESSION_KEY_REVOKED.

(** An [AuditLogEntry] without its random [id] and its free-form
    [details]. *)
Record AuditLogEntry := {
  auditTimestamp : Z;
  eventType : AuditEventType;
  auditProposalId : option string;
  auditVaultAddress : string;
  auditUserOpHash : option string;
  auditTxHash : option string;
}.

(** The [ApprovalFlowError]s the class throws, by their message; a
    failure of the wallet manager passes through as it is. *)
Inductive ApprovalFlowError :=
| NoPendingApproval (proposalId : string)
| ApprovalExpired
| UserRejected
| MissingWebAuthn
| WalletManagerFailure.

Definition error_message (e : ApprovalFlowError) : string :=
  match e with
  | NoPendingApproval proposalId =>
      "No pending approval found for proposal " +:+ proposalId
  | ApprovalExpired => "Approval request has expired"
  | UserRejected => "User rejected the approval request"
  | MissingWebAuthn => "Missing WebAuthn signature in approval"
  | WalletManagerFailure => "wallet manager error"
  end.

Inductive result (A : Type) :=
| Return (a : A)
| Throw (e : ApprovalFlowError).
Arguments Return {A} a.
Arguments Throw {A} e.

(** The two methods of [WalletManager] the flow calls; [None] is a
    thrown error. *)
Record WalletManager := {
  prepareForPasskeySigning : PackedUserOperation → option string;
  attachPasskeySignature :
    PackedUserOperation → WebAuthnAuth → option PackedUserOperation;
}.

(** The text formatting of [formatDisplayData] and
    [formatNotificationMessage] ([Intl.NumberFormat], [toFixed]) is left
    to the host. *)
Record Formatting := {
  formatDisplayData : RebalanceProposal → ApprovalDisplayData;
  formatNotificationMessage : ApprovalDisplayData → Z → Z → string;
}.

Record ApprovalFlowConfig := {
  approvalUiBaseUrl : string;
  approvalTimeout : option Z;
}.

Definition DEFAULT_TIMEOUT : Z := 24 * 60 * 60 * 1000.

(** The private fields of the class, and the entries handed to
    [config.onAuditLog] so far. *)
Record t := {
  config : ApprovalFlowConfig;
  walletManager : WalletManager;
  formatting : Formatting;
  pendingApprovals : gmap string ApprovalRequest;
  proposals : gmap string RebalanceProposal;
  auditLog : list AuditLogEntry;
}.

Definition create (walletManager : WalletManager) (formatting : Formatting)
    (config : ApprovalFlowConfig) : t :=
  {| config := config; walletManager := walletManager;
     formatting := formatting;
     pendingApprovals := ∅; proposals := ∅; auditLog := [] |}.

Definition set_pendingApprovals (f : t) (p : gmap string ApprovalRequest) : t :=
  {| config := config f; walletManager := walletManager f;
     formatting := formatting f;
     pendingApprovals := p; proposals := proposals f;
     auditLog := auditLog f |}.

Definition set_proposals (f : t) (p : gmap string RebalanceProposal) : t :=
  {| config := config f; walletManager := walletManager f;
     formatting := formatting f;
     pendingApprovals := pendingApprovals f; proposals := p;
     auditLog := auditLog f |}.

Definition logAudit (f : t) (now : Z) (eventType : AuditEventType)
    (proposalId : option string) (vaultAddress : option string)
    (userOpHash : option string) : t :=
  {| config := config f; walletManager := walletManager f;
     formatting := formatting f;
     pendingApprovals := pendingApprovals f; proposals := proposals f;
     auditLog := auditLog f ++
       [{| auditTimestamp := now; eventType := eventType;
           auditProposalId := proposalId;
           auditVaultAddress := default "0x" vaultAddress;
           auditUserOpHash := userOpHash;
           auditTxHash := None |}] |}.

Record ProposalParams := {
  paramFromProtocol : Protocol;
  paramToProtocol : Protocol;
  paramAmount : Z;
  paramFromAPY : Q;
  paramToAPY : Q;
  paramEstimatedGasCost : Z;
}.

(** [createProposal]; [fresh] is the value of [nanoid(12)]. *)
Definition createProposal (f : t) (now : Z) (fresh : string)
    (params : ProposalParams) : RebalanceProposal * t :=
  let timeout := default DEFAULT_TIMEOUT (approvalTimeout (config f)) in
  let proposal :=
    {| id := fresh;
       fromProtocol := paramFromProtocol params;
       toProtocol := paramToProtocol params;
       amount := paramAmount params;
       fromAPY := paramFromAPY params;
       toAPY := paramToAPY params;
       apyDelta := (paramToAPY params - paramFromAPY params)%Q;
       estimatedGasCost := paramEstimatedGasCost params;
       createdAt := now;
       proposalExpiresAt := now + timeout;
       status := PENDING_APPROVAL |} in
  let f := set_proposals f (<[id proposal := proposal]> (proposals f)) in
  (proposal, logAudit f now PROPOSAL_CREATED (Some (id proposal)) None None).

Definition getProposal (f : t) (proposalId : string) : option RebalanceProposal :=
  proposals f !! proposalId.

Definition with_status (status : ProposalStatus) (p : RebalanceProposal)
  : RebalanceProposal :=
  {| id := id p; fromProtocol := fromProtocol p; toProtocol := toProtocol p;
     amount := amount p; fromAPY := fromAPY p; toAPY := toAPY p;
     apyDelta := apyDelta p; estimatedGasCost := estimatedGasCost p;
     createdAt := createdAt p; proposalExpiresAt := proposalExpiresAt p;
     status := status |}.

(** [updateProposalStatus]: the proposal object held in [proposals] is
    mutated in place, and nothing happens for an unknown id. *)
Definition updateProposalStatus (f : t) (proposalId : string)
    (status : ProposalStatus) : t :=
  set_proposals f (alter (with_status status) proposalId (proposals f)).

Definition generateApprovalUrl (f : t) (proposalId userOpHash vaultAddress : string)
  : string :=
  let params :=
    URLSearchParams.toString
      [("id", proposalId); ("hash", userOpHash); ("vault", vaultAddress)] in
  approvalUiBaseUrl (config f) +:+ "?" +:+ params.

Definition requestApproval (f : t) (now : Z) (proposal : RebalanceProposal)
    (vaultAddress : string) (userOp : PackedUserOperation)
  : result (ApprovalRequest * ApprovalNotification) * t :=
  match prepareForPasskeySigning (walletManager f) userOp with
  | None => (Throw WalletManagerFailure, f)
  | Some userOpHash =>
      let displayData := formatDisplayData (formatting f) proposal in
      let approvalUrl := generateApprovalUrl f (id proposal) userOpHash vaultAddress in
      let approvalRequest :=
        {| proposalId := id proposal;
           vaultAddress := vaultAddress;
           userOpHash := userOpHash;
           userOp := userOp;
           displayData := displayData;
           approvalUrl := approvalUrl;
           expiresAt := proposalExpiresAt proposal |} in
      let f := set_pendingApprovals f
                 (<[id proposal := approvalRequest]> (pendingApprovals f)) in
      let f := logAudit f now APPROVAL_REQUESTED (Some (id proposal))
                 (Some vaultAddress) (Some userOpHash) in
      let notification :=
        {| notificationProposalId := id proposal;
           notificationApprovalUrl := approvalUrl;
           message := formatNotificationMessage (formatting f) displayData
                        (proposalExpiresAt proposal) now;
           notificationDisplayData := displayData;
           notificationExpiresAt := proposalExpiresAt proposal |} in
      (Return (approvalRequest, notification), f)
  end.

Definition processApproval (f : t) (now : Z) (response : ApprovalResponse)
  : result PackedUserOperation * t :=
  let proposalId := responseProposalId response in
  match pendingApprovals f !! proposalId with
  | None => (Throw (NoPendingApproval proposalId), f)
  | Some pendingRequest =>
      if expiresAt pendingRequest <? now then
        let f := updateProposalStatus f proposalId EXPIRED in
        let f := set_pendingApprovals f (delete proposalId (pendingApprovals f)) in
        let f := logAudit f now APPROVAL_EXPIRED (Some proposalId)
                   (Some (vaultAddress pendingRequest)) None in
        (Throw ApprovalExpired, f)
      else if negb (approved response) then
        let f := updateProposalStatus f proposalId REJECTED in
        let f := set_pendingApprovals f (delete proposalId (pendingApprovals f)) in
        let f := logAudit f now APPROVAL_REJECTED (Some proposalId)
                   (Some (vaultAddress pendingRequest)) None in
        (Throw UserRejected, f)
      else
        match webAuthnAuth response with
        | None => (Throw MissingWebAuthn, f)
        | Some auth =>
            match attachPasskeySignature (walletManager f)
                    (userOp pendingRequest) auth with
            | None => (Throw WalletManagerFailure, f)
            | Some signedUserOp =>
                let f := updateProposalStatus f proposalId APPROVED in
                let f := set_pendingApprovals f
                           (delete proposalId (pendingApprovals f)) in
                let f := logAudit f now APPROVAL_RECEIVED (Some proposalId)
                           (Some (vaultAddress pendingRequest))
                           (Some (userOpHash pendingRequest)) in
                (Return signedUserOp, f)
            end
        end
  end.

Definition rejectProposal (f : t) (now : Z) (proposalId : string) : t :=
  match pendingApprovals f !! proposalId with
  | Some pendingRequest =>
      let f := updateProposalStatus f proposalId REJECTED in
      let f := set_pendingApprovals f (delete proposalId (pendingApprovals f)) in
      logAudit f now APPROVAL_REJECTED (Some proposalId)
        (Some (vaultAddress pendingRequest)) None
  | None => f
  end.

(** [Array.from(this.pendingApprovals.values())], up to the order. *)
Definition getPendingApprovals (f : t) : list ApprovalRequest :=
  (map_to_list (pendingApprovals f)).*2.

End ApprovalFlow.

(** ** session-key-manager.ts *)

Module SecureSessionKeyManager.

Record SessionKeyConfig := {
  validUntil : Z;
  spendLimit : Z;
}.

Record EncryptedSessionKey := {
  address : string;
  encryptedPrivateKey : string;
  iv : string;
  authTag : string;
  config : SessionKeyConfig;
}.

Record DecryptedSessionKey := {
  decryptedAddress : string;
  privateKey : string;
  decryptedConfig : SessionKeyConfig;
}.

(** The errors of [decryptForSigning], by their message; the last one is
    the error [decipher.final()] raises when the tag does not
    authenticate the ciphertext. *)
Inductive SessionKeyFailure :=
| NoSessionKeyFound (address : string)
| SessionKeyExpired (address : string)
| AuthenticationFailed.

Definition failure_message (e : SessionKeyFailure) : string :=
  match e with
  | NoSessionKeyFound address => "No session key found for address " +:+ address
  | SessionKeyExpired address => "Session key " +:+ address +:+ " has expired"
  | AuthenticationFailed => "Unsupported state or unable to authenticate data"
  end.

Inductive result :=
| Return (key : DecryptedSessionKey)
| Throw (e : SessionKeyFailure).

(** One call of the private [decrypt(ciphertext, iv, authTag)]. *)
Record DecryptCall := {
  callCiphertext : string;
  callIv : string;
  callAuthTag : string;
}.

(** The private fields of the class; [aes256gcm] is the decryption of
    node:crypto under [encryptionKey], [None] when it throws. A buffer is
    the string of its bytes. *)
Record t := {
  encryptionKey : string;
  aes256gcm : string → string → string → string → option string;
  encryptedKeys : gmap string EncryptedSessionKey;
}.

Definition set_encryptedKeys (m : t) (keys : gmap string EncryptedSessionKey) : t :=
  {| encryptionKey := encryptionKey m; aes256gcm := aes256gcm m;
     encryptedKeys := keys |}.

Definition hex_digit (n : N) : ascii :=
  (if n <? 10 then ascii_of_N (48 + n) else ascii_of_N (87 + n))%N.

Fixpoint hex_of_bytes (bytes : string) : string :=
  match bytes with
  | EmptyString => ""
  | String c rest =>
      let n := N_of_ascii c in
      String (hex_digit (n / 16)) (String (hex_digit (n mod 16)) (hex_of_bytes rest))
  end.

(** viem's [bytesToHex] *)
Definition bytesToHex (bytes : string) : string := "0x" +:+ hex_of_bytes bytes.

Definition loadEncryptedKey (m : t) (encryptedKey : EncryptedSessionKey) : t :=
  set_encryptedKeys m (<[address encryptedKey := encryptedKey]> (encryptedKeys m)).

Definition getEncryptedKey (m : t) (address : string) : option EncryptedSessionKey :=
  encryptedKeys m !! address.

(** [Date.now() / 1000] *)
Definition seconds (now : Z) : Q := (inject_Z now / 1000)%Q.

Definition decrypt (m : t) (ciphertext iv authTag : string) : option string :=
  aes256gcm m (encryptionKey m) ciphertext iv authTag.

(** [decryptForSigning], with the calls of [decrypt] it made. *)
Definition decryptForSigning (m : t) (now : Z) (addr : string)
  : list DecryptCall * result :=
  match encryptedKeys m !! addr with
  | None => ([], Throw (NoSessionKeyFound addr))
  | Some encrypted =>
      if Qgtb (seconds now) (inject_Z (validUntil (config encrypted)))
      then ([], Throw (SessionKeyExpired addr))
      else
        let call :=
          {| callCiphertext := encryptedPrivateKey encrypted;
             callIv := iv encrypted;
             callAuthTag := authTag encrypted |} in
        match decrypt m (encryptedPrivateKey encrypted) (iv encrypted)
                (authTag encrypted) with
        | None => ([call], Throw AuthenticationFailed)
        | Some privateKeyBytes =>
            ([call],
             Return {| decryptedAddress := address encrypted;
                       privateKey := bytesToHex privateKeyBytes;
                       decryptedConfig := config encrypted |})
        end
  end.

Definition revokeSessionKey (m : t) (address : string) : bool * t :=
  (bool_decide (is_Some (encryptedKeys m !! address)),
   set_encryptedKeys m (delete address (encryptedKeys m))).

(** [k.config.validUntil > now] *)
Definition still_valid (now : Z) (k : EncryptedSessionKey) : bool :=
  Qgtb (inject_Z (validUntil (config k))) (seconds now).

(** [key.config.validUntil <= now] *)
Definition to_clean_up (now : Z) (k : EncryptedSessionKey) : bool :=
  Qle_bool (inject_Z (validUntil (config k))) (seconds now).

(** [getValidSessionKeys], up to the order. *)
Definition getValidSessionKeys (m : t) (now : Z) : list EncryptedSessionKey :=
  List.filter (still_valid now) (map_to_list (encryptedKeys m)).*2.

Definition cleanupExpired (m : t) (now : Z) : nat * t :=
  (size (filter (λ kv, to_clean_up now kv.2 = true) (encryptedKeys m)),
   set_encryptedKeys m
     (filter (λ kv, to_clean_up now kv.2 = false) (encryptedKeys m))).

End SecureSessionKeyManager.

(** ** The vocabulary of the properties *)

Module RateHistorySpec.
Import RateHistory.

(** The stores a program can build: [new RateHistory(w)] followed by
    calls of [record] and [clear]. *)
Inductive reachable (w : Z) : t → Prop :=
| reach_create : reachable w (create w)
| reach_record h now entry :
    reachable w h → reachable w (record h now entry)
| reach_clear h : reachable w h → reachable w (clear h).

Definition ts_le (a b : RateEntry) : Prop := timestamp a ≤ timestamp b.

Definition one_hour : Z := 60 * 60 * 1000.

(** The samples of a source inside the window of [w] milliseconds that
    ends at [now]: those the store holds for it that are dated [now - w]
    or later, in the order in which it holds them. *)
Definition in_window (h : t) (id : string) (w now : Z) : list RateEntry :=
  filter (λ e, now - w ≤ timestamp e) (default [] (history h !! id)).

(** [samples] is [stored] sorted by timestamp: the same samples, by
    non-decreasing timestamp, those of one timestamp in the order they
    have in [stored]. *)
Definition sorted_by_timestamp (stored samples : list RateEntry) : Prop :=
  samples ≡ₚ stored ∧
  StronglySorted ts_le samples ∧
  ∀ t, filter (λ e, timestamp e = t) samples
       = filter (λ e, timestamp e = t) stored.

(** The adjacent pairs (earlier, later) of a list of samples. *)
Definition adjacent (l : list RateEntry) : list (RateEntry * RateEntry) :=
  zip l (tail l).

(** The gap between the timestamps of a pair. *)
Definition gap (p : RateEntry * RateEntry) : Z := timestamp p.2 - timestamp p.1.

(** The weight of the most recent sample: [min(now - its timestamp, 1 hour)]. *)
Definition latest_weight (now : Z) (e : RateEntry) : Z :=
  Z.min (now - timestamp e) one_hour.

(** The rate and the weight of every term of the average: the earlier
    rate and the gap of each adjacent pair, then the rate of the most
    recent sample and its weight. *)
Definition terms (now : Z) (samples : list RateEntry) (latest : RateEntry)
  : list (float * Z) :=
  ((λ p, (apy p.1, gap p)) <$> adjacent samples)
  ++ [(apy latest, latest_weight now latest)].

(** A sum of numbers, accumulated from 0 in the order of the list. *)
Definition sum_in_order (l : list float) : float := foldl PrimFloat.add 0%float l.

(** The sum of rate × weight over the terms. *)
Definition weighted_sum (now : Z) (samples : list RateEntry) (latest : RateEntry)
  : float :=
  sum_in_order ((λ t, t.1 * number t.2)%float <$> terms now samples latest).

(** The total of the weights. *)
Definition total_weight (now : Z) (samples : list RateEntry) (latest : RateEntry)
  : float :=
  sum_in_order ((λ t, number t.2) <$> terms now samples latest).

(** The time-weighted average of sorted samples: the weighted sum divided
    by the total weight when that total is positive, else the rate of the
    most recent sample. *)
Definition time_weighted_average (now : Z) (samples : list RateEntry)
    (latest : RateEntry) : float :=
  if (0 <? total_weight now samples latest)%float
  then (weighted_sum now samples latest / total_weight now samples latest)%float
  else apy latest.

(** The change from a reference rate to the current rate, as a fraction
    of the reference rate. *)
Definition fractional_change (reference current : float) : float :=
  (abs (current - reference) / reference)%float.

(** A store with one sample of "aave" recorded at time 0, under a
    retention window of one second. *)
Definition aave_at_0 : RateEntry :=
  {| protocolId := "aave"; apy := 0.03; timestamp := 0; source := onchain |}.
Definition compound_at_5000 : RateEntry :=
  {| protocolId := "compound"; apy := 0.04; timestamp := 5000; source := onchain |}.
Definition store_with_aave : t := record (create 1000) 0 aave_at_0.

(** A store with two samples of "aave": 5% at time 970000 and 10% thirty
    seconds later. *)
Definition aave_5_percent : RateEntry :=
  {| protocolId := "aave"; apy := 0.05; timestamp := 970000; source := onchain |}.
Definition aave_10_percent : RateEntry :=
  {| protocolId := "aave"; apy := 0.10; timestamp := 1000000; source := onchain |}.
Definition two_samples : t :=
  record (record (create DEFAULT_HISTORY_WINDOW_MS) 970000 aave_5_percent)
    1000000 aave_10_percent.

(** A store with two samples of "aave" recorded at the same instant
    1000000: 5%, then 10%. *)
Definition aave_5_percent_late : RateEntry :=
  {| protocolId := "aave"; apy := 0.05; timestamp := 1000000; source := onchain |}.
Definition same_instant : t :=
  record (record (create DEFAULT_HISTORY_WINDOW_MS) 1000000 aave_5_percent_late)
    1000000 aave_10_percent.

(** A store with two samples of "aave": a rate of 0 at time 0 and 10% one
    millisecond later. *)
Definition aave_0_percent : RateEntry :=
  {| protocolId := "aave"; apy := 0; timestamp := 0; source := onchain |}.
Definition aave_10_percent_early : RateEntry :=
  {| protocolId := "aave"; apy := 0.10; timestamp := 1; source := onchain |}.
Definition from_zero : t :=
  record (record (create DEFAULT_HISTORY_WINDOW_MS) 0 aave_0_percent)
    1 aave_10_percent_early.

End RateHistorySpec.

Module YieldMonitorSpec.
Import YieldMonitor.

(** A snapshot holds funds when its balance is positive. *)
Definition holds_funds (s : ProtocolSnapshot) : Prop := 0 < balance s.



(** What is known of the best and of the current source of a comparison:
    the best one is a snapshot compared, and no snapshot compared has a
    rate greater than its rate; the current one is the first snapshot
    that holds funds, and there is none exactly when no snapshot holds
    funds; the differential is the best rate minus the current rate (0
    without a current source), times 10000, rounded to the nearest
    integer. *)
Definition best_and_current (r : ProtectedYieldComparison) : Prop :=
  bestProtocol r ∈ snapshots r ∧
  (∀ s, s ∈ snapshots r →
     (apyPercent (bestProtocol r) <? apyPercent s)%float = false) ∧
  (currentProtocol r = None ↔ Forall (λ s, ¬ holds_funds s) (snapshots r)) ∧
  (∀ c, currentProtocol r = Some c →
     holds_funds c ∧
     ∃ before after, snapshots r = before ++ c :: after ∧
                     Forall (λ s, ¬ holds_funds s) before) ∧
  apyDifferentialBps r =
    Math_round ((apyPercent (bestProtocol r)
                 - default 0 (apyPercent <$> currentProtocol r)) * 10000)%float.

(** The rejection rules of [compareYields], in their order. *)
Definition decision_rules (r : ProtectedYieldComparison) : Prop :=
  (Forall (λ s, ¬ holds_funds s) (snapshots r) →
     shouldRebalance r = false ∧ rejectReason r = Some "no_funds_to_move") ∧
  (∀ current, currentProtocol r = Some current →
     let same := protocolId current = protocolId (bestProtocol r) in
     let below := (apyDifferentialBps r <? 50)%float = true in
     let flagged := is_Some (anomalies r !! protocolId (bestProtocol r)) in
     (same →
        shouldRebalance r = false ∧
        rejectReason r = Some "already_in_best_protocol") ∧
     (¬ same → below →
        shouldRebalance r = false ∧
        rejectReason r = Some "apy_differential_below_threshold") ∧
     (¬ same → ¬ below → flagged →
        shouldRebalance r = false ∧
        rejectReason r = Some "target_protocol_anomaly_detected") ∧
     (¬ same → ¬ below → ¬ flagged →
        shouldRebalance r = true ∧ rejectReason r = None)).

(** The anomaly flags of a comparison made of [snaps]: a source is flagged
    exactly when detection is enabled and the detector finds the rate of
    one of its snapshots suspicious. *)
Definition anomaly_flags (cfg : YieldMonitorConfig) (h : RateHistory.t)
    (now : Z) (snaps : list ProtocolSnapshot)
    (r : ProtectedYieldComparison) : Prop :=
  ∀ i, is_Some (anomalies r !! i) ↔
       enableAnomalyDetection cfg = true ∧
       ∃ s, s ∈ snaps ∧ protocolId s = i ∧
            RateHistory.suspicious
              (RateHistory.detectAnomalies h i (Some (apyPercent s)) now) = true.

(** The answers of a cycle in which the vault holds 1000 USDC in Aave at
    3.00% while Compound pays 5.25%. *)
Definition example_reads : Reads :=
  {| onchainRead := λ i,
       if decide (i = "aave") then fulfilled 0.03 1000000000
       else if decide (i = "compound") then fulfilled 0.0525 0
       else if decide (i = "morpho") then fulfilled 0.02 0
       else fulfilled 0.01 0;
     defillamaFetch := None;
     balanceRetry := λ _, None |}.



(** The answers of a cycle in which every read fails, with rejection
    reasons that can be logged. *)
Definition failing_reads : Reads :=
  {| onchainRead := λ _, rejected true;
     defillamaFetch := None;
     balanceRetry := λ _, None |}.

(** The answers of a cycle in which the reads of Aave and Compound
    succeed and that of Morpho is rejected with a reason that holds a
    [bigint]. *)
Definition unloggable_reads : Reads :=
  {| onchainRead := λ i,
       if decide (i = "aave") then fulfilled 0.03 1000000000
       else if decide (i = "compound") then fulfilled 0.0525 0
       else if decide (i = "morpho") then rejected false
       else fulfilled 0.01 0;
     defillamaFetch := None;
     balanceRetry := λ _, None |}.

Definition fresh_monitor : t :=
  create DEFAULT_CONFIG (RateHistory.create RateHistory.DEFAULT_HISTORY_WINDOW_MS).

End YieldMonitorSpec.

Module SourceAggregatorSpec.
Import YieldMonitor.

(** Where the rate of a source comes from in a cycle: the on-chain read,
    the DeFiLlama rates, or the last rate of the history. *)
Inductive Origin := from_onchain | from_defillama | from_history.

Definition origin_of (reads : Reads) (rates : option (gmap string float))
    (p : YieldProtocol) : Origin :=
  match onchainRead reads (id p) with
  | fulfilled _ _ => from_onchain
  | rejected _ =>
      match rates ≫= (λ r, r !! id p) with
      | Some _ => from_defillama
      | None => from_history
      end
  end.

#[export] Instance Origin_eq_dec : EqDecision Origin.
Proof. solve_decision. Defined.

(** The DeFiLlama rates a cycle can use. *)
Definition usable_rates (m : t) (reads : Reads) : option (gmap string float) :=
  if useDeFiLlamaFallback (config m) then defillamaFetch reads else None.

(** The variables of the loop of [getSnapshots] when it starts. *)
Definition cycle_start (m : t) : Cycle :=
  {| results := []; onchainCount := 0; defillamaCount := 0;
     hist := rateHistory m |}.

(** The source has to be served from the history and the reason for which
    its on-chain read was rejected cannot be serialized. *)
Definition unloggable (reads : Reads) (rates : option (gmap string float))
    (p : YieldProtocol) : Prop :=
  origin_of reads rates p = from_history ∧
  onchainRead reads (id p) = rejected false.

(** How a cycle serves one source: from the on-chain read when it
    succeeds; else from the DeFiLlama rate, with the balance of the second
    read or zero; else from the last rate of the history [h] (or 0), with
    balance zero. *)
Definition served (reads : Reads) (rates : option (gmap string float))
    (h : RateHistory.t) (now : Z) (p : YieldProtocol) (s : ProtocolSnapshot)
  : Prop :=
  protocolId s = id p ∧ protocolName s = name p ∧ timestamp s = now ∧
  match onchainRead reads (id p) with
  | fulfilled apy bal => apyPercent s = apy ∧ balance s = bal
  | rejected _ =>
      match rates ≫= (λ r, r !! id p) with
      | Some apy =>
          apyPercent s = apy ∧
          balance s = default 0 (balanceRetry reads (id p))
      | None =>
          apyPercent s =
            default 0%float
              (RateHistory.apy <$> RateHistory.getLatestRate h (id p)) ∧
          balance s = 0
      end
  end.

(** What the history [after] holds for a source a cycle has got through,
    [before] being the history at the start of the cycle: the rate
    obtained on-chain or from DeFiLlama as its latest sample, stamped
    with the time and the origin of the read; or, for a source served
    from its last known rate, what it held before. *)
Definition recorded (reads : Reads) (rates : option (gmap string float))
    (now : Z) (before after : RateHistory.t) (p : YieldProtocol) : Prop :=
  match origin_of reads rates p with
  | from_onchain =>
      ∃ apy bal, onchainRead reads (id p) = fulfilled apy bal ∧
        RateHistory.getLatestRate after (id p) =
        Some {| RateHistory.protocolId := id p; RateHistory.apy := apy;
                RateHistory.timestamp := now;
                RateHistory.source := RateHistory.onchain |}
  | from_defillama =>
      ∃ apy, rates ≫= (λ r, r !! id p) = Some apy ∧
        RateHistory.getLatestRate after (id p) =
        Some {| RateHistory.protocolId := id p; RateHistory.apy := apy;
                RateHistory.timestamp := now;
                RateHistory.source := RateHistory.defillama |}
  | from_history =>
      RateHistory.history after !! id p = RateHistory.history before !! id p
  end.

End SourceAggregatorSpec.

Module ApprovalFlowSpec.
Import ApprovalFlow.

(** The calls a client makes on a flow. *)
Inductive call :=
| CreateProposal (now : Z) (fresh : string) (params : ProposalParams)
| RequestApproval (now : Z) (proposal : RebalanceProposal)
    (vaultAddress : string) (userOp : PackedUserOperation)
| ProcessApproval (now : Z) (response : ApprovalResponse)
| RejectProposal (now : Z) (proposalId : string).

Definition run_call (f : t) (c : call) : t :=
  match c with
  | CreateProposal now fresh params => (createProposal f now fresh params).2
  | RequestApproval now proposal vaultAddress userOp =>
      (requestApproval f now proposal vaultAddress userOp).2
  | ProcessApproval now response => (processApproval f now response).2
  | RejectProposal now proposalId => rejectProposal f now proposalId
  end.

(** The flows a program can build. *)
Inductive reachable : t → Prop :=
| reach_create walletManager formatting config :
    reachable (create walletManager formatting config)
| reach_call f c : reachable f → reachable (run_call f c).

(** Every pending request is filed under the id of its proposal. *)
Definition keyed (f : t) : Prop :=
  ∀ k request, pendingApprovals f !! k = Some request → proposalId request = k.

(** A call that cannot file a pending request under [proposalId]. *)
Definition files_no_request (proposalId : string) (c : call) : Prop :=
  match c with
  | RequestApproval _ proposal _ _ => id proposal ≠ proposalId
  | _ => True
  end.

(** The state [f'] a rejection of [proposalId] leaves behind from [f]: the
    proposal, when the flow tracks it, reads [REJECTED]; no request is
    pending for it; and, as long as no approval is requested for it anew,
    [processApproval] for it fails, whatever the response says and whenever
    it comes. *)
Definition rejected (f f' : t) (proposalId : string) : Prop :=
  getProposal f' proposalId = with_status REJECTED <$> getProposal f proposalId ∧
  (is_Some (getProposal f proposalId) →
     status <$> getProposal f' proposalId = Some REJECTED) ∧
  pendingApprovals f' !! proposalId = None ∧
  ∀ calls later response,
    Forall (files_no_request proposalId) calls →
    responseProposalId response = proposalId →
    let f'' := foldl run_call f' calls in
    processApproval f'' later response = (Throw (NoPendingApproval proposalId), f'').

(** Only letters, digits and [* - . _]: what nanoid ids and 0x-prefixed
    hexadecimal strings are made of. *)
Fixpoint url_safe (s : string) : bool :=
  match s with
  | EmptyString => true
  | String c s' => URLSearchParams.is_unreserved c && url_safe s'
  end.

(** A flow with a timeout of one millisecond, a proposal "V1StGXR8_Z5j"
    created at time 0, and its approval requested at time 0. *)
Definition example_wallet : WalletManager :=
  {| prepareForPasskeySigning := λ _, Some "0xabc123";
     attachPasskeySignature := λ op _,
       Some {| sender := sender op; nonce := nonce op; initCode := initCode op;
               callData := callData op;
               accountGasLimits := accountGasLimits op;
               preVerificationGas := preVerificationGas op;
               gasFees := gasFees op;
               paymasterAndData := paymasterAndData op;
               signature := "0x00" |} |}.

Definition example_display : ApprovalDisplayData :=
  {| action := "Rebalance USDC"; displayFromProtocol := "Aave V3";
     displayToProtocol := "Compound V3"; displayAmount := "$0.00";
     currentAPY := "0.03%"; newAPY := "0.05%"; apyGain := "+0.02%";
     estimatedGas := "<$0.01" |}.

Definition example_formatting : Formatting :=
  {| formatDisplayData := λ _, example_display;
     formatNotificationMessage := λ _ _ _, "AgentVault Approval Request" |}.

Definition example_config : ApprovalFlowConfig :=
  {| approvalUiBaseUrl := "https://approve.example/";
     approvalTimeout := Some 1 |}.

Definition example_params : ProposalParams :=
  {| paramFromProtocol := AAVE_V3; paramToProtocol := COMPOUND_V3;
     paramAmount := 100; paramFromAPY := 3 # 100; paramToAPY := 5 # 100;
     paramEstimatedGasCost := 0 |}.

Definition example_userOp : PackedUserOperation :=
  {| sender := "0x1111111111111111111111111111111111111111"; nonce := 0;
     initCode := "0x"; callData := "0x"; accountGasLimits := "0x";
     preVerificationGas := 0; gasFees := "0x"; paymasterAndData := "0x";
     signature := "0x" |}.

Definition example_vault : string := "0x1111111111111111111111111111111111111111".

Definition example_calls : list call :=
  [CreateProposal 0 "V1StGXR8_Z5j" example_params].

Definition flow_with_proposal : t :=
  foldl run_call (create example_wallet example_formatting example_config)
    example_calls.

Definition example_proposal : RebalanceProposal :=
  default (createProposal (create example_wallet example_formatting example_config)
             0 "V1StGXR8_Z5j" example_params).1
    (getProposal flow_with_proposal "V1StGXR8_Z5j").

Definition pending_flow : t :=
  run_call flow_with_proposal
    (RequestApproval 0 example_proposal example_vault example_userOp).

Definition example_auth : WebAuthnAuth :=
  {| authenticatorData := "0x"; clientDataJSON := ""; challengeIndex := 0;
     typeIndex := 0; r := 0; s := 0 |}.

Definition approval (auth : option WebAuthnAuth) (now : Z) : ApprovalResponse :=
  {| responseProposalId := "V1StGXR8_Z5j"; approved := true;
     responseSignature := None; webAuthnAuth := auth;
     responseTimestamp := now |}.

Definition rejection (now : Z) : ApprovalResponse :=
  {| responseProposalId := "V1StGXR8_Z5j"; approved := false;
     responseSignature := None; webAuthnAuth := None;
     responseTimestamp := now |}.

End ApprovalFlowSpec.

Module SessionKeySpec.
Import SecureSessionKeyManager.

(** A manager holding one key, valid until second 1700000000, under a toy
    cipher that authenticates the tag "tag" only. *)
Definition example_key : EncryptedSessionKey :=
  {| address := "0x2222222222222222222222222222222222222222";
     encryptedPrivateKey := "Y2lwaGVydGV4dA==";
     iv := "aXY=";
     authTag := "tag";
     config := {| validUntil := 1700000000; spendLimit := 100000000 |} |}.

Definition example_manager : t :=
  loadEncryptedKey
    {| encryptionKey := "k";
       aes256gcm := λ key ciphertext iv authTag,
         if decide (authTag = "tag") then Some "secret" else None;
       encryptedKeys := ∅ |}
    example_key.

End SessionKeySpec.

(** ** More of rate-history.ts *)

Module RateHistoryStats.
Import RateHistory.

Record Stat := {
  count : nat;
  oldestMs : Z;
}.

(** [Math.min(...values)] of a non-empty array, given by its head and tail. *)
Definition Math_min (first : Z) (rest : list Z) : Z := foldl Z.min first rest.

(** The entry [getStats] makes for one protocol: none for an empty list. *)
Definition stat_of (now : Z) (entries : list RateEntry) : option Stat :=
  match entries with
  | [] => None
  | e :: rest =>
      let oldest := Math_min (timestamp e) (timestamp <$> rest) in
      Some {| count := length entries; oldestMs := now - oldest |}
  end.

Definition getStats (h : t) (now : Z) : gmap string Stat :=
  omap (stat_of now) (history h).

(** Every stored sample is filed under its own protocol. *)
Definition filed (h : t) : Prop :=
  ∀ id entries, history h !! id = Some entries →
    Forall (λ e, protocolId e = id) entries.

End RateHistoryStats.

(** ** More of yield-monitor.ts *)

Module YieldMonitorProposal.
Import YieldMonitor.

Definition getProtocols (m : t) : list YieldProtocol := protocols m.

(** [this.protocols.find((p) => p.id === id)] *)
Definition getProtocol (m : t) (i : string) : option YieldProtocol :=
  List.find (λ p, bool_decide (id p = i)) (protocols m).

Definition getLastComparison (m : t) : option ProtectedYieldComparison :=
  lastComparison m.

(** The call encoders of the protocols ([encodeWithdraw], [encodeDeposit]
    of a [YieldProtocol]), by protocol id. *)
Record Encoders := {
  encodeWithdraw : string → Z → string → string;
  encodeDeposit : string → Z → string → string;
}.

Record RebalanceProposal := {
  fromProtocol : string;
  toProtocol : string;
  amount : Z;
  expectedApyGainBps : float;
  withdrawCalldata : string;
  depositCalldata : string;
}.

Definition createRebalanceProposal (enc : Encoders) (monitor : t)
    (comparison : ProtectedYieldComparison) (vault : string)
  : option RebalanceProposal :=
  if negb (shouldRebalance comparison) then None
  else
    match currentProtocol comparison with
    | None => None
    | Some current =>
        match getProtocol monitor (protocolId current),
              getProtocol monitor (protocolId (bestProtocol comparison)) with
        | Some fromProtocol, Some toProtocol =>
            let amount := balance current in
            Some {| fromProtocol := protocolId current;
                    toProtocol := protocolId (bestProtocol comparison);
                    amount := amount;
                    expectedApyGainBps := apyDifferentialBps comparison;
                    withdrawCalldata :=
                      encodeWithdraw enc (id fromProtocol) amount vault;
                    depositCalldata :=
                      encodeDeposit enc (id toProtocol) amount vault |}
        | _, _ => None
        end
    end.

Definition example_encoders : Encoders :=
  {| encodeWithdraw := λ _ _ _, "0x69328dec";
     encodeDeposit := λ _ _ _, "0x617ba037" |}.

End YieldMonitorProposal.

(** ** More of approval-flow.ts *)

Module ApprovalFlowExecution.
Import ApprovalFlow.

(** [logAudit] with a transaction hash. *)
Definition logAuditTx (f : t) (now : Z) (eventType : AuditEventType)
    (proposalId : option string) (vaultAddress : option string)
    (userOpHash txHash : option string) : t :=
  {| config := config f; walletManager := walletManager f;
     formatting := formatting f;
     pendingApprovals := pendingApprovals f; proposals := proposals f;
     auditLog := auditLog f ++
       [{| auditTimestamp := now; eventType := eventType;
           auditProposalId := proposalId;
           auditVaultAddress := default "0x" vaultAddress;
           auditUserOpHash := userOpHash;
           auditTxHash := txHash |}] |}.

(** What the bundler answers: [submitUserOp] gives the hash of the
    operation, [waitForUserOp] the transaction hash and whether it
    succeeded; [None] is a thrown error (a bundler error, a timeout). *)
Record Bundler := {
  submitUserOp : option string;
  waitForUserOp : option (string * bool);
}.

(** [executeApprovedUserOp], run without another call in between. *)
Definition executeApprovedUserOp (f : t) (now : Z) (proposalId : string)
    (signedUserOp : PackedUserOperation) (bundler : Bundler)
  : result (string * bool) * t :=
  let f := logAudit f now EXECUTION_STARTED (Some proposalId)
             (Some (sender signedUserOp)) None in
  let failed :=
    let f := updateProposalStatus f proposalId FAILED in
    let f := logAudit f now EXECUTION_FAILED (Some proposalId)
               (Some (sender signedUserOp)) None in
    (Throw WalletManagerFailure, f) in
  match submitUserOp bundler with
  | None => failed
  | Some userOpHash =>
      match waitForUserOp bundler with
      | None => failed
      | Some (txHash, success) =>
          let f := updateProposalStatus f proposalId
                     (if success then EXECUTED else FAILED) in
          let f := logAuditTx f now
                     (if success then EXECUTION_SUCCESS else EXECUTION_FAILED)
                     (Some proposalId) (Some (sender signedUserOp))
                     (Some userOpHash) (Some txHash) in
          (Return (txHash, success), f)
      end
  end.

(** One iteration of the loop of [cleanupExpired]. *)
Definition cleanup_step (now : Z) (f : t) (entry : string * ApprovalRequest) : t :=
  let '(proposalId, request) := entry in
  if expiresAt request <? now then
    let f := updateProposalStatus f proposalId EXPIRED in
    let f := set_pendingApprovals f (delete proposalId (pendingApprovals f)) in
    logAudit f now APPROVAL_EXPIRED (Some proposalId)
      (Some (vaultAddress request)) None
  else f.

(** [cleanupExpired], up to the order in which the entries are visited. *)
Definition cleanupExpired (f : t) (now : Z) : t :=
  foldl (cleanup_step now) f (map_to_list (pendingApprovals f)).

(** The calls of a client, with the two above. *)
Inductive call :=
| CreateProposal (now : Z) (fresh : string) (params : ProposalParams)
| RequestApproval (now : Z) (proposal : RebalanceProposal)
    (vaultAddress : string) (userOp : PackedUserOperation)
| ProcessApproval (now : Z) (response : ApprovalResponse)
| RejectProposal (now : Z) (proposalId : string)
| ExecuteApprovedUserOp (now : Z) (proposalId : string)
    (signedUserOp : PackedUserOperation) (bundler : Bundler)
| CleanupExpired (now : Z)
| UpdateProposalStatus (proposalId : string) (status : ProposalStatus).

Definition run_call (f : t) (c : call) : t :=
  match c with
  | CreateProposal now fresh params => (createProposal f now fresh params).2
  | RequestApproval now proposal vaultAddress userOp =>
      (requestApproval f now proposal vaultAddress userOp).2
  | ProcessApproval now response => (processApproval f now response).2
  | RejectProposal now proposalId => rejectProposal f now proposalId
  | ExecuteApprovedUserOp now proposalId signedUserOp bundler =>
      (executeApprovedUserOp f now proposalId signedUserOp bundler).2
  | CleanupExpired now => cleanupExpired f now
  | UpdateProposalStatus proposalId status =>
      updateProposalStatus f proposalId status
  end.

(** A call that does not create a proposal under [proposalId]. *)
Definition creates_no (proposalId : string) (c : call) : Prop :=
  match c with
  | CreateProposal _ fresh _ => fresh ≠ proposalId
  | _ => True
  end.

(** Two proposals that differ at most in their status. *)
Definition same_terms (p q : RebalanceProposal) : Prop :=
  with_status PENDING_APPROVAL p = with_status PENDING_APPROVAL q.

(** A call that files no pending request under [proposalId]. *)
Definition requests_no (proposalId : string) (c : call) : Prop :=
  match c with
  | RequestApproval _ proposal _ _ => id proposal ≠ proposalId
  | _ => True
  end.

(** A pending request whose [expiresAt] lies before [now]. *)
Definition expired (now : Z) (request : ApprovalRequest) : bool :=
  expiresAt request <? now.

(** A bundler that includes the operation with success. *)
Definition including_bundler : Bundler :=
  {| submitUserOp := Some "0xabc123";
     waitForUserOp := Some ("0xdef456", true) |}.

End ApprovalFlowExecution.

(** ** More of session-key-manager.ts *)

Module SessionKeyLifecycle.
Import SecureSessionKeyManager.

(** What the class takes from its libraries: the private [encrypt] under a
    key and a 12-byte nonce, giving the base64 ciphertext, nonce and tag;
    [privateKeyToAccount(key).address]; viem's [hexToBytes]. *)
Record Crypto := {
  encrypt : string → string → string → string * string * string;
  privateKeyToAddress : string → string;
  hexToBytes : string → string;
}.

(** [generateSessionKey]; [privateKeyBytes] and [nonce] are the values of
    [crypto.randomBytes(32)] and [crypto.randomBytes(IV_LENGTH)]. *)
Definition generateSessionKey (c : Crypto) (m : t)
    (privateKeyBytes nonce : string) (cfg : SessionKeyConfig)
  : EncryptedSessionKey * t :=
  let privateKey := bytesToHex privateKeyBytes in
  let addr := privateKeyToAddress c privateKey in
  let '(ciphertext, iv64, tag) := encrypt c (encryptionKey m) nonce privateKeyBytes in
  let encryptedKey :=
    {| address := addr; encryptedPrivateKey := ciphertext;
       iv := iv64; authTag := tag; config := cfg |} in
  (encryptedKey,
   set_encryptedKeys m (<[addr := encryptedKey]> (encryptedKeys m))).

(** [importSessionKey] *)
Definition importSessionKey (c : Crypto) (m : t) (privateKey nonce : string)
    (cfg : SessionKeyConfig) : EncryptedSessionKey * t :=
  let privateKeyBytes := hexToBytes c privateKey in
  let addr := privateKeyToAddress c privateKey in
  let '(ciphertext, iv64, tag) := encrypt c (encryptionKey m) nonce privateKeyBytes in
  let encryptedKey :=
    {| address := addr; encryptedPrivateKey := ciphertext;
       iv := iv64; authTag := tag; config := cfg |} in
  (encryptedKey,
   set_encryptedKeys m (<[addr := encryptedKey]> (encryptedKeys m))).

(** [listSessionKeys], up to the order. *)
Definition listSessionKeys (m : t) : list string :=
  (map_to_list (encryptedKeys m)).*1.

(** The calls that change the keys a manager holds. *)
Inductive call :=
| Generate (c : Crypto) (privateKeyBytes nonce : string) (cfg : SessionKeyConfig)
| Import (c : Crypto) (privateKey nonce : string) (cfg : SessionKeyConfig)
| Load (encryptedKey : EncryptedSessionKey)
| Revoke (addr : string)
| Cleanup (now : Z).

Definition run_call (m : t) (c : call) : t :=
  match c with
  | Generate c privateKeyBytes nonce cfg =>
      (generateSessionKey c m privateKeyBytes nonce cfg).2
  | Import c privateKey nonce cfg => (importSessionKey c m privateKey nonce cfg).2
  | Load encryptedKey => loadEncryptedKey m encryptedKey
  | Revoke addr => (revokeSessionKey m addr).2
  | Cleanup now => (cleanupExpired m now).2
  end.

(** The managers a program can build from one without keys. *)
Inductive reachable : t → Prop :=
| reach_new key cipher :
    reachable {| encryptionKey := key; aes256gcm := cipher; encryptedKeys := ∅ |}
| reach_call m c : reachable m → reachable (run_call m c).

(** The cipher of [m] decrypts what [c] encrypts under the key of [m]. *)
Definition decrypts (c : Crypto) (m : t) : Prop :=
  ∀ nonce data,
    let '(ciphertext, iv64, tag) := encrypt c (encryptionKey m) nonce data in
    aes256gcm m (encryptionKey m) ciphertext iv64 tag = Some data.

(** A toy cipher: the ciphertext is the plaintext, the tag is the key. *)
Definition toy_crypto : Crypto :=
  {| encrypt := λ key nonce data, (data, nonce, key);
     privateKeyToAddress := λ privateKey, "0xaddress-of-" +:+ privateKey;
     hexToBytes := λ hex, hex |}.

Definition toy_manager : t :=
  {| encryptionKey := "master";
     aes256gcm := λ key ciphertext iv authTag,
       if decide (authTag = key) then Some ciphertext else None;
     encryptedKeys := ∅ |}.

End SessionKeyLifecycle.

(** ** The reader of the approval URL (approval-ui/main.ts)

    [new URLSearchParams(search)] drops a leading [?] and parses the rest
    as application/x-www-form-urlencoded: the text is split at every [&],
    empty pieces are skipped, a piece is cut at its first [=] into name
    and value (no [=]: the value is empty), every [+] becomes a space and
    every [%XX] with two hexadecimal digits the byte it denotes. *)

Module URLSearchParamsReader.

Definition hex_value (c : ascii) : option N :=
  let n := N_of_ascii c in
  (if (48 <=? n) && (n <=? 57) then Some (n - 48)
   else if (65 <=? n) && (n <=? 70) then Some (n - 55)
   else if (97 <=? n) && (n <=? 102) then Some (n - 87)
   else None)%N.

Fixpoint percent_decode (s : string) : string :=
  match s with
  | EmptyString => EmptyString
  | String c rest =>
      if Ascii.eqb c "%"%char then
        match rest with
        | String a (String b rest') =>
            match hex_value a, hex_value b with
            | Some x, Some y =>
                String (ascii_of_N (16 * x + y)) (percent_decode rest')
            | _, _ => String c (percent_decode rest)
            end
        | _ => String c (percent_decode rest)
        end
      else String c (percent_decode rest)
  end.

Fixpoint plus_to_space (s : string) : string :=
  match s with
  | EmptyString => EmptyString
  | String c rest =>
      String (if Ascii.eqb c "+"%char then " "%char else c) (plus_to_space rest)
  end.

Definition decode (s : string) : string := percent_decode (plus_to_space s).

(** The pieces of [s] between the occurrences of [sep]. *)
Fixpoint split (sep : ascii) (s : string) : list string :=
  match s with
  | EmptyString => [EmptyString]
  | String c rest =>
      if Ascii.eqb c sep then EmptyString :: split sep rest
      else
        match split sep rest with
        | piece :: pieces => String c piece :: pieces
        | [] => [String c EmptyString]
        end
  end.

(** The name and the value of a piece: cut at the first [=]. *)
Fixpoint cut (s : string) : string * string :=
  match s with
  | EmptyString => (EmptyString, EmptyString)
  | String c rest =>
      if Ascii.eqb c "="%char then (EmptyString, rest)
      else let '(name, value) := cut rest in (String c name, value)
  end.

Definition parse (s : string) : list (string * string) :=
  (λ piece, let '(name, value) := cut piece in (decode name, decode value))
    <$> filter (λ piece, piece ≠ EmptyString) (split "&" s).

Definition of_search (search : string) : list (string * string) :=
  match search with
  | String "?" rest => parse rest
  | _ => parse search
  end.

(** [params.get(name)] *)
Definition get (params : list (string * string)) (name : string) : option string :=
  snd <$> List.find (λ p, String.eqb p.1 name) params.

Record ApprovalParams := {
  proposalId : string;
  userOpHash : string;
  vaultAddress : string;
}.

(** [parseUrlParams], on [window.location.search]. *)
Definition parseUrlParams (search : string) : option ApprovalParams :=
  let params := of_search search in
  match get params "id", get params "hash", get params "vault" with
  | Some proposalId, Some userOpHash, Some vaultAddress =>
      if bool_decide (proposalId = "") || bool_decide (userOpHash = "")
         || bool_decide (vaultAddress = "")
      then None
      else Some {| proposalId := proposalId; userOpHash := userOpHash;
                   vaultAddress := vaultAddress |}
  | _, _, _ => None
  end.

End URLSearchParamsReader.

Module ApprovalUrlSpec.

(** The byte [sep] does not occur in [s]. *)
Fixpoint avoids (sep : ascii) (s : string) : bool :=
  match s with
  | EmptyString => true
  | String c rest => negb (Ascii.eqb c sep) && avoids sep rest
  end.

End ApprovalUrlSpec.

(** * Properties *)

(** ** Numbers *)

Lemma Qgtb_true (x y : Q) : Qgtb x y = true <-> (y < x)%Q.
Proof.
  unfold Qgtb. rewrite negb_true_iff. split.
  - intros H. apply Qnot_le_lt. intros Hle.
    apply Qle_bool_iff in Hle. congruence.
  - intros H. destruct (Qle_bool x y) eqn:E; [|reflexivity].
    apply Qle_bool_iff in E. exfalso. exact (Qlt_not_le _ _ H E).
Qed.

Lemma Qgtb_false (x y : Q) : Qgtb x y = false <-> (x <= y)%Q.
Proof.
  unfold Qgtb. rewrite negb_false_iff. apply Qle_bool_iff.
Qed.

(** *** The order of binary64

    The comparisons of binary64 are those of the decoded values
    ([FloatAxioms.ltb_spec], [leb_spec]); [<] is a strict order, in which
    a [NaN] is below and above nothing. *)

Ltac compare_cases :=
  repeat match goal with
  | H : context [(?a ?= ?b)%Z] |- _ => destruct (Z.compare_spec a b)
  | |- context [(?a ?= ?b)%Z] => destruct (Z.compare_spec a b)
  | H : context [(?a ?= ?b)%positive] |- _ => destruct (Pos.compare_spec a b)
  | |- context [(?a ?= ?b)%positive] => destruct (Pos.compare_spec a b)
  end.

Lemma SFltb_trans x y z :
  SFltb x y = true → SFltb y z = true → SFltb x z = true.
Proof.
  unfold SFltb, SFcompare.
  destruct x as [sx|sx| |sx mx ex], y as [sy|sy| |sy my ey],
           z as [sz|sz| |sz mz ez];
    try discriminate; try reflexivity;
    repeat match goal with s : bool |- _ => destruct s end;
    try discriminate; try reflexivity;
    change (Pos.compare_cont Eq ?a ?b) with (a ?= b)%positive;
    intros H1 H2; compare_cases; cbn in *;
    try discriminate; try reflexivity; exfalso; lia.
Qed.

Lemma SFltb_irrefl x : SFltb x x = false.
Proof.
  unfold SFltb, SFcompare. destruct x as [s|s| |s m e]; try reflexivity;
    destruct s; try reflexivity; rewrite Z.compare_refl;
    change (Pos.compare_cont Eq m m) with (m ?= m)%positive;
    rewrite Pos.compare_refl; reflexivity.
Qed.

Lemma SFcompare_swap x y : SFcompare y x = CompOpp <$> SFcompare x y.
Proof.
  unfold SFcompare.
  destruct x as [sx|sx| |sx mx ex], y as [sy|sy| |sy my ey]; try reflexivity;
    repeat match goal with s : bool |- _ => destruct s end;
    try reflexivity; cbn;
    change (Pos.compare_cont Eq ?a ?b) with (a ?= b)%positive;
    rewrite (Z.compare_antisym ex ey); destruct (ex ?= ey);
    cbn; try reflexivity;
    rewrite (Pos.compare_antisym mx my); destruct (mx ?= my)%positive;
    reflexivity.
Qed.

Lemma float_ltb_trans (x y z : float) :
  (x <? y)%float = true → (y <? z)%float = true → (x <? z)%float = true.
Proof. rewrite !FloatAxioms.ltb_spec. apply SFltb_trans. Qed.

Lemma float_ltb_irrefl (x : float) : (x <? x)%float = false.
Proof. rewrite FloatAxioms.ltb_spec. apply SFltb_irrefl. Qed.

Lemma Prim2SF_not_nan (x : float) : is_nan x = false → Prim2SF x ≠ S754_nan.
Proof.
  intros H. unfold Prim2SF. rewrite H.
  destruct (is_zero x); [discriminate|].
  destruct (is_infinity x); [discriminate|].
  destruct (Z.frexp x) as [r e].
  destruct (shr_fexp _ _ _ _ _) as [shr e'].
  destruct (shr_m shr); discriminate.
Qed.

(** Of two numbers, the one that is not below the other is above or
    equal to it. *)
Lemma float_not_ltb_leb (x y : float) :
  is_nan x = false → is_nan y = false →
  (x <? y)%float = false → (y <=? x)%float = true.
Proof.
  intros Hx Hy. rewrite FloatAxioms.ltb_spec, FloatAxioms.leb_spec.
  unfold SFltb, SFleb.
  rewrite (SFcompare_swap (Prim2SF x) (Prim2SF y)).
  apply Prim2SF_not_nan in Hx, Hy.
  destruct (SFcompare (Prim2SF x) (Prim2SF y)) as [[| |]|] eqn:E; cbn;
    try congruence.
  exfalso. unfold SFcompare in E.
  destruct (Prim2SF x), (Prim2SF y); try congruence; try discriminate;
    repeat match goal with s : bool |- _ => destruct s end; discriminate.
Qed.

(** ** The rate history *)

Section RateHistoryFacts.
Import RateHistory RateHistorySpec.

Lemma since_Forall cutoff l :
  Forall (λ e, cutoff ≤ timestamp e) (since cutoff l).
Proof.
  apply Forall_forall. intros x Hx.
  apply list_elem_of_filter in Hx. tauto.
Qed.

Lemma slice_last_length {A} (n : nat) (l : list A) :
  (length (slice_last n l) ≤ n)%nat.
Proof. unfold slice_last. rewrite length_drop. lia. Qed.

(** What [record] stores for the source of the sample. *)
Lemma record_lookup_same h now e :
  history (record h now e) !! protocolId e =
  Some (let pruned :=
          since (now - windowMs h) (default [] (history h !! protocolId e) ++ [e]) in
        drop (length pruned - MAX_ENTRIES_PER_PROTOCOL) pruned).
Proof.
  unfold record. cbn [history]. rewrite lookup_insert_eq. f_equal.
  cbv zeta. case_decide as Hlen.
  - reflexivity.
  - replace (_ - _)%nat with 0%nat by lia. reflexivity.
Qed.

Lemma record_lookup_other h now e id :
  id ≠ protocolId e → history (record h now e) !! id = history h !! id.
Proof.
  intros Hne. unfold record. cbn [history].
  rewrite lookup_insert_ne; [reflexivity | congruence].
Qed.

Lemma record_windowMs h now e : windowMs (record h now e) = windowMs h.
Proof. reflexivity. Qed.

Lemma reachable_capped w h :
  reachable w h →
  ∀ id l, history h !! id = Some l → (length l ≤ MAX_ENTRIES_PER_PROTOCOL)%nat.
Proof.
  induction 1 as [|h now e Hh IH|h Hh IH]; intros id l Hl.
  - cbn in Hl. rewrite lookup_empty in Hl. discriminate.
  - destruct (decide (id = protocolId e)) as [->|Hne].
    + rewrite record_lookup_same in Hl. injection Hl as <-.
      cbv zeta. rewrite length_drop. lia.
    + rewrite record_lookup_other in Hl by assumption. eauto.
  - cbn in Hl. rewrite lookup_empty in Hl. discriminate.
Qed.

(** C7, as amended. After [record(sample)] on a store built by the class:
    the list kept for the source of the sample holds only samples whose
    timestamp is within the retention window of [now]; it is the pruned
    list without its first [length - 1000] elements, that is, the most
    recently recorded ones; the lists of the other sources are left as
    they were; and no source holds more than 1000 samples. *)
Theorem record_prunes_and_caps (w : Z) (h : t) (now : Z) (e : RateEntry) :
  reachable w h →
  let h' := record h now e in
  let pruned :=
    since (now - windowMs h) (default [] (history h !! protocolId e) ++ [e]) in
  let kept := default [] (history h' !! protocolId e) in
  Forall (λ x, now - windowMs h ≤ timestamp x) kept ∧
  kept = drop (length pruned - MAX_ENTRIES_PER_PROTOCOL) pruned ∧
  kept `suffix_of` pruned ∧
  (∀ id, id ≠ protocolId e → history h' !! id = history h !! id) ∧
  (∀ id, (length (default [] (history h' !! id)) ≤ MAX_ENTRIES_PER_PROTOCOL)%nat).
Proof.
  intros Hreach h' pruned kept.
  assert (Hkept : kept = drop (length pruned - MAX_ENTRIES_PER_PROTOCOL) pruned).
  { unfold kept, h'. rewrite record_lookup_same. reflexivity. }
  split; [|split; [exact Hkept|split; [|split]]].
  - rewrite Hkept. apply Forall_drop. apply since_Forall.
  - rewrite Hkept. apply suffix_drop.
  - intros id Hne. apply record_lookup_other. exact Hne.
  - intros id. destruct (history h' !! id) as [l|] eqn:Hl; cbn; [|lia].
    eapply (reachable_capped w h'); [|exact Hl].
    apply reach_record. exact Hreach.
Qed.

Lemma record_prunes_and_caps_witness :
  let h' := record store_with_aave 5000 compound_at_5000 in
  reachable 1000 store_with_aave ∧
  Forall (λ x, 5000 - 1000 ≤ timestamp x) (default [] (history h' !! "compound")) ∧
  (∀ id, (length (default [] (history h' !! id)) ≤ MAX_ENTRIES_PER_PROTOCOL)%nat).
Proof.
  assert (Hreach : reachable 1000 store_with_aave)
    by exact (reach_record 1000 _ 0 aave_at_0 (reach_create 1000)).
  pose proof (record_prunes_and_caps 1000 store_with_aave 5000 compound_at_5000
                Hreach) as H.
  cbv zeta in H. destruct H as (H1 & _ & _ & _ & H5).
  split; [exact Hreach | split; [exact H1 | exact H5]].
Defined.

(** C7, as stated, fails for the sources other than the one recorded: with
    a retention window of one second, the sample of "aave" recorded at
    time 0 is still in the store after a sample of "compound" is recorded
    at time 5000. *)
Lemma record_leaves_other_sources_unpruned :
  let h' := record store_with_aave 5000 compound_at_5000 in
  ¬ (∀ id, Forall (λ x, 5000 - windowMs h' ≤ timestamp x)
             (default [] (history h' !! id))).
Proof.
  intros h' Hall. specialize (Hall "aave").
  unfold h' in Hall.
  rewrite record_lookup_other in Hall by discriminate.
  unfold store_with_aave in Hall.
  change "aave" with (protocolId aave_at_0) in Hall.
  rewrite record_lookup_same in Hall. cbn in Hall.
  apply Forall_cons in Hall as [Hts _]. cbn in Hts. lia.
Qed.

(** *** The sort of the samples *)

Lemma insert_by_timestamp_perm x l : insert_by_timestamp x l ≡ₚ x :: l.
Proof.
  induction l as [|y l IH]; cbn; [reflexivity|].
  destruct (timestamp x <? timestamp y); [reflexivity|].
  rewrite IH. apply Permutation_swap.
Qed.

Lemma sort_by_timestamp_snoc l x :
  sort_by_timestamp (l ++ [x]) = insert_by_timestamp x (sort_by_timestamp l).
Proof. unfold sort_by_timestamp. rewrite reverse_snoc. reflexivity. Qed.

Lemma sort_by_timestamp_perm l : sort_by_timestamp l ≡ₚ l.
Proof.
  induction l as [|x l IH] using rev_ind; [reflexivity|].
  rewrite sort_by_timestamp_snoc, insert_by_timestamp_perm, IH.
  apply Permutation_cons_append.
Qed.

Lemma sort_by_timestamp_length l : length (sort_by_timestamp l) = length l.
Proof. apply Permutation_length, sort_by_timestamp_perm. Qed.

Lemma insert_by_timestamp_sorted x l :
  StronglySorted ts_le l → StronglySorted ts_le (insert_by_timestamp x l).
Proof.
  induction 1 as [|y l Hl IH Hy]; cbn.
  - repeat constructor.
  - destruct (timestamp x <? timestamp y) eqn:E.
    + apply Z.ltb_lt in E. constructor; [constructor; assumption|].
      constructor; [unfold ts_le; lia|].
      eapply Forall_impl; [exact Hy|]. unfold ts_le. intros; cbn in *; lia.
    + apply Z.ltb_ge in E. constructor; [exact IH|].
      rewrite insert_by_timestamp_perm. constructor; [exact E | exact Hy].
Qed.

Lemma sort_by_timestamp_sorted l : StronglySorted ts_le (sort_by_timestamp l).
Proof.
  induction l as [|x l IH] using rev_ind; [constructor|].
  rewrite sort_by_timestamp_snoc. apply insert_by_timestamp_sorted, IH.
Qed.

(** The sort is stable: for every timestamp, the samples bearing it keep
    their order. *)
Lemma filter_timestamp_none v l :
  Forall (λ e, timestamp e ≠ v) l → filter (λ e, timestamp e = v) l = [].
Proof.
  induction 1 as [|y l Hy Hl IH]; [reflexivity|].
  rewrite filter_cons_False by exact Hy. exact IH.
Qed.

Lemma insert_by_timestamp_stable x l v :
  StronglySorted ts_le l →
  filter (λ e, timestamp e = v) (insert_by_timestamp x l) =
  filter (λ e, timestamp e = v) (l ++ [x]).
Proof.
  induction 1 as [|y l Hl IH Hy]; cbn [insert_by_timestamp]; [reflexivity|].
  destruct (timestamp x <? timestamp y) eqn:E.
  - apply Z.ltb_lt in E.
    rewrite (filter_app _ (y :: l) [x]).
    destruct (decide (timestamp x = v)) as [Hx|Hx].
    + rewrite (filter_cons_True _ x (y :: l)) by exact Hx.
      rewrite (filter_timestamp_none v (y :: l)).
      { rewrite (filter_cons_True _ x []) by exact Hx. reflexivity. }
      constructor; [lia|].
      eapply Forall_impl; [exact Hy|]. unfold ts_le. intros; cbn in *; lia.
    + rewrite (filter_cons_False _ x (y :: l)) by exact Hx.
      rewrite (filter_cons_False _ x []) by exact Hx.
      rewrite filter_nil, app_nil_r. reflexivity.
  - change ((y :: l) ++ [x]) with (y :: (l ++ [x])).
    rewrite !filter_cons. rewrite IH. case_decide; reflexivity.
Qed.

Lemma sort_by_timestamp_stable l v :
  filter (λ e, timestamp e = v) (sort_by_timestamp l) =
  filter (λ e, timestamp e = v) l.
Proof.
  induction l as [|x l IH] using rev_ind; [reflexivity|].
  rewrite sort_by_timestamp_snoc.
  rewrite insert_by_timestamp_stable by apply sort_by_timestamp_sorted.
  rewrite !filter_app, IH. reflexivity.
Qed.

(** *** The window and the sort, as the properties name them *)

Lemma getEntries_in_window h id (w now : Z) :
  getEntries h id (Some w) now = in_window h id w now.
Proof. reflexivity. Qed.

Lemma sort_by_timestamp_spec l : sorted_by_timestamp l (sort_by_timestamp l).
Proof.
  split; [apply sort_by_timestamp_perm|].
  split; [apply sort_by_timestamp_sorted|].
  intros v. apply sort_by_timestamp_stable.
Qed.

Lemma sorted_ends (entries : list RateEntry) :
  (1 ≤ length entries)%nat →
  ∃ first latest,
    head (sort_by_timestamp entries) = Some first ∧
    last (sort_by_timestamp entries) = Some latest.
Proof.
  intros Hlen. pose proof (sort_by_timestamp_length entries) as Hsorted.
  destruct (sort_by_timestamp entries) as [|first rest] eqn:E.
  - cbn in Hsorted. lia.
  - exists first. destruct (last (first :: rest)) as [latest|] eqn:Hlast.
    + exists latest. split; reflexivity.
    + apply last_None in Hlast. discriminate.
Qed.

(** *** The time-weighted average *)

(** The loop of [getTWAP] adds up the terms of the adjacent pairs, in
    their order. *)
Lemma twap_loop_sums sorted : ∀ acc,
  twap_loop sorted acc =
  (foldl PrimFloat.add (fst acc)
     ((λ p, apy p.1 * number (gap p))%float <$> adjacent sorted),
   foldl PrimFloat.add (snd acc)
     ((λ p, number (gap p)) <$> adjacent sorted)).
Proof.
  induction sorted as [|a rest IH]; intros [ws tw].
  - reflexivity.
  - destruct rest as [|b l]; [reflexivity|].
    change (twap_loop (a :: b :: l) (ws, tw)) with
      (twap_loop (b :: l)
         ((ws + apy a * number (timestamp b - timestamp a))%float,
          (tw + number (timestamp b - timestamp a))%float)).
    rewrite IH. reflexivity.
Qed.

Lemma weighted_sum_unfold now samples latest :
  weighted_sum now samples latest =
  (foldl PrimFloat.add 0
     ((λ p, apy p.1 * number (gap p))%float <$> adjacent samples)
   + apy latest * number (latest_weight now latest))%float.
Proof.
  unfold weighted_sum, sum_in_order, terms.
  rewrite fmap_app, foldl_app, <- list_fmap_compose. reflexivity.
Qed.

Lemma total_weight_unfold now samples latest :
  total_weight now samples latest =
  (foldl PrimFloat.add 0 ((λ p, number (gap p)) <$> adjacent samples)
   + number (latest_weight now latest))%float.
Proof.
  unfold total_weight, sum_in_order, terms.
  rewrite fmap_app, foldl_app, <- list_fmap_compose. reflexivity.
Qed.

(** What [getTWAP] returns, by the number of samples in the window. *)
Lemma getTWAP_cases h id (windowHours now : Z) :
  let window := in_window h id (windowHours * 60 * 60 * 1000) now in
  match window with
  | [] => getTWAP h id windowHours now = None
  | [e] =>
      getTWAP h id windowHours now =
        Some {| twap := apy e; sampleCount := 1;
                oldestSample := timestamp e; newestSample := timestamp e |}
  | _ =>
      ∃ oldest latest,
        head (sort_by_timestamp window) = Some oldest ∧
        last (sort_by_timestamp window) = Some latest ∧
        getTWAP h id windowHours now =
          Some {| twap :=
                    time_weighted_average now (sort_by_timestamp window) latest;
                  sampleCount := length window;
                  oldestSample := timestamp oldest;
                  newestSample := timestamp latest |}
  end.
Proof.
  intros window. unfold getTWAP. cbv zeta.
  rewrite getEntries_in_window. fold window.
  clearbody window. destruct window as [|e0 [|e1 l]]; [reflexivity..|].
  set (window := e0 :: e1 :: l).
  destruct (sorted_ends window ltac:(cbn; lia)) as (oldest & latest & Hhead & Hlast).
  exists oldest, latest. split; [exact Hhead|]. split; [exact Hlast|].
  rewrite twap_loop_sums. cbn [fst snd]. rewrite Hhead, Hlast.
  cbn [default from_option]. unfold Datatypes.id, time_weighted_average.
  rewrite weighted_sum_unfold, total_weight_unfold.
  rewrite sort_by_timestamp_length. reflexivity.
Qed.

(** C3, as amended. [getTWAP] (the spec's timeWeightedAverage) returns
    null when the window holds no sample; with one sample it returns the
    rate of that sample, with [sampleCount = 1]; with two or more samples,
    sorted by timestamp, it forms the sum over the adjacent pairs of
    earlier rate × gap plus the latest rate × min(now − its timestamp,
    1 hour), and the total of those weights, and returns the quotient
    when that total is positive and the rate of the latest sample when it
    is not, with [sampleCount] the number of samples in the window. *)
Theorem getTWAP_time_weighted (h : t) (id : string) (windowHours now : Z) :
  let window := in_window h id (windowHours * 60 * 60 * 1000) now in
  (window = [] → getTWAP h id windowHours now = None) ∧
  (∀ e, window = [e] →
     getTWAP h id windowHours now =
       Some {| twap := apy e; sampleCount := 1;
               oldestSample := timestamp e; newestSample := timestamp e |}) ∧
  ((2 ≤ length window)%nat →
     ∃ samples oldest latest,
       sorted_by_timestamp window samples ∧
       head samples = Some oldest ∧ last samples = Some latest ∧
       getTWAP h id windowHours now =
         Some {| twap :=
                   if (0 <? total_weight now samples latest)%float
                   then (weighted_sum now samples latest
                         / total_weight now samples latest)%float
                   else apy latest;
                 sampleCount := length window;
                 oldestSample := timestamp oldest;
                 newestSample := timestamp latest |}).
Proof.
  intros window. pose proof (getTWAP_cases h id windowHours now) as Hcases.
  cbv zeta in Hcases. fold window in Hcases.
  destruct window as [|e0 [|e1 l]] eqn:Hwindow.
  - split; [intros _; exact Hcases|]. split; [discriminate | cbn; lia].
  - split; [discriminate|]. split; [|cbn; lia].
    intros e [= <-]. exact Hcases.
  - split; [discriminate|]. split; [discriminate|]. intros _.
    destruct Hcases as (oldest & latest & Hhead & Hlast & Hr).
    exists (sort_by_timestamp (e0 :: e1 :: l)), oldest, latest.
    split; [apply sort_by_timestamp_spec|].
    split; [exact Hhead|]. split; [exact Hlast|]. exact Hr.
Qed.

Lemma getTWAP_time_weighted_witness :
  let window := in_window two_samples "aave" (1 * 60 * 60 * 1000) 1000005 in
  (2 ≤ length window)%nat ∧
  ∃ r, getTWAP two_samples "aave" 1 1000005 = Some r ∧
       sampleCount r = 2%nat.
Proof.
  intros window.
  assert (Hlen : (2 ≤ length window)%nat) by (vm_compute; constructor).
  split; [exact Hlen|].
  destruct (getTWAP_time_weighted two_samples "aave" 1 1000005) as (_ & _ & H).
  destruct (H Hlen) as (samples & oldest & latest & _ & _ & _ & Hr).
  eexists. split; [exact Hr|]. reflexivity.
Defined.

(** C3, as stated, fails when no time has passed: of two samples recorded
    at the instant of the read every weight is 0, the quotient of the
    weighted sum by the total weight is 0 / 0, not a number, and
    [getTWAP] returns the rate of the latest sample, 10%. *)
Lemma getTWAP_without_elapsed_time :
  let now := 1000000 in
  let window := in_window same_instant "aave" (1 * 60 * 60 * 1000) now in
  let samples := [aave_5_percent_late; aave_10_percent] in
  window = samples ∧
  sorted_by_timestamp window samples ∧
  last samples = Some aave_10_percent ∧
  total_weight now samples aave_10_percent = 0%float ∧
  is_nan (weighted_sum now samples aave_10_percent
          / total_weight now samples aave_10_percent)%float = true ∧
  twap <$> getTWAP same_instant "aave" 1 now = Some 0.10%float ∧
  twap <$> getTWAP same_instant "aave" 1 now ≠
    Some (weighted_sum now samples aave_10_percent
          / total_weight now samples aave_10_percent)%float.
Proof.
  intros now window samples.
  assert (Hwindow : window = samples) by (vm_compute; reflexivity).
  split; [exact Hwindow|]. rewrite Hwindow.
  split.
  { split; [reflexivity|]. split; [|reflexivity].
    repeat constructor. unfold ts_le. cbn. lia. }
  split; [reflexivity|].
  split; [vm_compute; reflexivity|].
  split; [vm_compute; reflexivity|].
  split; [vm_compute; reflexivity|].
  intros H. apply (f_equal (fmap is_nan)) in H. vm_compute in H. discriminate.
Qed.

(** The number of samples [getTWAP] reports is that of the window. *)
Lemma getTWAP_sampleCount h id (windowHours now : Z) :
  sampleCount <$> getTWAP h id windowHours now =
  let window := in_window h id (windowHours * 60 * 60 * 1000) now in
  if decide (window = []) then None else Some (length window).
Proof.
  pose proof (getTWAP_cases h id windowHours now) as Hcases.
  cbv zeta in Hcases |- *.
  destruct (in_window h id (windowHours * 60 * 60 * 1000) now)
    as [|e0 [|e1 l]].
  - rewrite Hcases. reflexivity.
  - rewrite Hcases. reflexivity.
  - destruct Hcases as (? & ? & _ & _ & ->). reflexivity.
Qed.

(** *** The anomaly detector *)

(** C2, as amended. With fewer than two samples inside the one-hour
    velocity window [detectAnomalies] (the spec's detectAnomaly) answers
    not suspicious, reason insufficient_data. With two or more, sorted by
    timestamp, it first runs the velocity check, provided the rate of the
    oldest sample is positive: the change from that rate to the newest
    rate (or the rate supplied by the caller), as a fraction of the oldest
    rate, flags suspicion above 50%, severity high above 100% and medium
    otherwise. Only when velocity did not flag it runs the deviation
    check, provided the one-hour time-weighted average is positive: the
    current rate differing from that average by more than 20% of it flags
    suspicion, severity high above 50% and medium otherwise. When neither
    fires the answer is not suspicious. *)
Theorem detectAnomalies_checks (h : t) (id : string)
    (currentRate : option float) (now : Z) :
  let window := in_window h id one_hour now in
  let verdict := detectAnomalies h id currentRate now in
  ((length window < 2)%nat →
     verdict = {| suspicious := false; reason := Some "insufficient_data";
                  severity := Some low; details := None |}) ∧
  ((2 ≤ length window)%nat →
     ∃ samples oldest newest,
       sorted_by_timestamp window samples ∧
       head samples = Some oldest ∧ last samples = Some newest ∧
       let latest := default (apy newest) currentRate in
       let average := time_weighted_average now samples newest in
       let velocity := fractional_change (apy oldest) latest in
       let deviation := fractional_change average latest in
       let velocity_flags :=
         (0 <? apy oldest)%float = true ∧ (0.5 <? velocity)%float = true in
       let deviation_flags :=
         (0 <? average)%float = true ∧ (0.2 <? deviation)%float = true in
       (velocity_flags →
          verdict =
            {| suspicious := true; reason := Some "high_rate_velocity";
               severity :=
                 Some (if (1.0 <? velocity)%float then high else medium);
               details :=
                 Some {| currentRate := latest; previousRate := apy oldest;
                         changePercent := velocity;
                         timeWindowMs := one_hour |} |}) ∧
       (¬ velocity_flags → deviation_flags →
          verdict =
            {| suspicious := true; reason := Some "twap_deviation";
               severity :=
                 Some (if (0.5 <? deviation)%float then high else medium);
               details :=
                 Some {| currentRate := latest; previousRate := average;
                         changePercent := deviation;
                         timeWindowMs := one_hour |} |}) ∧
       (¬ velocity_flags → ¬ deviation_flags →
          verdict = {| suspicious := false; reason := None;
                       severity := None; details := None |})).
Proof.
  intros window verdict. subst verdict. unfold detectAnomalies. cbv zeta.
  pose proof (getTWAP_cases h id 1 now) as Htwap. cbv zeta in Htwap.
  change (1 * 60 * 60 * 1000) with one_hour in Htwap.
  change RATE_VELOCITY_WINDOW_MS with one_hour.
  rewrite getEntries_in_window. fold window in Htwap |- *.
  clearbody window. destruct window as [|e0 [|e1 l]].
  - split; [intros _; reflexivity | cbn; lia].
  - split; [intros _; reflexivity | cbn; lia].
  - split; [cbn; lia|]. intros _.
    set (window := e0 :: e1 :: l) in *.
    destruct Htwap as (oldest & newest & Hhead & Hlast & Haverage).
    exists (sort_by_timestamp window), oldest, newest.
    split; [apply sort_by_timestamp_spec|].
    split; [exact Hhead|]. split; [exact Hlast|].
    rewrite Hhead, Hlast, Haverage. cbn [default from_option twap].
    unfold Datatypes.id, fractional_change, RATE_VELOCITY_THRESHOLD.
    set (latest := from_option (λ x, x) (apy newest) currentRate).
    set (average := time_weighted_average now (sort_by_timestamp window) newest).
    set (velocity := (abs (latest - apy oldest) / apy oldest)%float).
    set (deviation := (abs (latest - average) / average)%float).
    change (60 * 60 * 1000) with one_hour.
    destruct (0 <? apy oldest)%float eqn:Hpos;
      [destruct (0.5 <? velocity)%float eqn:Hvel|].
    + split; [intros _; reflexivity|].
      split; intros Hno; exfalso; apply Hno; split; reflexivity.
    + assert (Hnovel : ¬ (true = true ∧ false = true))
        by (intros [_ H]; discriminate).
      split; [intros Hv; exfalso; exact (Hnovel Hv)|].
      destruct (0 <? average)%float eqn:Htpos;
        [destruct (0.2 <? deviation)%float eqn:Hdev|].
      * split; [intros _ _; reflexivity|].
        intros _ Hno. exfalso. apply Hno. split; reflexivity.
      * split; [intros _ [_ H]; discriminate | intros _ _; reflexivity].
      * split; [intros _ [H _]; discriminate | intros _ _; reflexivity].
    + assert (Hnovel : ¬ (false = true ∧ (0.5 <? velocity)%float = true))
        by (intros [H _]; discriminate).
      split; [intros Hv; exfalso; exact (Hnovel Hv)|].
      destruct (0 <? average)%float eqn:Htpos;
        [destruct (0.2 <? deviation)%float eqn:Hdev|].
      * split; [intros _ _; reflexivity|].
        intros _ Hno. exfalso. apply Hno. split; reflexivity.
      * split; [intros _ [_ H]; discriminate | intros _ _; reflexivity].
      * split; [intros _ [H _]; discriminate | intros _ _; reflexivity].
Qed.

Lemma detectAnomalies_checks_witness :
  let window := in_window two_samples "aave" one_hour 1000005 in
  (2 ≤ length window)%nat ∧
  ∃ samples oldest newest,
    sorted_by_timestamp window samples ∧
    head samples = Some oldest ∧ last samples = Some newest ∧
    (¬ ((0 <? apy oldest)%float = true ∧
        (0.5 <? fractional_change (apy oldest) (apy newest))%float = true) →
     ¬ ((0 <? time_weighted_average 1000005 samples newest)%float = true ∧
        (0.2 <? fractional_change
                  (time_weighted_average 1000005 samples newest)
                  (apy newest))%float = true) →
     suspicious (detectAnomalies two_samples "aave" None 1000005) = false).
Proof.
  intros window.
  assert (Hlen : (2 ≤ length window)%nat) by (vm_compute; constructor).
  split; [exact Hlen|].
  destruct (detectAnomalies_checks two_samples "aave" None 1000005) as (_ & H).
  destruct (H Hlen)
    as (samples & oldest & newest & Hsorted & Hhead & Hlast & _ & _ & Hnone).
  exists samples, oldest, newest.
  split; [exact Hsorted|]. split; [exact Hhead|]. split; [exact Hlast|].
  intros Hv Hd. cbn [default from_option] in Hnone.
  rewrite (Hnone Hv Hd). reflexivity.
Defined.

(** C2, as stated, fails when the oldest rate is not positive: from a
    rate of 0 to 10% the change is an infinite fraction of the oldest
    rate, above 50%, and [detectAnomalies] does not flag velocity; the
    rate being close to the average here, it answers not suspicious. *)
Lemma detectAnomalies_from_zero_is_not_flagged :
  let now := 3600000 in
  let window := in_window from_zero "aave" one_hour now in
  let samples := [aave_0_percent; aave_10_percent_early] in
  window = samples ∧
  sorted_by_timestamp window samples ∧
  (0.5 <? fractional_change (apy aave_0_percent)
            (apy aave_10_percent_early))%float = true ∧
  detectAnomalies from_zero "aave" None now =
    {| suspicious := false; reason := None; severity := None; details := None |}.
Proof.
  intros now window samples.
  assert (Hwindow : window = samples) by (vm_compute; reflexivity).
  split; [exact Hwindow|]. rewrite Hwindow.
  split.
  { split; [reflexivity|]. split; [|reflexivity].
    repeat constructor. unfold ts_le. cbn. lia. }
  split; vm_compute; reflexivity.
Qed.

(** *** The cases of rate-history.test.ts *)

Example record_prunes_outside_window :
  let h := record (record (create 1000) 10000
                     {| protocolId := "aave"; apy := 0.03;
                        timestamp := 8000; source := onchain |})
             10000
             {| protocolId := "aave"; apy := 0.05;
                timestamp := 10000; source := onchain |} in
  apy <$> getEntries h "aave" None 10000 = [0.05%float].
Proof. vm_compute. reflexivity. Qed.

Example getTWAP_unknown_protocol :
  getTWAP (create DEFAULT_HISTORY_WINDOW_MS) "aave" 1 1000 = None.
Proof. vm_compute. reflexivity. Qed.

Example detectAnomalies_insufficient_data :
  let h := record (create DEFAULT_HISTORY_WINDOW_MS) 1000000 aave_10_percent in
  detectAnomalies h "aave" None 1000000 =
    {| suspicious := false; reason := Some "insufficient_data";
       severity := Some low; details := None |}.
Proof. vm_compute. reflexivity. Qed.

Example detectAnomalies_velocity :
  reason (detectAnomalies two_samples "aave" None 1000000)
    = Some "high_rate_velocity".
Proof. vm_compute. reflexivity. Qed.

Example detectAnomalies_normal_change :
  let h := record (record (create DEFAULT_HISTORY_WINDOW_MS) 970000 aave_5_percent)
             1000000
             {| protocolId := "aave"; apy := 0.051;
                timestamp := 1000000; source := onchain |} in
  suspicious (detectAnomalies h "aave" None 1000000) = false.
Proof. vm_compute. reflexivity. Qed.

Example detectAnomalies_explicit_rate :
  let h := record (record (create DEFAULT_HISTORY_WINDOW_MS) 970000 aave_5_percent)
             1000000
             {| protocolId := "aave"; apy := 0.05;
                timestamp := 1000000; source := onchain |} in
  suspicious (detectAnomalies h "aave" (Some 0.15%float) 1000000) = true.
Proof. vm_compute. reflexivity. Qed.

End RateHistoryFacts.

(** ** The yield monitor *)

Section YieldMonitorFacts.
Import YieldMonitor YieldMonitorSpec SourceAggregatorSpec.

(** *** The source aggregator *)

(** What [getSnapshots] gives, in terms of its loop. *)
Lemma getSnapshots_loop m reads now :
  getSnapshots m reads now =
  match cycle_loop reads (usable_rates m reads) now (cycle_start m) (protocols m) with
  | inl c =>
      (Return (results c,
               if decide (defillamaCount c = 0%nat) then onchain
               else if decide (onchainCount c = 0%nat) then defillama
               else mixed),
       set_rateHistory m (hist c))
  | inr c => (Throw cannot_serialize, set_rateHistory m (hist c))
  end.
Proof. reflexivity. Qed.

Lemma getSnapshots_monitor m reads now :
  protocols (getSnapshots m reads now).2 = protocols m ∧
  config (getSnapshots m reads now).2 = config m ∧
  lastComparison (getSnapshots m reads now).2 = lastComparison m.
Proof.
  rewrite getSnapshots_loop. destruct (cycle_loop _ _ _ _ _); auto.
Qed.

(** An iteration throws exactly for a source that has to be served from
    the history and whose rejection cannot be logged. *)
Lemma cycle_step_None reads rates now c p :
  cycle_step reads rates now c p = None ↔ unloggable reads rates p.
Proof.
  unfold cycle_step, unloggable, origin_of.
  destruct (onchainRead reads (id p)) as [apy bal|[|]];
    [|destruct (rates ≫= _)..]; split; try discriminate;
    try (intros [H1 H2]; discriminate); auto.
Qed.

(** The loop runs to its end exactly when no source is of that kind, and
    stops at the first one otherwise. *)
Lemma cycle_loop_inl reads rates now ps : ∀ c,
  Forall (λ p, ¬ unloggable reads rates p) ps ↔
  ∃ c', cycle_loop reads rates now c ps = inl c'.
Proof.
  induction ps as [|p ps IH]; intros c; cbn [cycle_loop].
  - split; [eauto | constructor].
  - destruct (cycle_step reads rates now c p) as [c1|] eqn:Hstep.
    + rewrite <- IH. split.
      * intros H. apply Forall_cons in H as [_ H]. exact H.
      * intros H. constructor; [|exact H].
        intros Hp. apply (cycle_step_None reads rates now c) in Hp. congruence.
    + apply cycle_step_None in Hstep. split.
      * intros H. apply Forall_cons in H as [H _]. contradiction.
      * intros [c' H]. discriminate.
Qed.

Lemma cycle_loop_inr reads rates now ps : ∀ c c',
  cycle_loop reads rates now c ps = inr c' →
  ∃ before p after,
    ps = before ++ p :: after ∧
    unloggable reads rates p ∧
    cycle_loop reads rates now c before = inl c'.
Proof.
  induction ps as [|p ps IH]; intros c c'; cbn [cycle_loop]; [discriminate|].
  destruct (cycle_step reads rates now c p) as [c1|] eqn:Hstep.
  - intros H. destruct (IH _ _ H) as (before & q & after & -> & Hq & Hloop).
    exists (p :: before), q, after. split; [reflexivity|].
    split; [exact Hq|]. cbn [cycle_loop]. rewrite Hstep. exact Hloop.
  - intros [= <-]. exists [], p, ps. split; [reflexivity|].
    split; [apply (cycle_step_None reads rates now c), Hstep | reflexivity].
Qed.

Lemma cycle_counts reads rates now ps : ∀ c c',
  cycle_loop reads rates now c ps = inl c' →
  onchainCount c' =
    (onchainCount c
     + length (filter (λ p, origin_of reads rates p = from_onchain) ps))%nat ∧
  defillamaCount c' =
    (defillamaCount c
     + length (filter (λ p, origin_of reads rates p = from_defillama) ps))%nat.
Proof.
  induction ps as [|p ps IH]; intros c c'; cbn [cycle_loop].
  - intros [= <-]. cbn. lia.
  - destruct (cycle_step reads rates now c p) as [c1|] eqn:Hstep; [|discriminate].
    intros Hloop. destruct (IH _ _ Hloop) as [IHo IHd]. rewrite IHo, IHd.
    rewrite !filter_cons. revert Hstep. unfold cycle_step, origin_of.
    destruct (onchainRead reads (id p)) as [apy bal|[|]];
      [|destruct (rates ≫= _)..]; intros [= <-];
      cbn [onchainCount defillamaCount];
      repeat case_decide; try congruence; cbn [length]; lia.
Qed.

Lemma origin_count reads rates (ps : list YieldProtocol) (o : Origin) :
  length (filter (λ p, origin_of reads rates p = o) ps) = 0%nat ↔
  o ∉ origin_of reads rates <$> ps.
Proof.
  induction ps as [|p ps IH].
  - cbn. split; [intros _ H; inversion H | reflexivity].
  - rewrite filter_cons, fmap_cons, not_elem_of_cons. case_decide as Hp.
    + cbn [length]. split; [discriminate | intros [Hne _]; congruence].
    + rewrite IH. split; [intros H; split; [congruence | exact H] | tauto].
Qed.

(** What [getSnapshots] reports when it returns: "onchain" when no source
    was served by DeFiLlama, "defillama" when some source was and none
    was served on-chain, "mixed" otherwise. A source served from the
    history counts for neither. *)
Lemma getSnapshots_dataSource m reads now snaps ds m1 :
  getSnapshots m reads now = (Return (snaps, ds), m1) →
  let origins := origin_of reads (usable_rates m reads) <$> protocols m in
  ds = if decide (from_defillama ∉ origins) then onchain
       else if decide (from_onchain ∉ origins) then defillama
       else mixed.
Proof.
  rewrite getSnapshots_loop.
  destruct (cycle_loop _ _ _ _ _) as [c|c] eqn:Hloop; [|discriminate].
  intros [= _ <- _] origins.
  destruct (cycle_counts _ _ _ _ _ _ Hloop) as [Ho Hd].
  cbn [onchainCount defillamaCount cycle_start] in Ho, Hd.
  rewrite Ho, Hd. cbn [Nat.add].
  pose proof (origin_count reads (usable_rates m reads) (protocols m)) as Hcount.
  fold origins in Hcount.
  repeat case_decide; try reflexivity; exfalso;
    repeat match goal with
    | H : length _ = 0%nat |- _ => apply Hcount in H
    | H : length _ ≠ 0%nat |- _ => rewrite Hcount in H
    end; tauto.
Qed.

Lemma cycle_step_history reads rates now c c' p i :
  cycle_step reads rates now c p = Some c' →
  i ≠ id p →
  RateHistory.history (hist c') !! i = RateHistory.history (hist c) !! i.
Proof.
  intros Hstep Hne. revert Hstep. unfold cycle_step.
  destruct (onchainRead reads (id p)) as [apy bal|[|]];
    [|destruct (rates ≫= _)..]; intros [= <-]; cbn [hist]; try reflexivity;
    apply record_lookup_other; cbn; exact Hne.
Qed.

Lemma cycle_step_windowMs reads rates now c c' p :
  cycle_step reads rates now c p = Some c' →
  RateHistory.windowMs (hist c') = RateHistory.windowMs (hist c).
Proof.
  unfold cycle_step.
  destruct (onchainRead reads (id p)) as [apy bal|[|]];
    [|destruct (rates ≫= _)..]; intros [= <-]; reflexivity.
Qed.

(** The history of a name that is none of the protocols processed is
    untouched. *)
Lemma cycle_history reads rates now ps : ∀ c c' i,
  cycle_loop reads rates now c ps = inl c' →
  i ∉ id <$> ps →
  RateHistory.history (hist c') !! i = RateHistory.history (hist c) !! i.
Proof.
  induction ps as [|p ps IH]; intros c c' i; cbn [cycle_loop].
  - intros [= <-] _. reflexivity.
  - destruct (cycle_step reads rates now c p) as [c1|] eqn:Hstep; [|discriminate].
    intros Hloop Hi. rewrite fmap_cons in Hi.
    apply not_elem_of_cons in Hi as [Hne Hi].
    rewrite (IH _ _ _ Hloop Hi).
    eapply cycle_step_history; eassumption.
Qed.

Lemma served_history reads rates h h' now p s :
  RateHistory.history h' !! id p = RateHistory.history h !! id p →
  served reads rates h now p s → served reads rates h' now p s.
Proof.
  intros Heq. unfold served, RateHistory.getLatestRate. rewrite Heq. tauto.
Qed.

Lemma served_histories reads rates h h' now ps new :
  Forall2 (served reads rates h' now) ps new →
  (∀ q, q ∈ ps → RateHistory.history h' !! id q = RateHistory.history h !! id q) →
  Forall2 (served reads rates h now) ps new.
Proof.
  induction 1 as [|q s ps new Hqs Hall IH]; intros Heq; constructor.
  - eapply served_history; [|exact Hqs]. symmetry. apply Heq. left.
  - apply IH. intros q' Hq'. apply Heq. right. exact Hq'.
Qed.

Lemma cycle_step_serves reads rates now c c' p :
  cycle_step reads rates now c p = Some c' →
  ∃ s, results c' = results c ++ [s] ∧ served reads rates (hist c) now p s.
Proof.
  unfold cycle_step, served.
  destruct (onchainRead reads (id p)) as [apy bal|[|]];
    [|destruct (rates ≫= _)..]; intros [= <-];
    eexists; (split; [reflexivity|]); cbn; auto.
Qed.

Lemma cycle_serves reads rates now ps : ∀ c c',
  cycle_loop reads rates now c ps = inl c' →
  NoDup (id <$> ps) →
  ∃ new, results c' = results c ++ new ∧
         Forall2 (served reads rates (hist c) now) ps new.
Proof.
  induction ps as [|p ps IH]; intros c c'; cbn [cycle_loop].
  - intros [= <-] _. exists []. split; [rewrite app_nil_r; reflexivity | constructor].
  - destruct (cycle_step reads rates now c p) as [c1|] eqn:Hstep; [|discriminate].
    intros Hloop Hnodup.
    rewrite fmap_cons in Hnodup. apply NoDup_cons in Hnodup as [Hp Hnodup].
    destruct (IH _ _ Hloop Hnodup) as (new & Hres & Hall).
    destruct (cycle_step_serves _ _ _ _ _ _ Hstep) as (s & Hs & Hserved).
    exists (s :: new). split.
    + rewrite Hres, Hs, <- app_assoc. reflexivity.
    + constructor; [exact Hserved|].
      eapply served_histories; [exact Hall|].
      intros q Hq. eapply cycle_step_history; [exact Hstep|].
      intros Heq. apply Hp. rewrite <- Heq. apply list_elem_of_fmap_2, Hq.
Qed.

Lemma cycle_ids reads rates now ps : ∀ c c',
  cycle_loop reads rates now c ps = inl c' →
  protocolId <$> results c' = (protocolId <$> results c) ++ (id <$> ps).
Proof.
  induction ps as [|p ps IH]; intros c c'; cbn [cycle_loop].
  - intros [= <-]. rewrite app_nil_r. reflexivity.
  - destruct (cycle_step reads rates now c p) as [c1|] eqn:Hstep; [|discriminate].
    intros Hloop. rewrite (IH _ _ Hloop).
    destruct (cycle_step_serves _ _ _ _ _ _ Hstep) as (s & -> & Hid & _).
    rewrite fmap_app, <- app_assoc. cbn. rewrite Hid. reflexivity.
Qed.

(** Every source of a cycle that returns is served as [served] says, the
    last known rate being the one the history held when the cycle
    began. *)
Lemma getSnapshots_serves m reads now snaps ds m1 :
  getSnapshots m reads now = (Return (snaps, ds), m1) →
  NoDup (id <$> protocols m) →
  Forall2 (served reads (usable_rates m reads) (rateHistory m) now)
    (protocols m) snaps.
Proof.
  rewrite getSnapshots_loop.
  destruct (cycle_loop _ _ _ _ _) as [c|c] eqn:Hloop; [|discriminate].
  intros [= <- _ _] Hnodup.
  destruct (cycle_serves _ _ _ _ _ _ Hloop Hnodup) as (new & Hres & Hall).
  rewrite Hres. exact Hall.
Qed.

Lemma getSnapshots_ids m reads now snaps ds m1 :
  getSnapshots m reads now = (Return (snaps, ds), m1) →
  protocolId <$> snaps = id <$> protocols m.
Proof.
  rewrite getSnapshots_loop.
  destruct (cycle_loop _ _ _ _ _) as [c|c] eqn:Hloop; [|discriminate].
  intros [= <- _ _]. rewrite (cycle_ids _ _ _ _ _ _ Hloop). reflexivity.
Qed.

(** C8: the cycle in which every on-chain read and the DeFiLlama fetch fail
    serves all four sources from the history (rate 0 here, as the history
    is empty, and balance 0), and reports the data source "onchain",
    although no source resolved via the on-chain read. *)
Theorem getSnapshots_all_failed_reports_onchain :
  ∃ snaps dataSource m1,
    getSnapshots fresh_monitor failing_reads 1000
      = (Return (snaps, dataSource), m1) ∧
    origin_of failing_reads (usable_rates fresh_monitor failing_reads)
      <$> protocols fresh_monitor
      = [from_history; from_history; from_history; from_history] ∧
    (protocolId <$> snaps) = ["aave"; "compound"; "morpho"; "moonwell"] ∧
    Forall (λ s, balance s = 0 ∧ apyPercent s = 0%float) snaps ∧
    dataSource = onchain ∧
    ¬ Exists (λ p, origin_of failing_reads
                     (usable_rates fresh_monitor failing_reads) p = from_onchain)
        (protocols fresh_monitor).
Proof.
  eexists _, _, _. split; [vm_compute; reflexivity|].
  split; [reflexivity|]. split; [reflexivity|].
  split; [repeat constructor|]. split; [reflexivity|].
  intros H. repeat (apply Exists_cons in H as [H|H]; [discriminate|]).
  inversion H.
Qed.

(** *** The comparison *)

Lemma better_cases best current :
  (better best current = current ∧
   (apyPercent best <? apyPercent current)%float = true) ∨
  (better best current = best ∧
   (apyPercent best <? apyPercent current)%float = false).
Proof. unfold better. destruct (_ <? _)%float; auto. Qed.

(** The snapshot [reduce] ends on is its first argument or has a greater
    rate, and no snapshot has a rate greater than its rate. *)
Lemma foldl_better_max rest : ∀ first,
  let best := foldl better first rest in
  best ∈ first :: rest ∧
  (best = first ∨ (apyPercent first <? apyPercent best)%float = true) ∧
  (∀ s, s ∈ rest → (apyPercent best <? apyPercent s)%float = false).
Proof.
  induction rest as [|x rest IH]; intros first; cbn [foldl].
  - split; [left|]. split; [left; reflexivity|]. intros s Hs. inversion Hs.
  - specialize (IH (better first x)). cbv zeta in IH.
    destruct IH as (Hin & Hfirst & Hrest).
    set (best := foldl better (better first x) rest) in *.
    destruct (better_cases first x) as [[Hb Hlt]|[Hb Hle]]; rewrite Hb in *.
    + assert (Hx : best = x ∨ (apyPercent x <? apyPercent best)%float = true)
        by exact Hfirst.
      split; [right; exact Hin|]. split.
      * right. destruct Hx as [->|Hx]; [exact Hlt|].
        eapply float_ltb_trans; eassumption.
      * intros s Hs. apply elem_of_cons in Hs as [->|Hs]; [|auto].
        destruct Hx as [->|Hx]; [apply float_ltb_irrefl|].
        destruct (apyPercent best <? apyPercent x)%float eqn:E; [|reflexivity].
        pose proof (float_ltb_trans _ _ _ Hx E) as Hxx.
        rewrite float_ltb_irrefl in Hxx. discriminate.
    + split.
      * apply elem_of_cons in Hin as [->|Hin]; [left | right; right; exact Hin].
      * split; [exact Hfirst|].
        intros s Hs. apply elem_of_cons in Hs as [->|Hs]; [|auto].
        destruct Hfirst as [->|Hfirst]; [exact Hle|].
        destruct (apyPercent best <? apyPercent x)%float eqn:E; [|reflexivity].
        pose proof (float_ltb_trans _ _ _ Hfirst E) as Hfx. congruence.
Qed.

Lemma reduce_best_max l :
  l ≠ [] →
  ∃ best, reduce_best l = Some best ∧ best ∈ l ∧
          ∀ s, s ∈ l → (apyPercent best <? apyPercent s)%float = false.
Proof.
  destruct l as [|first rest]; [congruence|]. intros _.
  destruct (foldl_better_max rest first) as (Hin & Hfirst & Hrest).
  eexists. split; [reflexivity|]. split; [exact Hin|].
  intros s Hs. apply elem_of_cons in Hs as [->|Hs]; [|auto].
  destruct Hfirst as [->|Hfirst]; [apply float_ltb_irrefl|].
  destruct (_ <? apyPercent first)%float eqn:E; [|reflexivity].
  pose proof (float_ltb_trans _ _ _ Hfirst E) as H.
  rewrite float_ltb_irrefl in H. discriminate.
Qed.

Lemma find_holder_None (l : list ProtocolSnapshot) :
  List.find (λ s, 0 <? balance s) l = None ↔ Forall (λ s, ¬ holds_funds s) l.
Proof.
  unfold holds_funds. induction l as [|x l IH]; cbn.
  - split; [constructor | reflexivity].
  - destruct (0 <? balance x) eqn:E.
    + apply Z.ltb_lt in E. split; [discriminate|].
      intros H. apply Forall_cons in H as [H _]. contradiction.
    + apply Z.ltb_ge in E. rewrite IH. split.
      * intros H. constructor; [lia | exact H].
      * intros H. apply Forall_cons in H as [_ H]. exact H.
Qed.

(** [find] gives the first snapshot that holds funds. *)
Lemma find_holder_Some (l : list ProtocolSnapshot) c :
  List.find (λ s, 0 <? balance s) l = Some c →
  holds_funds c ∧
  ∃ before after, l = before ++ c :: after ∧
                  Forall (λ s, ¬ holds_funds s) before.
Proof.
  unfold holds_funds. induction l as [|x l IH]; cbn; [discriminate|].
  destruct (0 <? balance x) eqn:E.
  - intros [= <-]. apply Z.ltb_lt in E. split; [exact E|].
    exists [], l. split; [reflexivity | constructor].
  - intros H. destruct (IH H) as (Hc & before & after & -> & Hbefore).
    split; [exact Hc|]. exists (x :: before), after.
    split; [reflexivity|]. constructor; [|exact Hbefore].
    apply Z.ltb_ge in E. lia.
Qed.

Lemma detect_fold h now snaps : ∀ acc i,
  is_Some (foldl (detect_step h now) acc snaps !! i) ↔
  is_Some (acc !! i) ∨
  ∃ s, s ∈ snaps ∧ protocolId s = i ∧
       RateHistory.suspicious
         (RateHistory.detectAnomalies h i (Some (apyPercent s)) now) = true.
Proof.
  induction snaps as [|x snaps IH]; intros acc i; cbn [foldl].
  - split; [auto|]. intros [H|(s & Hs & _)]; [exact H | inversion Hs].
  - rewrite IH. unfold detect_step.
    destruct (RateHistory.suspicious _) eqn:Hx.
    + rewrite lookup_insert. case_decide as Hi.
      * subst i. split; [intros _|intros _; left; eauto].
        right. exists x. split; [left|]. split; [reflexivity | exact Hx].
      * split.
        -- intros [H|(s & Hs & Hid & Hsus)]; [left; exact H|].
           right. exists s. split; [right; exact Hs | auto].
        -- intros [H|(s & Hs & Hid & Hsus)]; [left; exact H|].
           apply elem_of_cons in Hs as [->|Hs]; [congruence|].
           right. exists s. auto.
    + split.
      * intros [H|(s & Hs & Hid & Hsus)]; [left; exact H|].
        right. exists s. split; [right; exact Hs | auto].
      * intros [H|(s & Hs & Hid & Hsus)]; [left; exact H|].
        apply elem_of_cons in Hs as [->|Hs].
        -- subst i. congruence.
        -- right. exists s. auto.
Qed.





(** The rules hold of the comparison of any non-empty list of snapshots. *)
Lemma compareSnapshots_rules cfg h now snaps ds :
  snaps ≠ [] →
  ∃ r, compareSnapshots cfg h now snaps ds = Some r ∧
       dataSource r = ds ∧
       snapshots r =
         (if useTWAP cfg then effective cfg h now <$> snaps else snaps) ∧
       best_and_current r ∧ decision_rules r ∧
       anomaly_flags cfg h now snaps r.
Proof.
  intros Hne. unfold compareSnapshots.
  set (flags := if enableAnomalyDetection cfg
                then foldl (detect_step h now) ∅ snaps else ∅).
  set (eff := if useTWAP cfg then effective cfg h now <$> snaps else snaps).
  assert (Heff : eff ≠ []).
  { unfold eff. destruct (useTWAP cfg); [|exact Hne].
    destruct snaps; [congruence | discriminate]. }
  destruct (reduce_best_max eff Heff) as (best & Hbest & Hin & Hmax).
  cbv zeta. rewrite Hbest. change MIN_APY_DIFFERENTIAL_BPS with 50%float.
  set (bps := Math_round _).
  assert (Hflags : ∀ i, is_Some (flags !! i) ↔
            enableAnomalyDetection cfg = true ∧
            ∃ s, s ∈ snaps ∧ protocolId s = i ∧
                 RateHistory.suspicious
                   (RateHistory.detectAnomalies h i (Some (apyPercent s)) now) = true).
  { intros i. unfold flags. destruct (enableAnomalyDetection cfg).
    - rewrite detect_fold. rewrite lookup_empty. split.
      + intros [[? H]|H]; [discriminate | auto].
      + intros [_ H]. right. exact H.
    - rewrite lookup_empty. split; [intros [? H]; discriminate|].
      intros [H _]. discriminate. }
  destruct (List.find (λ s, 0 <? balance s) eff) as [current|] eqn:Hcur.
  - destruct (find_holder_Some _ _ Hcur) as [Hcpos Hcfirst].
    assert (Hsome : ¬ Forall (λ s, ¬ holds_funds s) eff).
    { intros Hall. apply find_holder_None in Hall. congruence. }
    destruct (decide (protocolId current = protocolId best)) as [Hsame|Hdiff];
      [|destruct (bps <? 50)%float eqn:Hbps;
        [|destruct (bool_decide (is_Some (flags !! protocolId best))) eqn:Hflag]];
      (eexists; split; [reflexivity|]; split; [reflexivity|];
       split; [reflexivity|]; split; [|split; [|exact Hflags]]);
      try (split; [exact Hin|]; split; [exact Hmax|]; split;
           [split; [discriminate | intros Hall; contradiction]|];
           split; [intros c [= <-]; split; assumption | reflexivity]);
      (split; [intros Hall; contradiction|]);
      intros c [= <-]; cbn [bestProtocol apyDifferentialBps anomalies
                              shouldRebalance rejectReason].
    + split; [intros _; split; reflexivity|].
      repeat split; intros; contradiction.
    + split; [intros; contradiction|].
      split; [intros _ _; split; reflexivity|].
      split; intros; contradiction.
    + apply bool_decide_eq_true in Hflag.
      split; [intros; contradiction|].
      split; [intros _ Hb; exfalso; congruence|].
      split; [intros _ _ _; split; reflexivity|].
      intros; contradiction.
    + apply bool_decide_eq_false in Hflag.
      split; [intros; contradiction|].
      split; [intros _ Hb; exfalso; congruence|].
      split; [intros; contradiction|].
      intros _ _ _. split; reflexivity.
  - eexists. split; [reflexivity|]. split; [reflexivity|].
    split; [reflexivity|]. split; [|split; [|exact Hflags]].
    + split; [exact Hin|]. split; [exact Hmax|]. split.
      * split; [intros _; apply find_holder_None, Hcur | reflexivity].
      * split; [discriminate | reflexivity].
    + split; [intros _; split; reflexivity | discriminate].
Qed.

(** What [compareYields] gives once [getSnapshots] has returned. *)
Lemma compareYields_after_snapshots m reads now snaps ds m1 :
  getSnapshots m reads now = (Return (snaps, ds), m1) →
  compareYields m reads now =
  match compareSnapshots (config m) (rateHistory m1) now snaps ds with
  | None => (Throw reduce_of_empty_array, m1)
  | Some r =>
      (Return r,
       {| protocols := protocols m; config := config m;
          rateHistory := rateHistory m1; lastComparison := Some r |})
  end.
Proof.
  intros Hget. unfold compareYields. rewrite Hget.
  destruct (getSnapshots_monitor m reads now) as (Hps & Hcfg & _).
  rewrite Hget in Hps, Hcfg. cbn [snd] in Hps, Hcfg. rewrite Hps, Hcfg.
  reflexivity.
Qed.




Example compareYields_example :
  ∃ r, (compareYields fresh_monitor example_reads 1000).1 = Return r ∧
       protocolId (bestProtocol r) = "compound" ∧
       (protocolId <$> currentProtocol r) = Some "aave" ∧
       apyDifferentialBps r = 225%float ∧
       shouldRebalance r = true ∧ rejectReason r = None.
Proof. eexists. split; [vm_compute; reflexivity|]. vm_compute. auto. Qed.

End YieldMonitorFacts.

(** ** The approval flow *)

Section ApprovalFlowFacts.
Import ApprovalFlow ApprovalFlowSpec.

Lemma getPendingApprovals_elem f request :
  request ∈ getPendingApprovals f ↔
  ∃ k, pendingApprovals f !! k = Some request.
Proof.
  unfold getPendingApprovals. rewrite list_elem_of_fmap. split.
  - intros ([k req] & -> & Hin). exists k.
    apply elem_of_map_to_list in Hin. exact Hin.
  - intros [k Hk]. exists (k, request). split; [reflexivity|].
    apply elem_of_map_to_list. exact Hk.
Qed.

(** [processApproval] never files a request: it leaves the pending set as
    it is or deletes the request of the response. *)
Lemma processApproval_pending f now response :
  let f' := (processApproval f now response).2 in
  pendingApprovals f' = pendingApprovals f ∨
  pendingApprovals f' =
    delete (responseProposalId response) (pendingApprovals f).
Proof.
  unfold processApproval. cbv zeta.
  destruct (pendingApprovals f !! _) as [request|]; [|left; reflexivity].
  destruct (expiresAt request <? now); [right; reflexivity|].
  destruct (negb (approved response)); [right; reflexivity|].
  destruct (webAuthnAuth response) as [auth|]; [|left; reflexivity].
  destruct (attachPasskeySignature _ _ _); [right | left]; reflexivity.
Qed.

Lemma rejectProposal_pending f now proposalId :
  pendingApprovals (rejectProposal f now proposalId) =
  delete proposalId (pendingApprovals f).
Proof.
  unfold rejectProposal.
  destruct (pendingApprovals f !! proposalId) eqn:E; cbn.
  - reflexivity.
  - symmetry. apply delete_id. exact E.
Qed.

Lemma requestApproval_pending f now proposal vaultAddress userOp k :
  k ≠ id proposal →
  pendingApprovals (requestApproval f now proposal vaultAddress userOp).2 !! k =
  pendingApprovals f !! k.
Proof.
  intros Hne. unfold requestApproval.
  destruct (prepareForPasskeySigning _ _); cbn; [|reflexivity].
  apply lookup_insert_ne. congruence.
Qed.

Lemma run_call_keyed f c : keyed f → keyed (run_call f c).
Proof.
  intros Hkeyed k request. destruct c as [now fresh params|now proposal vault op|now response|now pid];
    cbn [run_call].
  - cbn. apply Hkeyed.
  - unfold requestApproval.
    destruct (prepareForPasskeySigning _ _) as [hash|]; cbn; [|apply Hkeyed].
    rewrite lookup_insert. case_decide as Hk.
    + intros [= <-]. cbn. exact Hk.
    + apply Hkeyed.
  - destruct (processApproval_pending f now response) as [-> | ->];
      [apply Hkeyed|].
    intros H. apply lookup_delete_Some in H as [_ H]. eapply Hkeyed, H.
  - rewrite rejectProposal_pending.
    intros H. apply lookup_delete_Some in H as [_ H]. eapply Hkeyed, H.
Qed.

Lemma reachable_keyed f : reachable f → keyed f.
Proof.
  induction 1 as [wm fmt cfg|f c _ IH].
  - intros k request H. cbn in H. rewrite lookup_empty in H. discriminate.
  - apply run_call_keyed, IH.
Qed.

(** Once no request is pending for an id, none is until one is requested
    for it again. *)
Lemma no_pending_stable proposalId calls : ∀ f,
  pendingApprovals f !! proposalId = None →
  Forall (files_no_request proposalId) calls →
  pendingApprovals (foldl run_call f calls) !! proposalId = None.
Proof.
  induction calls as [|c calls IH]; intros f Hnone Hcalls; cbn [foldl];
    [exact Hnone|].
  apply Forall_cons in Hcalls as [Hc Hcalls]. apply IH; [|exact Hcalls].
  destruct c as [now fresh params|now proposal vault op|now response|now pid];
    cbn [run_call].
  - exact Hnone.
  - rewrite requestApproval_pending; [exact Hnone|]. cbn in Hc. congruence.
  - destruct (processApproval_pending f now response) as [-> | ->];
      [exact Hnone|].
    apply lookup_delete_None. right. exact Hnone.
  - rewrite rejectProposal_pending. apply lookup_delete_None. right. exact Hnone.
Qed.

Lemma processApproval_not_found f now response :
  pendingApprovals f !! responseProposalId response = None →
  processApproval f now response =
    (Throw (NoPendingApproval (responseProposalId response)), f).
Proof. intros H. unfold processApproval. cbv zeta. rewrite H. reflexivity. Qed.

Lemma delete_not_listed f f' proposalId :
  keyed f →
  pendingApprovals f' = delete proposalId (pendingApprovals f) →
  ∀ request, request ∈ getPendingApprovals f' → proposalId ≠ ApprovalFlow.proposalId request.
Proof.
  intros Hkeyed Hdel request Hin.
  apply getPendingApprovals_elem in Hin as [k Hk].
  rewrite Hdel in Hk. apply lookup_delete_Some in Hk as [Hne Hk].
  rewrite (Hkeyed _ _ Hk). exact Hne.
Qed.

Lemma status_after_update f proposalId st :
  getProposal (updateProposalStatus f proposalId st) proposalId =
  with_status st <$> getProposal f proposalId.
Proof.
  unfold getProposal, updateProposalStatus. cbn.
  rewrite lookup_alter. case_decide; [reflexivity | congruence].
Qed.

Lemma status_read (o : option RebalanceProposal) st :
  is_Some o → status <$> (with_status st <$> o) = Some st.
Proof. intros [p ->]. reflexivity. Qed.

(** C4. When the request pending for the proposal of the response has an
    [expiresAt] in the past, [processApproval] fails with the expiry
    error, the status of the proposal becomes [EXPIRED] (the proposal the
    flow tracks under that id), and the request leaves the pending set:
    [getPendingApprovals] lists no request for that proposal id. *)
Theorem processApproval_expired (f : t) (now : Z) (response : ApprovalResponse)
    (request : ApprovalRequest) :
  reachable f →
  pendingApprovals f !! responseProposalId response = Some request →
  expiresAt request < now →
  let proposalId := responseProposalId response in
  let f' := (processApproval f now response).2 in
  (processApproval f now response).1 = Throw ApprovalExpired ∧
  getProposal f' proposalId = with_status EXPIRED <$> getProposal f proposalId ∧
  (is_Some (getProposal f proposalId) →
     status <$> getProposal f' proposalId = Some EXPIRED) ∧
  pendingApprovals f' !! proposalId = None ∧
  (∀ listed, listed ∈ getPendingApprovals f' →
     ApprovalFlow.proposalId listed ≠ proposalId).
Proof.
  intros Hreach Hpending Hexpired proposalId f'.
  assert (Hrun : processApproval f now response =
    (Throw ApprovalExpired,
     logAudit
       (set_pendingApprovals (updateProposalStatus f proposalId EXPIRED)
          (delete proposalId (pendingApprovals (updateProposalStatus f proposalId EXPIRED))))
       now APPROVAL_EXPIRED (Some proposalId) (Some (vaultAddress request)) None)).
  { unfold processApproval, proposalId. cbv zeta. rewrite Hpending.
    apply Z.ltb_lt in Hexpired. rewrite Hexpired. reflexivity. }
  unfold f'. rewrite Hrun. cbn [fst snd].
  assert (Hstatus : getProposal
    (logAudit
       (set_pendingApprovals (updateProposalStatus f proposalId EXPIRED)
          (delete proposalId (pendingApprovals (updateProposalStatus f proposalId EXPIRED))))
       now APPROVAL_EXPIRED (Some proposalId) (Some (vaultAddress request)) None)
    proposalId = with_status EXPIRED <$> getProposal f proposalId).
  { rewrite <- status_after_update. reflexivity. }
  split; [reflexivity|]. split; [exact Hstatus|].
  split; [intros Hsome; rewrite Hstatus; apply status_read, Hsome|].
  split; [cbn; apply lookup_delete_eq|].
  intros listed Hin Heq.
  eapply (delete_not_listed f _ proposalId (reachable_keyed f Hreach));
    [|exact Hin|symmetry; exact Heq].
  reflexivity.
Qed.

Lemma pending_flow_reachable : reachable pending_flow.
Proof.
  unfold pending_flow, flow_with_proposal, example_calls. cbn [foldl].
  apply reach_call, reach_call, reach_create.
Qed.

Lemma processApproval_expired_witness :
  ∃ request,
    reachable pending_flow ∧
    pendingApprovals pending_flow !! "V1StGXR8_Z5j" = Some request ∧
    expiresAt request < 10 ∧
    let f' := (processApproval pending_flow 10 (approval (Some example_auth) 10)).2 in
    (processApproval pending_flow 10 (approval (Some example_auth) 10)).1
      = Throw ApprovalExpired ∧
    status <$> getProposal f' "V1StGXR8_Z5j" = Some EXPIRED ∧
    ∀ listed, listed ∈ getPendingApprovals f' →
      ApprovalFlow.proposalId listed ≠ "V1StGXR8_Z5j".
Proof.
  destruct (pendingApprovals pending_flow !! "V1StGXR8_Z5j") as [request|] eqn:Hreq;
    [|vm_compute in Hreq; discriminate].
  exists request.
  assert (Hexp : expiresAt request < 10).
  { vm_compute in Hreq. injection Hreq as <-. reflexivity. }
  destruct (processApproval_expired pending_flow 10 (approval (Some example_auth) 10)
              request pending_flow_reachable Hreq Hexp)
    as (Hout & _ & Hstatus & _ & Hlist).
  split; [exact pending_flow_reachable|]. split; [reflexivity|].
  split; [exact Hexp|]. split; [exact Hout|].
  split; [apply Hstatus; vm_compute; eauto | exact Hlist].
Defined.

Lemma rejected_intro f f' proposalId :
  getProposal f' proposalId = with_status REJECTED <$> getProposal f proposalId →
  pendingApprovals f' !! proposalId = None →
  rejected f f' proposalId.
Proof.
  intros Hstatus Hnone. split; [exact Hstatus|].
  split; [intros Hsome; rewrite Hstatus; apply status_read, Hsome|].
  split; [exact Hnone|].
  intros calls later response Hcalls <-. cbv zeta.
  apply processApproval_not_found.
  apply no_pending_stable; [exact Hnone | exact Hcalls].
Qed.

(** C5, as amended. A rejection of a proposal with a pending request,
    either [processApproval] receiving [approved = false] while the request
    has not expired, or [rejectProposal] on its id, makes the status of the
    proposal [REJECTED] and deletes the pending request; any
    [processApproval] for the same id after it, even with [approved = true]
    and an assertion, fails with the error of the missing pending request;
    and [rejectProposal] on an id without a pending request changes
    nothing. *)
Theorem rejection_is_terminal (f : t) (now : Z) (proposalId : string)
    (request : ApprovalRequest) :
  pendingApprovals f !! proposalId = Some request →
  (∀ response,
     responseProposalId response = proposalId →
     approved response = false →
     ¬ (expiresAt request < now) →
     (processApproval f now response).1 = Throw UserRejected ∧
     rejected f (processApproval f now response).2 proposalId) ∧
  rejected f (rejectProposal f now proposalId) proposalId ∧
  (∀ other, pendingApprovals f !! other = None → rejectProposal f now other = f).
Proof.
  intros Hpending. split; [|split].
  - intros response <- Hno Hfresh.
    assert (Hrun : processApproval f now response =
      (Throw UserRejected,
       logAudit
         (set_pendingApprovals
            (updateProposalStatus f (responseProposalId response) REJECTED)
            (delete (responseProposalId response)
               (pendingApprovals
                  (updateProposalStatus f (responseProposalId response) REJECTED))))
         now APPROVAL_REJECTED (Some (responseProposalId response))
         (Some (vaultAddress request)) None)).
    { unfold processApproval. cbv zeta. rewrite Hpending, Hno.
      destruct (expiresAt request <? now) eqn:E; [|reflexivity].
      apply Z.ltb_lt in E. lia. }
    rewrite Hrun. cbn [fst snd]. split; [reflexivity|].
    apply rejected_intro.
    + rewrite <- status_after_update. reflexivity.
    + cbn. apply lookup_delete_eq.
  - unfold rejectProposal. rewrite Hpending. apply rejected_intro.
    + rewrite <- status_after_update. reflexivity.
    + cbn. apply lookup_delete_eq.
  - intros other Hnone. unfold rejectProposal. rewrite Hnone. reflexivity.
Qed.

Lemma rejection_is_terminal_witness :
  ∃ request,
    pendingApprovals pending_flow !! "V1StGXR8_Z5j" = Some request ∧
    ¬ (expiresAt request < 0) ∧
    (processApproval pending_flow 0 (rejection 0)).1 = Throw UserRejected ∧
    rejected pending_flow (processApproval pending_flow 0 (rejection 0)).2
      "V1StGXR8_Z5j" ∧
    rejected pending_flow (rejectProposal pending_flow 0 "V1StGXR8_Z5j")
      "V1StGXR8_Z5j".
Proof.
  destruct (pendingApprovals pending_flow !! "V1StGXR8_Z5j") as [request|] eqn:Hreq;
    [|vm_compute in Hreq; discriminate].
  exists request.
  assert (Hfresh : ¬ (expiresAt request < 0)).
  { vm_compute in Hreq. injection Hreq as <-. cbn. lia. }
  destruct (rejection_is_terminal pending_flow 0 "V1StGXR8_Z5j" request Hreq)
    as (Hprocess & Hreject & _).
  destruct (Hprocess (rejection 0) eq_refl eq_refl Hfresh) as [Hout Hstate].
  split; [reflexivity|]. split; [exact Hfresh|].
  split; [exact Hout|]. split; [exact Hstate | exact Hreject].
Defined.

(** C5, as stated, fails when the pending request has expired: the expiry
    check of [processApproval] comes first, so a response with
    [approved = false] arriving at time 10 for the request that expired at
    time 1 makes the status [EXPIRED], not [REJECTED], and the call fails
    with the expiry error. *)
Lemma rejection_of_expired_request_expires :
  let outcome := processApproval pending_flow 10 (rejection 10) in
  approved (rejection 10) = false ∧
  is_Some (pendingApprovals pending_flow !! responseProposalId (rejection 10)) ∧
  outcome.1 = Throw ApprovalExpired ∧
  status <$> getProposal outcome.2 "V1StGXR8_Z5j" = Some EXPIRED ∧
  status <$> getProposal outcome.2 "V1StGXR8_Z5j" ≠ Some REJECTED.
Proof.
  vm_compute. split; [reflexivity|]. split; [eauto|].
  split; [reflexivity|]. split; [reflexivity | discriminate].
Qed.

(** C10. For a pending request that has not expired, a [processApproval]
    with [approved = true] and no WebAuthn assertion fails with the
    missing-signature error and leaves the whole state as it was: the
    status of the proposal and the pending request stay, so that a later
    [processApproval] for the same id, with an assertion the wallet manager
    attaches and before the expiry, succeeds and approves the proposal. *)
Theorem processApproval_missing_signature (f : t) (now : Z)
    (response : ApprovalResponse) (request : ApprovalRequest) :
  pendingApprovals f !! responseProposalId response = Some request →
  ¬ (expiresAt request < now) →
  approved response = true →
  webAuthnAuth response = None →
  let proposalId := responseProposalId response in
  processApproval f now response = (Throw MissingWebAuthn, f) ∧
  ∀ later response' auth signedUserOp,
    responseProposalId response' = proposalId →
    ¬ (expiresAt request < later) →
    approved response' = true →
    webAuthnAuth response' = Some auth →
    attachPasskeySignature (walletManager f) (userOp request) auth
      = Some signedUserOp →
    let f'' := (processApproval f later response').2 in
    (processApproval f later response').1 = Return signedUserOp ∧
    getProposal f'' proposalId = with_status APPROVED <$> getProposal f proposalId ∧
    (is_Some (getProposal f proposalId) →
       status <$> getProposal f'' proposalId = Some APPROVED) ∧
    pendingApprovals f'' !! proposalId = None.
Proof.
  intros Hpending Hfresh Hyes Hnone proposalId. split.
  - unfold processApproval. cbv zeta. rewrite Hpending, Hyes, Hnone.
    destruct (expiresAt request <? now) eqn:E; [|reflexivity].
    apply Z.ltb_lt in E. lia.
  - intros later response' auth signedUserOp Hid Hfresh' Hyes' Hauth Hattach f''.
    assert (Hrun : processApproval f later response' =
      (Return signedUserOp,
       logAudit
         (set_pendingApprovals (updateProposalStatus f proposalId APPROVED)
            (delete proposalId
               (pendingApprovals (updateProposalStatus f proposalId APPROVED))))
         later APPROVAL_RECEIVED (Some proposalId)
         (Some (vaultAddress request)) (Some (userOpHash request)))).
    { unfold processApproval. cbv zeta. rewrite Hid. unfold proposalId.
      rewrite Hpending, Hyes', Hauth, Hattach.
      destruct (expiresAt request <? later) eqn:E; [|reflexivity].
      apply Z.ltb_lt in E. lia. }
    unfold f''. rewrite Hrun. cbn [fst snd].
    assert (Hstatus : getProposal
      (logAudit
         (set_pendingApprovals (updateProposalStatus f proposalId APPROVED)
            (delete proposalId
               (pendingApprovals (updateProposalStatus f proposalId APPROVED))))
         later APPROVAL_RECEIVED (Some proposalId)
         (Some (vaultAddress request)) (Some (userOpHash request)))
      proposalId = with_status APPROVED <$> getProposal f proposalId).
    { rewrite <- status_after_update. reflexivity. }
    split; [reflexivity|]. split; [exact Hstatus|].
    split; [intros Hsome; rewrite Hstatus; apply status_read, Hsome|].
    cbn. apply lookup_delete_eq.
Qed.

Lemma processApproval_missing_signature_witness :
  ∃ request signedUserOp,
    pendingApprovals pending_flow !! "V1StGXR8_Z5j" = Some request ∧
    ¬ (expiresAt request < 0) ∧
    processApproval pending_flow 0 (approval None 0)
      = (Throw MissingWebAuthn, pending_flow) ∧
    status <$> getProposal pending_flow "V1StGXR8_Z5j" = Some PENDING_APPROVAL ∧
    let later := processApproval pending_flow 1 (approval (Some example_auth) 1) in
    later.1 = Return signedUserOp ∧
    status <$> getProposal later.2 "V1StGXR8_Z5j" = Some APPROVED.
Proof.
  destruct (pendingApprovals pending_flow !! "V1StGXR8_Z5j") as [request|] eqn:Hreq;
    [|vm_compute in Hreq; discriminate].
  destruct (attachPasskeySignature (walletManager pending_flow) (userOp request)
              example_auth) as [signedUserOp|] eqn:Hattach;
    [|vm_compute in Hattach; discriminate].
  exists request, signedUserOp.
  assert (Hexp : expiresAt request = 1).
  { vm_compute in Hreq. injection Hreq as <-. reflexivity. }
  assert (Hfresh : ¬ (expiresAt request < 0)) by lia.
  assert (Hfresh' : ¬ (expiresAt request < 1)) by lia.
  destruct (processApproval_missing_signature pending_flow 0 (approval None 0)
              request Hreq Hfresh eq_refl eq_refl) as [Hkeep Hlater].
  destruct (Hlater 1 (approval (Some example_auth) 1) example_auth signedUserOp
              eq_refl Hfresh' eq_refl eq_refl Hattach)
    as (Hout & _ & Hstatus & _).
  split; [reflexivity|]. split; [exact Hfresh|]. split; [exact Hkeep|].
  split; [vm_compute; reflexivity|].
  split; [exact Hout | apply Hstatus; vm_compute; eauto].
Defined.

Lemma serialize_safe s : url_safe s = true → URLSearchParams.serialize s = s.
Proof.
  induction s as [|c s IH]; cbn [url_safe URLSearchParams.serialize];
    [reflexivity|].
  intros H. apply andb_true_iff in H as [Hc Hs].
  rewrite (IH Hs). unfold URLSearchParams.serialize_byte. rewrite Hc.
  destruct (Ascii.eqb c " ") eqn:E; [|reflexivity].
  apply Ascii.eqb_eq in E. subst c. discriminate.
Qed.

Lemma generateApprovalUrl_form f proposalId userOpHash vaultAddress :
  generateApprovalUrl f proposalId userOpHash vaultAddress =
  approvalUiBaseUrl (config f)
  +:+ "?id=" +:+ URLSearchParams.serialize proposalId
  +:+ "&hash=" +:+ URLSearchParams.serialize userOpHash
  +:+ "&vault=" +:+ URLSearchParams.serialize vaultAddress.
Proof.
  unfold generateApprovalUrl, URLSearchParams.toString,
    URLSearchParams.pair_toString.
  cbn [fst snd]. reflexivity.
Qed.

(** C9, as amended. The approval URL of a request created by
    [requestApproval] is the base URL followed by
    [?id={proposalId}&hash={userOpHash}&vault={vaultAddress}]: the proposal
    id under the query parameter "id", the hash of the instruction under
    "hash", and the address of the vault (the spec's target entity) under
    the parameter named "vault". Each value is form-urlencoded, which
    leaves a value made of letters, digits and [* - . _] (a nanoid id, a
    0x-prefixed hexadecimal string) as it is. *)
Theorem requestApproval_url (f : t) (now : Z) (proposal : RebalanceProposal)
    (vaultAddress : string) (userOp : PackedUserOperation) (hash : string) :
  prepareForPasskeySigning (walletManager f) userOp = Some hash →
  ∃ request notification,
    (requestApproval f now proposal vaultAddress userOp).1
      = Return (request, notification) ∧
    pendingApprovals (requestApproval f now proposal vaultAddress userOp).2
      !! id proposal = Some request ∧
    notificationApprovalUrl notification = approvalUrl request ∧
    approvalUrl request =
      approvalUiBaseUrl (config f)
      +:+ "?id=" +:+ URLSearchParams.serialize (id proposal)
      +:+ "&hash=" +:+ URLSearchParams.serialize hash
      +:+ "&vault=" +:+ URLSearchParams.serialize vaultAddress ∧
    (url_safe (id proposal) = true → url_safe hash = true →
     url_safe vaultAddress = true →
     approvalUrl request =
       approvalUiBaseUrl (config f)
       +:+ "?id=" +:+ id proposal
       +:+ "&hash=" +:+ hash
       +:+ "&vault=" +:+ vaultAddress).
Proof.
  intros Hhash. unfold requestApproval. rewrite Hhash. cbn [fst snd].
  eexists. eexists. split; [reflexivity|].
  split; [cbn; apply lookup_insert_eq|].
  split; [reflexivity|]. cbn [approvalUrl].
  split; [apply generateApprovalUrl_form|].
  intros Hid Hh Hv. rewrite generateApprovalUrl_form.
  rewrite !serialize_safe by assumption. reflexivity.
Qed.

Lemma requestApproval_url_witness :
  prepareForPasskeySigning (walletManager flow_with_proposal) example_userOp
    = Some "0xabc123" ∧
  url_safe (id example_proposal) = true ∧ url_safe "0xabc123" = true ∧
  url_safe example_vault = true ∧
  ∃ request notification,
    (requestApproval flow_with_proposal 0 example_proposal example_vault
       example_userOp).1 = Return (request, notification) ∧
    approvalUrl request =
      "https://approve.example/?id=V1StGXR8_Z5j&hash=0xabc123&vault=0x1111111111111111111111111111111111111111".
Proof.
  assert (Hhash : prepareForPasskeySigning (walletManager flow_with_proposal)
                    example_userOp = Some "0xabc123") by reflexivity.
  assert (Hid : url_safe (id example_proposal) = true) by reflexivity.
  assert (Hh : url_safe "0xabc123" = true) by reflexivity.
  assert (Hv : url_safe example_vault = true) by reflexivity.
  destruct (requestApproval_url flow_with_proposal 0 example_proposal
              example_vault example_userOp "0xabc123" Hhash)
    as (request & notification & Hout & _ & _ & _ & Hsafe).
  split; [exact Hhash|]. split; [exact Hid|]. split; [exact Hh|].
  split; [exact Hv|].
  exists request, notification. split; [exact Hout|].
  rewrite (Hsafe Hid Hh Hv). reflexivity.
Defined.

(** C9, as stated, fails: the URL of the request for the proposal
    "V1StGXR8_Z5j" carries the vault address under the parameter "vault",
    and is not the URL with a parameter "target". *)
Lemma approvalUrl_has_no_target_parameter :
  ∃ request,
    pendingApprovals pending_flow !! "V1StGXR8_Z5j" = Some request ∧
    approvalUrl request =
      approvalUiBaseUrl (config pending_flow)
      +:+ "?id=" +:+ proposalId request
      +:+ "&hash=" +:+ userOpHash request
      +:+ "&vault=" +:+ vaultAddress request ∧
    approvalUrl request ≠
      approvalUiBaseUrl (config pending_flow)
      +:+ "?id=" +:+ proposalId request
      +:+ "&hash=" +:+ userOpHash request
      +:+ "&target=" +:+ vaultAddress request.
Proof.
  eexists. split; [vm_compute; reflexivity|].
  split; [vm_compute; reflexivity | vm_compute; discriminate].
Qed.

End ApprovalFlowFacts.

(** ** The session key manager *)

Section SessionKeyFacts.
Import SecureSessionKeyManager SessionKeySpec.

(** [Date.now() / 1000 > validUntil], on the integers. *)
Lemma past_validUntil (now validUntil : Z) :
  Qgtb (seconds now) (inject_Z validUntil) = true ↔ 1000 * validUntil < now.
Proof.
  rewrite Qgtb_true. unfold seconds, Qlt, Qdiv, Qmult, Qinv, inject_Z. cbn.
  lia.
Qed.

Lemma decryptForSigning_not_found m now addr :
  encryptedKeys m !! addr = None →
  decryptForSigning m now addr = ([], Throw (NoSessionKeyFound addr)).
Proof. intros H. unfold decryptForSigning. rewrite H. reflexivity. Qed.

(** A key past its [validUntil] is refused before any call of [decrypt]. *)
Lemma decryptForSigning_expired m now addr encrypted :
  encryptedKeys m !! addr = Some encrypted →
  1000 * validUntil (config encrypted) < now →
  decryptForSigning m now addr = ([], Throw (SessionKeyExpired addr)).
Proof.
  intros H Hpast. unfold decryptForSigning. rewrite H.
  apply past_validUntil in Hpast. rewrite Hpast. reflexivity.
Qed.

(** Up to and including the instant [validUntil] the key is decrypted,
    once, and on success the address, the key and the config of the stored
    entry are returned. *)
Lemma decryptForSigning_decrypts m now addr encrypted :
  encryptedKeys m !! addr = Some encrypted →
  now ≤ 1000 * validUntil (config encrypted) →
  decryptForSigning m now addr =
    ([{| callCiphertext := encryptedPrivateKey encrypted;
         callIv := iv encrypted; callAuthTag := authTag encrypted |}],
     match decrypt m (encryptedPrivateKey encrypted) (iv encrypted)
             (authTag encrypted) with
     | Some privateKeyBytes =>
         Return {| decryptedAddress := address encrypted;
                   privateKey := bytesToHex privateKeyBytes;
                   decryptedConfig := config encrypted |}
     | None => Throw AuthenticationFailed
     end).
Proof.
  intros H Hnot. unfold decryptForSigning. rewrite H.
  destruct (Qgtb _ _) eqn:E.
  - apply past_validUntil in E. lia.
  - destruct (decrypt m _ _ _); reflexivity.
Qed.

(** At the instant [validUntil] itself the other methods of the class
    count the key as expired. *)
Lemma expired_at_validUntil (k : EncryptedSessionKey) :
  still_valid (1000 * validUntil (config k)) k = false ∧
  to_clean_up (1000 * validUntil (config k)) k = true.
Proof.
  unfold still_valid, to_clean_up. split.
  - apply Qgtb_false. unfold seconds, Qle, Qdiv, Qmult, Qinv, inject_Z.
    cbn. lia.
  - apply Qle_bool_iff. unfold seconds, Qle, Qdiv, Qmult, Qinv, inject_Z.
    cbn. lia.
Qed.

(** C6: at [now = validUntil] (1700000000 seconds, read in milliseconds)
    [decryptForSigning] does not fail with the expiry error: it calls
    [decrypt] and returns the plaintext key, while [getValidSessionKeys]
    no longer lists the key and [cleanupExpired] removes it. *)
Theorem decryptForSigning_at_validUntil :
  let addr := "0x2222222222222222222222222222222222222222" in
  let now := 1700000000000 in
  (seconds now == inject_Z (validUntil (config example_key)))%Q ∧
  decryptForSigning example_manager now addr =
    ([{| callCiphertext := "Y2lwaGVydGV4dA=="; callIv := "aXY=";
         callAuthTag := "tag" |}],
     Return {| decryptedAddress := addr;
               privateKey := "0x736563726574";
               decryptedConfig := config example_key |}) ∧
  decryptForSigning example_manager now addr
    ≠ ([], Throw (SessionKeyExpired addr)) ∧
  getValidSessionKeys example_manager now = [] ∧
  (cleanupExpired example_manager now).1 = 1%nat ∧
  decryptForSigning example_manager (now + 1) addr
    = ([], Throw (SessionKeyExpired addr)).
Proof.
  cbv zeta. split; [reflexivity|].
  split; [vm_compute; reflexivity|].
  split; [vm_compute; discriminate|].
  split; [vm_compute; reflexivity|].
  split; vm_compute; reflexivity.
Qed.

End SessionKeyFacts.

(** ** The approval URL, written and read *)

Section ApprovalUrlFacts.
Import URLSearchParams URLSearchParamsReader ApprovalUrlSpec.

Lemma decode_serialize_byte c rest :
  decode (serialize_byte c +:+ rest) = String c (decode rest).
Proof.
  destruct c as [[] [] [] [] [] [] [] []]; reflexivity.
Qed.

Lemma decode_serialize s : decode (serialize s) = s.
Proof.
  induction s as [|c s IH]; [reflexivity|].
  cbn [serialize]. rewrite decode_serialize_byte, IH. reflexivity.
Qed.

Lemma avoids_app sep a b :
  avoids sep (a +:+ b) = avoids sep a && avoids sep b.
Proof.
  induction a as [|c a IH]; [reflexivity|].
  change (String c a +:+ b) with (String c (a +:+ b)).
  cbn [avoids]. rewrite IH, andb_assoc. reflexivity.
Qed.

Lemma serialize_byte_avoids c :
  avoids "&" (serialize_byte c) = true ∧ avoids "=" (serialize_byte c) = true.
Proof.
  destruct c as [[] [] [] [] [] [] [] []]; split; reflexivity.
Qed.

Lemma serialize_avoids s :
  avoids "&" (serialize s) = true ∧ avoids "=" (serialize s) = true.
Proof.
  induction s as [|c s [IH1 IH2]]; [split; reflexivity|].
  cbn [serialize]. rewrite !avoids_app, IH1, IH2.
  destruct (serialize_byte_avoids c) as [-> ->]. split; reflexivity.
Qed.

Lemma cut_at_equals a v :
  avoids "=" a = true → cut (a +:+ String "=" v) = (a, v).
Proof.
  induction a as [|c a IH]; [reflexivity|].
  change (String c a +:+ ?x) with (String c (a +:+ x)).
  cbn [avoids cut split]. intros H.
  apply andb_true_iff in H as [Hc Ha].
  apply negb_true_iff in Hc. rewrite Hc, (IH Ha). reflexivity.
Qed.

Lemma split_piece a :
  avoids "&" a = true → split "&" a = [a].
Proof.
  induction a as [|c a IH]; [reflexivity|].
  change (String c a +:+ ?x) with (String c (a +:+ x)).
  cbn [avoids cut split]. intros H.
  apply andb_true_iff in H as [Hc Ha].
  apply negb_true_iff in Hc. rewrite Hc, (IH Ha). reflexivity.
Qed.

Lemma split_at_ampersand a rest :
  avoids "&" a = true →
  split "&" (a +:+ String "&" rest) = a :: split "&" rest.
Proof.
  induction a as [|c a IH]; [reflexivity|].
  change (String c a +:+ ?x) with (String c (a +:+ x)).
  cbn [avoids cut split]. intros H.
  apply andb_true_iff in H as [Hc Ha].
  apply negb_true_iff in Hc. rewrite Hc, (IH Ha). reflexivity.
Qed.

Lemma pair_toString_piece p :
  avoids "&" (pair_toString p) = true ∧ pair_toString p ≠ "" ∧
  (let '(name, value) := cut (pair_toString p) in (decode name, decode value)) = p.
Proof.
  destruct p as [n v]. unfold pair_toString. cbn [fst snd].
  destruct (serialize_avoids n) as [Hn Hn'].
  destruct (serialize_avoids v) as [Hv _].
  split; [|split].
  - rewrite !avoids_app, Hn, Hv. reflexivity.
  - destruct (serialize n); discriminate.
  - change (serialize n +:+ "=" +:+ serialize v)
      with (serialize n +:+ String "=" (serialize v)).
    rewrite (cut_at_equals _ _ Hn'), !decode_serialize. reflexivity.
Qed.

(** What the writer serializes the reader parses back, whatever the names
    and the values are. *)
Lemma parse_toString params : parse (toString params) = params.
Proof.
  induction params as [|p [|q rest] IH].
  - reflexivity.
  - destruct (pair_toString_piece p) as (Hamp & Hne & Hcut).
    unfold parse. cbn [toString]. rewrite (split_piece _ Hamp).
    rewrite filter_cons_True by exact Hne. rewrite filter_nil.
    cbn [fmap list_fmap]. rewrite Hcut. reflexivity.
  - destruct (pair_toString_piece p) as (Hamp & Hne & Hcut).
    unfold parse in *.
    change (toString (p :: q :: rest))
      with (pair_toString p +:+ String "&" (toString (q :: rest))).
    rewrite (split_at_ampersand _ _ Hamp).
    rewrite filter_cons_True by exact Hne.
    rewrite fmap_cons, IH, Hcut. reflexivity.
Qed.

(** X1. The approval page recovers what the flow put in the URL: the text
    that follows the base URL in [generateApprovalUrl] is a query string
    from which [parseUrlParams] reads back exactly the proposal id, the
    hash and the vault address, whatever characters they contain, provided
    none of the three is empty. *)
Theorem approval_url_round_trip (f : ApprovalFlow.t)
    (proposalId userOpHash vaultAddress : string) :
  proposalId ≠ "" → userOpHash ≠ "" → vaultAddress ≠ "" →
  ∃ search,
    ApprovalFlow.generateApprovalUrl f proposalId userOpHash vaultAddress
      = ApprovalFlow.approvalUiBaseUrl (ApprovalFlow.config f) +:+ search ∧
    parseUrlParams search =
      Some {| URLSearchParamsReader.proposalId := proposalId;
              URLSearchParamsReader.userOpHash := userOpHash;
              URLSearchParamsReader.vaultAddress := vaultAddress |}.
Proof.
  intros Hid Hhash Hvault.
  exists ("?" +:+ toString [("id", proposalId); ("hash", userOpHash);
                            ("vault", vaultAddress)]).
  split; [reflexivity|].
  unfold parseUrlParams.
  change (of_search ("?" +:+ ?q)) with (parse q).
  rewrite parse_toString. cbn [get List.find String.eqb Ascii.eqb Bool.eqb fst snd fmap option_fmap option_map].
  rewrite !bool_decide_eq_false_2 by assumption. reflexivity.
Qed.

Lemma approval_url_round_trip_witness :
  ("id 1&x=y" : string) ≠ "" ∧ ("0xabc" : string) ≠ "" ∧ ("0x11+%" : string) ≠ "" ∧
  ∃ search,
    ApprovalFlow.generateApprovalUrl ApprovalFlowSpec.pending_flow
      "id 1&x=y" "0xabc" "0x11+%"
      = "https://approve.example/" +:+ search ∧
    search = "?id=id+1%26x%3Dy&hash=0xabc&vault=0x11%2B%25" ∧
    parseUrlParams search =
      Some {| URLSearchParamsReader.proposalId := "id 1&x=y";
              URLSearchParamsReader.userOpHash := "0xabc";
              URLSearchParamsReader.vaultAddress := "0x11+%" |}.
Proof.
  assert (H1 : ("id 1&x=y" : string) ≠ "") by discriminate.
  assert (H2 : ("0xabc" : string) ≠ "") by discriminate.
  assert (H3 : ("0x11+%" : string) ≠ "") by discriminate.
  destruct (approval_url_round_trip ApprovalFlowSpec.pending_flow
              "id 1&x=y" "0xabc" "0x11+%" H1 H2 H3) as (search & Hurl & Hparse).
  split; [exact H1|]. split; [exact H2|]. split; [exact H3|].
  exists search.
  assert (Hs : search = "?id=id+1%26x%3Dy&hash=0xabc&vault=0x11%2B%25").
  { vm_compute in Hurl. injection Hurl as <-. reflexivity. }
  split; [rewrite Hs; reflexivity|]. split; [exact Hs | exact Hparse].
Defined.

End ApprovalUrlFacts.

(** ** More on the rate history *)

Section RateHistoryMoreFacts.
Import RateHistory RateHistorySpec RateHistoryStats.

(** *** Recording and reading back *)

Lemma last_drop_snoc {A} (l : list A) (x : A) (k : nat) :
  (k ≤ length l)%nat → last (drop k (l ++ [x])) = Some x.
Proof.
  intros Hk. rewrite drop_app_le by exact Hk. apply last_snoc.
Qed.

Lemma since_since cutoff l : since cutoff (since cutoff l) = since cutoff l.
Proof.
  unfold since. induction l as [|x l IH]; [reflexivity|].
  rewrite filter_cons. case_decide as Hx; [|exact IH].
  rewrite filter_cons_True by exact Hx. rewrite IH. reflexivity.
Qed.

Lemma since_drop cutoff k l :
  Forall (λ e, cutoff ≤ timestamp e) l → since cutoff (drop k l) = drop k l.
Proof.
  intros Hall. apply (Forall_drop _ k) in Hall.
  unfold since. induction Hall as [|x l' Hx Hl' IH]; [reflexivity|].
  rewrite filter_cons_True by exact Hx. rewrite IH. reflexivity.
Qed.

Lemma getLatestRate_record h now e :
  now - windowMs h ≤ timestamp e →
  getLatestRate (record h now e) (protocolId e) = Some e.
Proof.
  intros Hin. unfold getLatestRate. rewrite record_lookup_same. cbv zeta.
  unfold since. rewrite filter_app, filter_cons_True by exact Hin.
  rewrite filter_nil. apply last_drop_snoc.
  assert (Hmax : (1 ≤ MAX_ENTRIES_PER_PROTOCOL)%nat)
    by (apply Nat.leb_le; vm_compute; reflexivity).
  rewrite length_app. cbn [length]. lia.
Qed.

(** X4. A sample recorded inside the retention window is the latest rate
    of its source, and the source is stale exactly when that sample is
    older than the age allowed; a sample dated before the window is not
    stored at all. *)
Theorem record_then_latest (h : t) (now : Z) (e : RateEntry) :
  (now - windowMs h ≤ timestamp e →
     getLatestRate (record h now e) (protocolId e) = Some e ∧
     ∀ maxAgeMs later,
       isStale (record h now e) (protocolId e) maxAgeMs later
         = bool_decide (maxAgeMs < later - timestamp e)) ∧
  (timestamp e < now - windowMs h →
     ∀ entries, history (record h now e) !! protocolId e = Some entries →
       e ∉ entries).
Proof.
  split.
  - intros Hin.
    pose proof (getLatestRate_record h now e Hin) as Hlatest.
    split; [exact Hlatest|].
    intros maxAgeMs later. unfold isStale. rewrite Hlatest.
    destruct (maxAgeMs <? later - timestamp e) eqn:E.
    + apply Z.ltb_lt in E. rewrite bool_decide_eq_true_2 by exact E. reflexivity.
    + apply Z.ltb_ge in E. rewrite bool_decide_eq_false_2 by lia. reflexivity.
  - intros Hout entries Hentries He.
    rewrite record_lookup_same in Hentries. injection Hentries as <-.
    cbv zeta in He. apply subseteq_drop in He.
    pose proof (since_Forall (now - windowMs h)
                  (default [] (history h !! protocolId e) ++ [e])) as Hall.
    rewrite Forall_forall in Hall. specialize (Hall e He). cbn in Hall. lia.
Qed.

Lemma record_then_latest_witness :
  5000 - windowMs store_with_aave ≤ timestamp compound_at_5000 ∧
  getLatestRate (record store_with_aave 5000 compound_at_5000) "compound"
    = Some compound_at_5000 ∧
  isStale (record store_with_aave 5000 compound_at_5000) "compound" 1000 7000
    = true.
Proof.
  assert (Hin : 5000 - windowMs store_with_aave ≤ timestamp compound_at_5000)
    by (cbn; lia).
  destruct (record_then_latest store_with_aave 5000 compound_at_5000) as [H _].
  destruct (H Hin) as [Hlatest Hstale].
  split; [exact Hin|]. split; [exact Hlatest|].
  exact (Hstale 1000 7000).
Defined.

(** X5. Right after [record], what the store holds for the source of the
    sample is exactly what [getEntries] returns for it at the same
    instant: nothing that was kept is hidden by the read. *)
Theorem getEntries_after_record (h : t) (now : Z) (e : RateEntry) :
  history (record h now e) !! protocolId e
    = Some (getEntries (record h now e) (protocolId e) None now).
Proof.
  unfold getEntries. rewrite record_lookup_same. cbv zeta.
  cbn [default from_option]. unfold Datatypes.id.
  rewrite record_windowMs. f_equal. symmetry.
  apply since_drop, since_Forall.
Qed.

(** X6. Samples never leak across sources: in a store built by the class
    every sample is filed under its own protocol, so [getEntries] and
    [getLatestRate] for a protocol return samples of that protocol only. *)
Theorem samples_filed_by_protocol (w : Z) (h : t) :
  reachable w h →
  filed h ∧
  ∀ id window now,
    Forall (λ e, protocolId e = id) (getEntries h id window now) ∧
    ∀ e, getLatestRate h id = Some e → protocolId e = id.
Proof.
  intros Hreach.
  assert (Hfiled : filed h).
  { induction Hreach as [|h now e Hh IH|h Hh IH]; intros id entries Hentries.
    - cbn in Hentries. rewrite lookup_empty in Hentries. discriminate.
    - destruct (decide (id = protocolId e)) as [->|Hne].
      + rewrite record_lookup_same in Hentries. injection Hentries as <-.
        cbv zeta. apply Forall_drop. unfold since.
        apply Forall_forall. intros x Hx.
        apply list_elem_of_filter in Hx as [_ Hx].
        apply elem_of_app in Hx as [Hx|Hx].
        * destruct (history h !! protocolId e) as [old|] eqn:Hold;
            [|inversion Hx].
          specialize (IH _ _ Hold). rewrite Forall_forall in IH. apply IH, Hx.
        * apply list_elem_of_singleton in Hx. subst x. reflexivity.
      + rewrite record_lookup_other in Hentries by exact Hne. eauto.
    - cbn in Hentries. rewrite lookup_empty in Hentries. discriminate. }
  split; [exact Hfiled|]. intros id window now. split.
  - unfold getEntries, since. apply Forall_forall. intros x Hx.
    apply list_elem_of_filter in Hx as [_ Hx].
    destruct (history h !! id) as [entries|] eqn:Hentries; [|inversion Hx].
    specialize (Hfiled _ _ Hentries). rewrite Forall_forall in Hfiled.
    apply Hfiled, Hx.
  - intros e He. unfold getLatestRate in He.
    destruct (history h !! id) as [entries|] eqn:Hentries; [|discriminate].
    specialize (Hfiled _ _ Hentries). rewrite Forall_forall in Hfiled.
    apply Hfiled, last_Some_elem_of, He.
Qed.

Lemma samples_filed_by_protocol_witness :
  reachable 1000 store_with_aave ∧
  ∀ e, getLatestRate store_with_aave "aave" = Some e → protocolId e = "aave".
Proof.
  assert (Hreach : reachable 1000 store_with_aave)
    by exact (reach_record 1000 _ 0 aave_at_0 (reach_create 1000)).
  split; [exact Hreach|].
  destruct (samples_filed_by_protocol 1000 store_with_aave Hreach) as [_ H].
  exact (proj2 (H "aave" None 0)).
Defined.

(** *** Statistics *)

Lemma Math_min_least rest : ∀ first,
  let m := Math_min first rest in
  m ≤ first ∧ (∀ y, y ∈ rest → m ≤ y) ∧ (m = first ∨ m ∈ rest).
Proof.
  unfold Math_min. induction rest as [|x rest IH]; intros first; cbn [foldl].
  - split; [lia|]. split; [intros y Hy; inversion Hy | left; reflexivity].
  - destruct (IH (Z.min first x)) as (Hle & Hall & Hin). split; [lia|]. split.
    + intros y Hy. apply elem_of_cons in Hy as [->|Hy]; [lia | auto].
    + destruct Hin as [Hin|Hin]; [|right; right; exact Hin].
      destruct (Z.min_spec first x) as [[_ Hm]|[_ Hm]].
      * left. rewrite Hin. exact Hm.
      * right. rewrite Hin, Hm. left.
Qed.

(** X7. [getStats] has an entry exactly for the protocols with a stored
    sample; its count is the number of stored samples, never above 1000,
    and its age is that of the oldest timestamp among them: no stored
    sample is older, and one is exactly that old. *)
Theorem getStats_entry (w : Z) (h : t) (now : Z) (id : string) :
  reachable w h →
  match history h !! id with
  | None | Some [] => getStats h now !! id = None
  | Some entries =>
      ∃ st, getStats h now !! id = Some st ∧
            count st = length entries ∧
            (count st ≤ MAX_ENTRIES_PER_PROTOCOL)%nat ∧
            (∀ e, e ∈ entries → now - timestamp e ≤ oldestMs st) ∧
            (∃ e, e ∈ entries ∧ oldestMs st = now - timestamp e)
  end.
Proof.
  intros Hreach. unfold getStats. rewrite lookup_omap.
  destruct (history h !! id) as [[|e rest]|] eqn:Hentries; [reflexivity| |reflexivity].
  cbn [mbind option_bind stat_of].
  eexists. split; [reflexivity|]. cbn [count oldestMs].
  split; [reflexivity|].
  split; [exact (reachable_capped w h Hreach id _ Hentries)|].
  destruct (Math_min_least (timestamp <$> rest) (timestamp e))
    as (Hle & Hall & Hin).
  split.
  - intros x Hx. apply elem_of_cons in Hx as [->|Hx]; [lia|].
    specialize (Hall (timestamp x) (list_elem_of_fmap_2 _ _ _ Hx)). lia.
  - destruct Hin as [Hin|Hin].
    + exists e. split; [left | rewrite Hin; reflexivity].
    + apply list_elem_of_fmap in Hin as (x & Hx & Hxin).
      exists x. split; [right; exact Hxin | rewrite Hx; reflexivity].
Qed.

Lemma getStats_entry_witness :
  reachable DEFAULT_HISTORY_WINDOW_MS two_samples ∧
  ∃ st, getStats two_samples 1000005 !! "aave" = Some st ∧
        count st = 2%nat ∧ oldestMs st = 30005.
Proof.
  assert (Hreach : reachable DEFAULT_HISTORY_WINDOW_MS two_samples).
  { apply reach_record, reach_record, reach_create. }
  split; [exact Hreach|].
  pose proof (getStats_entry _ two_samples 1000005 "aave" Hreach) as H.
  destruct (history two_samples !! "aave") as [[|e rest]|] eqn:Hentries;
    [vm_compute in Hentries; discriminate| |vm_compute in Hentries; discriminate].
  destruct H as (st & Hst & Hcount & _ & _ & _).
  exists st. split; [exact Hst|].
  vm_compute in Hst. injection Hst as <-. split; reflexivity.
Defined.

End RateHistoryMoreFacts.

(** ** More on the yield monitor *)

Section YieldMonitorMoreFacts.
Import YieldMonitor YieldMonitorSpec SourceAggregatorSpec YieldMonitorProposal.

(** X8. A failed read alone never makes [getSnapshots] throw: it returns
    exactly when no source has to be served from the history with a
    rejection reason that the error log cannot serialize. When it
    returns, it gives one snapshot per protocol, in the order of the
    protocols, and (the ids of the protocols being distinct) each is
    served from the on-chain read when it succeeds, else from the
    DeFiLlama rate with the balance of the second read or zero, else from
    the last rate the history held before the cycle (or 0) with balance
    zero. *)
Theorem getSnapshots_one_per_protocol (m : t) (reads : Reads) (now : Z) :
  ((∃ snaps ds, (getSnapshots m reads now).1 = Return (snaps, ds)) ↔
   Forall (λ p, ¬ unloggable reads (usable_rates m reads) p) (protocols m)) ∧
  (∀ snaps ds,
     (getSnapshots m reads now).1 = Return (snaps, ds) →
     protocolId <$> snaps = id <$> protocols m ∧
     (NoDup (id <$> protocols m) →
      Forall2 (served reads (usable_rates m reads) (rateHistory m) now)
        (protocols m) snaps)).
Proof.
  split.
  - rewrite (cycle_loop_inl reads (usable_rates m reads) now (protocols m)
               (cycle_start m)).
    rewrite getSnapshots_loop.
    destruct (cycle_loop _ _ _ _ _) as [c|c]; cbn [fst]; split.
    + intros _. eauto.
    + intros _. eauto.
    + intros (snaps & ds & H). discriminate.
    + intros (c' & H). discriminate.
  - intros snaps ds Hret.
    destruct (getSnapshots m reads now) as [out m1] eqn:Hget.
    cbn [fst] in Hret. subst out. split.
    + eapply getSnapshots_ids, Hget.
    + eapply getSnapshots_serves, Hget.
Qed.

Lemma getSnapshots_one_per_protocol_witness :
  NoDup (id <$> protocols fresh_monitor) ∧
  ∃ snaps ds,
    (getSnapshots fresh_monitor failing_reads 1000).1 = Return (snaps, ds) ∧
    protocolId <$> snaps = ["aave"; "compound"; "morpho"; "moonwell"] ∧
    Forall2 (served failing_reads (usable_rates fresh_monitor failing_reads)
               (rateHistory fresh_monitor) 1000)
      (protocols fresh_monitor) snaps.
Proof.
  assert (Hnodup : NoDup (id <$> protocols fresh_monitor)).
  { apply (bool_decide_unpack _). vm_compute. reflexivity. }
  assert (Hret : ∃ snaps ds,
            (getSnapshots fresh_monitor failing_reads 1000).1
              = Return (snaps, ds)).
  { eexists _, _. vm_compute. reflexivity. }
  destruct Hret as (snaps & ds & Hret).
  destruct (getSnapshots_one_per_protocol fresh_monitor failing_reads 1000)
    as [_ Hserved].
  destruct (Hserved snaps ds Hret) as [Hids Hall].
  split; [exact Hnodup|]. exists snaps, ds. split; [exact Hret|].
  split; [rewrite Hids; reflexivity | exact (Hall Hnodup)].
Defined.

(** X9. The data source [getSnapshots] reports: "mixed" exactly when some
    source was served on-chain and some by DeFiLlama; "defillama" exactly
    when some source was served by DeFiLlama and none on-chain; "onchain"
    exactly when no source was served by DeFiLlama, sources served from
    the history counting for neither. *)
Theorem getSnapshots_dataSource_iff (m : t) (reads : Reads) (now : Z)
    (snaps : list ProtocolSnapshot) (dataSource : DataSource) :
  (getSnapshots m reads now).1 = Return (snaps, dataSource) →
  let origins := origin_of reads (usable_rates m reads) <$> protocols m in
  (dataSource = mixed ↔ from_onchain ∈ origins ∧ from_defillama ∈ origins) ∧
  (dataSource = defillama ↔ (from_onchain ∉ origins) ∧ from_defillama ∈ origins) ∧
  (dataSource = onchain ↔ from_defillama ∉ origins).
Proof.
  intros Hret origins.
  destruct (getSnapshots m reads now) as [out m1] eqn:Hget.
  cbn [fst] in Hret. subst out.
  rewrite (getSnapshots_dataSource m reads now snaps dataSource m1 Hget).
  fold origins.
  destruct (decide (from_defillama ∉ origins)) as [Hd|Hd];
    [|destruct (decide (from_onchain ∉ origins)) as [Ho|Ho]].
  - repeat split; try discriminate; try tauto.
  - apply dec_stable in Hd. repeat split; try discriminate; try tauto.
  - apply dec_stable in Hd. apply dec_stable in Ho.
    repeat split; try discriminate; try tauto.
Qed.

Lemma getSnapshots_dataSource_iff_witness :
  ∃ snaps dataSource,
    (getSnapshots fresh_monitor example_reads 1000).1
      = Return (snaps, dataSource) ∧
    (dataSource = onchain ↔
     from_defillama ∉ origin_of example_reads
                        (usable_rates fresh_monitor example_reads)
                        <$> protocols fresh_monitor).
Proof.
  assert (Hret : ∃ snaps ds,
            (getSnapshots fresh_monitor example_reads 1000).1
              = Return (snaps, ds)).
  { eexists _, _. vm_compute. reflexivity. }
  destruct Hret as (snaps & ds & Hret). exists snaps, ds.
  split; [exact Hret|].
  exact (proj2 (proj2 (getSnapshots_dataSource_iff fresh_monitor example_reads
                         1000 snaps ds Hret))).
Defined.

(** *** What a cycle records *)

(** The sample an iteration records for a protocol, if any. *)
Lemma cycle_step_records reads rates now c c' p :
  cycle_step reads rates now c p = Some c' →
  0 ≤ RateHistory.windowMs (hist c) →
  match origin_of reads rates p with
  | from_onchain =>
      ∃ apy bal, onchainRead reads (id p) = fulfilled apy bal ∧
        RateHistory.getLatestRate (hist c') (id p) =
        Some {| RateHistory.protocolId := id p; RateHistory.apy := apy;
                RateHistory.timestamp := now;
                RateHistory.source := RateHistory.onchain |}
  | from_defillama =>
      ∃ apy, rates ≫= (λ r, r !! id p) = Some apy ∧
        RateHistory.getLatestRate (hist c') (id p) =
        Some {| RateHistory.protocolId := id p; RateHistory.apy := apy;
                RateHistory.timestamp := now;
                RateHistory.source := RateHistory.defillama |}
  | from_history => hist c' = hist c
  end.
Proof.
  intros Hstep Hw. revert Hstep. unfold cycle_step, origin_of.
  destruct (onchainRead reads (id p)) as [apy bal|[|]];
    [|destruct (rates ≫= _) as [apy|]..]; intros [= <-]; cbn [hist];
    try reflexivity.
  - exists apy, bal. split; [reflexivity|].
    match goal with
    | |- RateHistory.getLatestRate (RateHistory.record _ _ ?e) _ = _ =>
        apply (getLatestRate_record (hist c) now e); cbn; lia
    end.
  - exists apy. split; [reflexivity|].
    match goal with
    | |- RateHistory.getLatestRate (RateHistory.record _ _ ?e) _ = _ =>
        apply (getLatestRate_record (hist c) now e); cbn; lia
    end.
  - exists apy. split; [reflexivity|].
    match goal with
    | |- RateHistory.getLatestRate (RateHistory.record _ _ ?e) _ = _ =>
        apply (getLatestRate_record (hist c) now e); cbn; lia
    end.
Qed.

Lemma getLatestRate_same_history h h' i :
  RateHistory.history h !! i = RateHistory.history h' !! i →
  RateHistory.getLatestRate h i = RateHistory.getLatestRate h' i.
Proof. intros H. unfold RateHistory.getLatestRate. rewrite H. reflexivity. Qed.

Lemma cycle_records reads rates now ps : ∀ c c',
  cycle_loop reads rates now c ps = inl c' →
  NoDup (id <$> ps) → 0 ≤ RateHistory.windowMs (hist c) →
  ∀ p, p ∈ ps → recorded reads rates now (hist c) (hist c') p.
Proof.
  induction ps as [|q ps IH]; intros c c'; cbn [cycle_loop].
  - intros _ _ _ p Hp. inversion Hp.
  - destruct (cycle_step reads rates now c q) as [c1|] eqn:Hstep; [|discriminate].
    intros Hloop Hnodup Hw p Hp.
    rewrite fmap_cons in Hnodup. apply NoDup_cons in Hnodup as [Hq Hnodup].
    apply elem_of_cons in Hp as [->|Hp].
    + pose proof (cycle_step_records reads rates now c c1 q Hstep Hw) as Hrec.
      pose proof (cycle_history reads rates now ps c1 c' (id q) Hloop Hq) as Hkeep.
      unfold recorded. destruct (origin_of reads rates q).
      * destruct Hrec as (apy & bal & Hread & Hlatest). exists apy, bal.
        split; [exact Hread|].
        rewrite (getLatestRate_same_history _ _ _ Hkeep). exact Hlatest.
      * destruct Hrec as (apy & Hrate & Hlatest). exists apy.
        split; [exact Hrate|].
        rewrite (getLatestRate_same_history _ _ _ Hkeep). exact Hlatest.
      * rewrite Hkeep, Hrec. reflexivity.
    + assert (Hne : id p ≠ id q).
      { intros Heq. apply Hq. rewrite <- Heq. apply list_elem_of_fmap_2, Hp. }
      assert (Hw1 : 0 ≤ RateHistory.windowMs (hist c1))
        by (rewrite (cycle_step_windowMs _ _ _ _ _ _ Hstep); exact Hw).
      pose proof (IH c1 c' Hloop Hnodup Hw1 p Hp) as Hrec.
      unfold recorded in Hrec |- *.
      destruct (origin_of reads rates p); [exact Hrec | exact Hrec |].
      rewrite Hrec. eapply cycle_step_history; eassumption.
Qed.

(** X10. Every rate a cycle obtains is recorded, and nothing else is. Let
    the sources the cycle got through be all of them when [getSnapshots]
    returns, and those before the one whose error log threw when it
    throws. In the history [getSnapshots] leaves behind, the latest
    sample of such a source served on-chain or by DeFiLlama is the rate
    obtained, stamped with the time and the origin of the read; the
    history of such a source served from its last known rate, and of
    every other name, is left as it was. *)
Theorem getSnapshots_records (m : t) (reads : Reads) (now : Z) :
  NoDup (id <$> protocols m) →
  0 ≤ RateHistory.windowMs (rateHistory m) →
  let outcome := getSnapshots m reads now in
  let rates := usable_rates m reads in
  ∃ processed,
    match outcome.1 with
    | Return _ => processed = protocols m
    | Throw _ =>
        ∃ p rest, protocols m = processed ++ p :: rest ∧
                  unloggable reads rates p
    end ∧
    (∀ p, p ∈ processed →
       recorded reads rates now (rateHistory m) (rateHistory outcome.2) p) ∧
    (∀ i, i ∉ id <$> processed →
       RateHistory.history (rateHistory outcome.2) !! i =
       RateHistory.history (rateHistory m) !! i).
Proof.
  intros Hnodup Hw outcome rates. unfold outcome. rewrite getSnapshots_loop.
  fold rates.
  destruct (cycle_loop reads rates now (cycle_start m) (protocols m))
    as [c|c] eqn:Hloop; cbn [fst snd rateHistory set_rateHistory].
  - exists (protocols m). split; [reflexivity|]. split.
    + exact (cycle_records reads rates now (protocols m) (cycle_start m) c
               Hloop Hnodup Hw).
    + intros i Hi.
      exact (cycle_history reads rates now (protocols m) (cycle_start m) c i
               Hloop Hi).
  - destruct (cycle_loop_inr _ _ _ _ _ _ Hloop)
      as (processed & p & rest & Hps & Hp & Hprocessed).
    exists processed. split; [exists p, rest; auto|].
    rewrite Hps, fmap_app in Hnodup. apply NoDup_app in Hnodup as (Hnd & _ & _).
    split.
    + exact (cycle_records reads rates now processed (cycle_start m) c
               Hprocessed Hnd Hw).
    + intros i Hi.
      exact (cycle_history reads rates now processed (cycle_start m) c i
               Hprocessed Hi).
Qed.

Lemma getSnapshots_records_witness :
  NoDup (id <$> protocols fresh_monitor) ∧
  0 ≤ RateHistory.windowMs (rateHistory fresh_monitor) ∧
  (getSnapshots fresh_monitor unloggable_reads 1000).1 = Throw cannot_serialize ∧
  ∃ processed p rest,
    protocols fresh_monitor = processed ++ p :: rest ∧
    unloggable unloggable_reads
      (usable_rates fresh_monitor unloggable_reads) p ∧
    ∀ q, q ∈ processed →
      recorded unloggable_reads (usable_rates fresh_monitor unloggable_reads)
        1000 (rateHistory fresh_monitor)
        (rateHistory (getSnapshots fresh_monitor unloggable_reads 1000).2) q.
Proof.
  assert (Hnodup : NoDup (id <$> protocols fresh_monitor)).
  { apply (bool_decide_unpack _). vm_compute. reflexivity. }
  assert (Hw : 0 ≤ RateHistory.windowMs (rateHistory fresh_monitor))
    by (vm_compute; discriminate).
  assert (Hthrow : (getSnapshots fresh_monitor unloggable_reads 1000).1
                   = Throw cannot_serialize) by (vm_compute; reflexivity).
  destruct (getSnapshots_records fresh_monitor unloggable_reads 1000 Hnodup Hw)
    as (processed & Hsplit & Hrec & _).
  split; [exact Hnodup|]. split; [exact Hw|]. split; [exact Hthrow|].
  rewrite Hthrow in Hsplit. destruct Hsplit as (p & rest & Hps & Hp).
  exists processed, p, rest. split; [exact Hps|]. split; [exact Hp | exact Hrec].
Defined.

(** *** What a comparison recommends *)

Lemma compareSnapshots_Some cfg h now snaps ds r :
  compareSnapshots cfg h now snaps ds = Some r →
  dataSource r = ds ∧
  snapshots r = (if useTWAP cfg then effective cfg h now <$> snaps else snaps) ∧
  best_and_current r ∧ decision_rules r.
Proof.
  intros Hr. destruct (decide (snaps = [])) as [->|Hne].
  - unfold compareSnapshots in Hr. destruct (useTWAP cfg); discriminate.
  - destruct (compareSnapshots_rules cfg h now snaps ds Hne)
      as (r' & Hr' & Hds & Hsn & Hbc & Hrules & _).
    rewrite Hr in Hr'. injection Hr' as <-. auto.
Qed.

Lemma rules_safe r :
  best_and_current r → decision_rules r →
  shouldRebalance r = true →
  ∃ current, currentProtocol r = Some current ∧
    current ∈ snapshots r ∧ 0 < balance current ∧
    protocolId current ≠ protocolId (bestProtocol r) ∧
    (apyDifferentialBps r <? 50)%float = false ∧
    anomalies r !! protocolId (bestProtocol r) = None ∧
    rejectReason r = None.
Proof.
  intros (_ & _ & Hnone & Hsome & _) [Hfunds Hrules] Hgo.
  destruct (currentProtocol r) as [current|] eqn:Hcur.
  - destruct (Hsome current eq_refl) as (Hpos & before & after & Hsplit & _).
    assert (Hin : current ∈ snapshots r).
    { rewrite Hsplit. apply elem_of_app. right. left. }
    specialize (Hrules current eq_refl). cbv zeta in Hrules.
    destruct Hrules as (Hsame & Hbelow & Hflag & Hok).
    destruct (decide (protocolId current = protocolId (bestProtocol r)))
      as [Heq|Hne]; [destruct (Hsame Heq); congruence|].
    destruct (apyDifferentialBps r <? 50)%float eqn:Hbps;
      [destruct (Hbelow Hne eq_refl); congruence|].
    destruct (anomalies r !! protocolId (bestProtocol r)) as [a|] eqn:Ha.
    + destruct (Hflag Hne); [discriminate | eauto | congruence].
    + destruct (Hok Hne) as [_ Hreason];
        [discriminate | intros [? H]; discriminate|].
      exists current. repeat split; assumption.
  - destruct (Hfunds (proj1 Hnone eq_refl)). congruence.
Qed.

Lemma compareYields_Return m reads now r :
  (compareYields m reads now).1 = Return r →
  ∃ snaps ds m1,
    getSnapshots m reads now = (Return (snaps, ds), m1) ∧
    compareSnapshots (config m) (rateHistory m1) now snaps ds = Some r ∧
    (compareYields m reads now).2 =
      {| protocols := protocols m; config := config m;
         rateHistory := rateHistory m1; lastComparison := Some r |}.
Proof.
  destruct (getSnapshots m reads now) as [[[snaps ds]|e] m1] eqn:Hget.
  - rewrite (compareYields_after_snapshots m reads now snaps ds m1 Hget).
    destruct (compareSnapshots _ _ _ _ _) as [r'|] eqn:Hr; [|discriminate].
    intros [= ->]. exists snaps, ds, m1. auto.
  - unfold compareYields. rewrite Hget. discriminate.
Qed.

(** X11. [compareYields] never recommends a move it has a reason to
    reject: when the comparison it returns says to rebalance, some
    snapshot compared holds a positive balance and is the current source,
    the best source is a different one, the differential is not below
    the minimum of 50 basis points (it is 50 or more, when it is a
    number), the best source carries no anomaly flag; and a comparison
    has a rejection reason exactly when it does not say to rebalance. *)
Theorem compareYields_recommends_safely (m : t) (reads : Reads) (now : Z)
    (r : ProtectedYieldComparison) :
  (compareYields m reads now).1 = Return r →
  (shouldRebalance r = true →
   ∃ current, currentProtocol r = Some current ∧
     current ∈ snapshots r ∧ 0 < balance current ∧
     protocolId current ≠ protocolId (bestProtocol r) ∧
     (apyDifferentialBps r <? 50)%float = false ∧
     (is_nan (apyDifferentialBps r) = false →
      (50 <=? apyDifferentialBps r)%float = true) ∧
     anomalies r !! protocolId (bestProtocol r) = None) ∧
  (shouldRebalance r = true ↔ rejectReason r = None).
Proof.
  intros Hr. apply compareYields_Return in Hr as (snaps & ds & m1 & _ & Hr & _).
  apply compareSnapshots_Some in Hr as (_ & _ & Hbc & Hrules).
  split.
  - intros Hgo.
    destruct (rules_safe r Hbc Hrules Hgo)
      as (current & Hcur & Hin & Hpos & Hne & Hbps & Hflag & _).
    exists current. repeat split; try assumption.
    intros Hnan. apply float_not_ltb_leb; [exact Hnan | reflexivity | exact Hbps].
  - split.
    + intros Hgo.
      destruct (rules_safe r Hbc Hrules Hgo) as (? & ? & ? & ? & ? & ? & ? & H).
      exact H.
    + intros Hnone. destruct Hbc as (_ & _ & Hcn & _ & _).
      destruct Hrules as [Hfunds Hrules].
      destruct (currentProtocol r) as [current|] eqn:Hcur.
      * specialize (Hrules current eq_refl). cbv zeta in Hrules.
        destruct Hrules as (Hsame & Hbelow & Hflag & Hok).
        destruct (decide (protocolId current = protocolId (bestProtocol r)))
          as [Heq|Hne]; [destruct (Hsame Heq); congruence|].
        destruct (apyDifferentialBps r <? 50)%float
          eqn:Hbps; [destruct (Hbelow Hne eq_refl); congruence|].
        destruct (decide (is_Some (anomalies r !! protocolId (bestProtocol r))))
          as [Hfl|Hnfl];
          [destruct (Hflag Hne ltac:(discriminate) Hfl); congruence|].
        destruct (Hok Hne ltac:(discriminate) Hnfl). assumption.
      * destruct (Hfunds (proj1 Hcn eq_refl)). congruence.
Qed.

Lemma compareYields_recommends_safely_witness :
  ∃ r, (compareYields fresh_monitor example_reads 1000).1 = Return r ∧
       shouldRebalance r = true ∧
       (apyDifferentialBps r <? 50)%float = false ∧ rejectReason r = None.
Proof.
  assert (H : ∃ r, (compareYields fresh_monitor example_reads 1000).1 = Return r
                   ∧ shouldRebalance r = true).
  { eexists. split; vm_compute; reflexivity. }
  destruct H as (r & Hr & Hgo). exists r.
  destruct (compareYields_recommends_safely
              fresh_monitor example_reads 1000 r Hr) as [Hsafe Hiff].
  destruct (Hsafe Hgo) as (current & _ & _ & _ & _ & Hbps & _).
  split; [exact Hr|]. split; [exact Hgo|]. split; [exact Hbps|].
  apply Hiff, Hgo.
Defined.

(** *** From a comparison to a proposal *)

Lemma getProtocol_Some m i :
  i ∈ id <$> protocols m →
  ∃ p, getProtocol m i = Some p ∧ id p = i.
Proof.
  unfold getProtocol. induction (protocols m) as [|q ps IH]; intros Hi.
  - inversion Hi.
  - cbn [List.find]. destruct (bool_decide (id q = i)) eqn:Hq.
    + apply bool_decide_eq_true in Hq. eauto.
    + apply bool_decide_eq_false in Hq.
      rewrite fmap_cons in Hi. apply elem_of_cons in Hi as [Hi|Hi];
        [congruence | auto].
Qed.

Lemma effective_protocolId cfg h now s :
  protocolId (effective cfg h now s) = protocolId s.
Proof. unfold effective. destruct (usable_twap cfg h now s); reflexivity. Qed.

Lemma compared_ids m reads now r :
  (compareYields m reads now).1 = Return r →
  protocolId <$> snapshots r = id <$> protocols m.
Proof.
  intros Hr. apply compareYields_Return in Hr as (snaps & ds & m1 & Hget & Hr & _).
  apply compareSnapshots_Some in Hr as (_ & Hsn & _).
  rewrite Hsn. pose proof (getSnapshots_ids m reads now snaps ds m1 Hget) as Hids.
  destruct (useTWAP (config m)); [|exact Hids].
  rewrite <- Hids, <- list_fmap_compose. apply list_fmap_ext.
  intros ? s _. apply effective_protocolId.
Qed.

(** X12. [compareYields] and [createRebalanceProposal] together: the
    comparison returned is the one [getLastComparison] gives afterwards,
    and from it and the monitor a proposal is made exactly when the
    comparison says to rebalance. The proposal then moves the whole,
    positive balance of the current source to the best source, a
    different one, for an expected gain that is not below 50 basis points
    (50 or more, when it is a number), the withdrawal encoded by the
    protocol it leaves and the deposit by the protocol it enters. *)
Theorem createRebalanceProposal_after_compareYields (enc : Encoders) (m : t)
    (reads : Reads) (now : Z) (vault : string) (r : ProtectedYieldComparison) :
  (compareYields m reads now).1 = Return r →
  let m' := (compareYields m reads now).2 in
  getLastComparison m' = Some r ∧
  match createRebalanceProposal enc m' r vault with
  | None => shouldRebalance r = false
  | Some p =>
      shouldRebalance r = true ∧
      ∃ current, currentProtocol r = Some current ∧
        fromProtocol p = protocolId current ∧
        toProtocol p = protocolId (bestProtocol r) ∧
        fromProtocol p ≠ toProtocol p ∧
        amount p = balance current ∧ 0 < amount p ∧
        expectedApyGainBps p = apyDifferentialBps r ∧
        (expectedApyGainBps p <? 50)%float = false ∧
        (is_nan (expectedApyGainBps p) = false →
         (50 <=? expectedApyGainBps p)%float = true) ∧
        withdrawCalldata p =
          encodeWithdraw enc (fromProtocol p) (amount p) vault ∧
        depositCalldata p =
          encodeDeposit enc (toProtocol p) (amount p) vault
  end.
Proof.
  intros Hr m'.
  pose proof (compared_ids m reads now r Hr) as Hids.
  destruct (compareYields_Return m reads now r Hr)
    as (snaps & ds & m1 & _ & Hcmp & Hm').
  apply compareSnapshots_Some in Hcmp as (_ & _ & Hbc & Hrules).
  assert (Hps : protocols m' = protocols m) by (unfold m'; rewrite Hm'; reflexivity).
  split; [unfold m'; rewrite Hm'; reflexivity|].
  unfold createRebalanceProposal.
  destruct (shouldRebalance r) eqn:Hgo; cbn [negb]; [|reflexivity].
  destruct (rules_safe r Hbc Hrules Hgo)
    as (current & Hcur & Hin & Hpos & Hne & Hbps & _).
  rewrite Hcur.
  assert (Hfrom : protocolId current ∈ id <$> protocols m').
  { rewrite Hps, <- Hids. apply list_elem_of_fmap_2, Hin. }
  assert (Hto : protocolId (bestProtocol r) ∈ id <$> protocols m').
  { rewrite Hps, <- Hids. apply list_elem_of_fmap_2.
    destruct Hbc as [Hbest _]. exact Hbest. }
  destruct (getProtocol_Some m' _ Hfrom) as (pf & -> & Hpf).
  destruct (getProtocol_Some m' _ Hto) as (pt & -> & Hpt).
  split; [reflexivity|]. exists current. cbn.
  rewrite Hpf, Hpt. repeat split; try assumption; try reflexivity.
  intros Hnan. apply float_not_ltb_leb; [exact Hnan | reflexivity | exact Hbps].
Qed.

Lemma createRebalanceProposal_after_compareYields_witness :
  ∃ r p, (compareYields fresh_monitor example_reads 1000).1 = Return r ∧
    createRebalanceProposal example_encoders
      (compareYields fresh_monitor example_reads 1000).2 r "0xvault" = Some p ∧
    fromProtocol p ≠ toProtocol p ∧ 0 < amount p ∧
    (expectedApyGainBps p <? 50)%float = false.
Proof.
  assert (H : ∃ r, (compareYields fresh_monitor example_reads 1000).1 = Return r).
  { eexists. vm_compute. reflexivity. }
  destruct H as (r & Hr). exists r.
  destruct (createRebalanceProposal_after_compareYields example_encoders
              fresh_monitor example_reads 1000 "0xvault" r Hr) as [_ Hp].
  destruct (createRebalanceProposal example_encoders
              (compareYields fresh_monitor example_reads 1000).2 r "0xvault")
    as [p|] eqn:Hprop.
  - exists p.
    destruct Hp as (_ & current & _ & _ & _ & Hne & _ & Hpos & _ & Hbps & _).
    auto.
  - exfalso. revert Hp.
    assert (Hgo : ∃ r', (compareYields fresh_monitor example_reads 1000).1 = Return r'
                        ∧ shouldRebalance r' = true).
    { eexists. split; vm_compute; reflexivity. }
    destruct Hgo as (r' & Hr' & Hgo). rewrite Hr in Hr'. injection Hr' as <-.
    congruence.
Defined.

End YieldMonitorMoreFacts.

(** ** More on the approval flow *)

Section ApprovalFlowMoreFacts.
Import ApprovalFlow ApprovalFlowSpec ApprovalFlowExecution.

(** X13. [processApproval] releases a signed operation only for a request
    that is pending under the id of the response and has not expired, on
    an approving response that carries a passkey assertion; the operation
    released is the one stored with the request, signed by the wallet
    manager with that assertion, never one taken from the response. *)
Theorem processApproval_releases (f : t) (now : Z) (response : ApprovalResponse)
    (op : PackedUserOperation) :
  (processApproval f now response).1 = Return op ↔
  ∃ request auth,
    pendingApprovals f !! responseProposalId response = Some request ∧
    now ≤ expiresAt request ∧
    approved response = true ∧
    webAuthnAuth response = Some auth ∧
    attachPasskeySignature (walletManager f) (userOp request) auth = Some op.
Proof.
  unfold processApproval. cbv zeta.
  destruct (pendingApprovals f !! responseProposalId response)
    as [request|] eqn:Hp.
  2: { split; [discriminate | intros (? & ? & ? & _); discriminate]. }
  destruct (expiresAt request <? now) eqn:He.
  { apply Z.ltb_lt in He. split; [discriminate|].
    intros (r' & a & [= <-] & Hle & _). lia. }
  apply Z.ltb_ge in He.
  destruct (approved response) eqn:Ha; cbn [negb].
  2: { split; [discriminate|]. intros (? & ? & _ & _ & ? & _). discriminate. }
  destruct (webAuthnAuth response) as [auth|] eqn:Hw.
  2: { split; [discriminate|]. intros (? & ? & _ & _ & _ & ? & _). discriminate. }
  destruct (attachPasskeySignature _ _ _) as [signed|] eqn:Hs; cbn [fst].
  - split.
    + intros [= <-]. exists request, auth. auto.
    + intros (r' & a & [= <-] & _ & _ & [= <-] & Hs'). congruence.
  - split; [discriminate|].
    intros (r' & a & [= <-] & _ & _ & [= <-] & Hs'). congruence.
Qed.

(** *** The pending requests under further calls *)

Lemma cleanup_fold now l : ∀ f,
  NoDup l.*1 →
  ∀ k,
    pendingApprovals (foldl (cleanup_step now) f l) !! k =
      match (list_to_map l : gmap string ApprovalRequest) !! k with
      | Some request =>
          if expired now request then None else pendingApprovals f !! k
      | None => pendingApprovals f !! k
      end ∧
    proposals (foldl (cleanup_step now) f l) !! k =
      match (list_to_map l : gmap string ApprovalRequest) !! k with
      | Some request =>
          if expired now request
          then with_status EXPIRED <$> proposals f !! k
          else proposals f !! k
      | None => proposals f !! k
      end.
Proof.
  induction l as [|[pid request] l IH]; intros f Hnodup k; cbn [foldl].
  - rewrite list_to_map_nil, lookup_empty. auto.
  - rewrite fmap_cons in Hnodup. apply NoDup_cons in Hnodup as [Hpid Hnodup].
    cbn [fst] in Hpid.
    destruct (IH (cleanup_step now f (pid, request)) Hnodup k) as [-> ->].
    rewrite list_to_map_cons.
    destruct (decide (pid = k)) as [<-|Hne].
    + rewrite lookup_insert_eq.
      rewrite (not_elem_of_list_to_map_1 l pid Hpid).
      unfold cleanup_step, expired.
      destruct (expiresAt request <? now); [|auto]. cbn.
      rewrite lookup_delete_eq, lookup_alter_eq. auto.
    + rewrite lookup_insert_ne by exact Hne.
      assert (Hsame :
        pendingApprovals (cleanup_step now f (pid, request)) !! k =
          pendingApprovals f !! k ∧
        proposals (cleanup_step now f (pid, request)) !! k = proposals f !! k).
      { unfold cleanup_step. destruct (expiresAt request <? now); [|auto]. cbn.
        rewrite lookup_delete_ne, lookup_alter_ne by exact Hne. auto. }
      destruct Hsame as [-> ->]. auto.
Qed.

Lemma cleanupExpired_lookup f now k :
  pendingApprovals (cleanupExpired f now) !! k =
    match pendingApprovals f !! k with
    | Some request => if expired now request then None else Some request
    | None => None
    end ∧
  proposals (cleanupExpired f now) !! k =
    match pendingApprovals f !! k with
    | Some request =>
        if expired now request
        then with_status EXPIRED <$> proposals f !! k
        else proposals f !! k
    | None => proposals f !! k
    end.
Proof.
  unfold cleanupExpired.
  destruct (cleanup_fold now (map_to_list (pendingApprovals f)) f
              (NoDup_fst_map_to_list _) k) as [-> ->].
  rewrite list_to_map_to_list.
  destruct (pendingApprovals f !! k) as [request|]; auto.
Qed.

Lemma executeApprovedUserOp_pending f now proposalId signedUserOp bundler :
  pendingApprovals (executeApprovedUserOp f now proposalId signedUserOp bundler).2
  = pendingApprovals f.
Proof.
  unfold executeApprovedUserOp.
  destruct (submitUserOp bundler); [|reflexivity].
  destruct (waitForUserOp bundler) as [[txHash success]|]; reflexivity.
Qed.

Lemma run_call_no_pending f c proposalId :
  pendingApprovals f !! proposalId = None →
  requests_no proposalId c →
  pendingApprovals (run_call f c) !! proposalId = None.
Proof.
  intros Hnone Hc.
  destruct c as [now fresh params|now proposal vault op|now response|now pid
                |now pid op bundler|now|pid st]; cbn [run_call].
  - exact Hnone.
  - rewrite requestApproval_pending; [exact Hnone|]. cbn in Hc. congruence.
  - destruct (processApproval_pending f now response) as [-> | ->];
      [exact Hnone|].
    apply lookup_delete_None. right. exact Hnone.
  - rewrite rejectProposal_pending. apply lookup_delete_None. right. exact Hnone.
  - rewrite executeApprovedUserOp_pending. exact Hnone.
  - destruct (cleanupExpired_lookup f now proposalId) as [-> _].
    rewrite Hnone. reflexivity.
  - exact Hnone.
Qed.

Lemma calls_no_pending proposalId calls : ∀ f,
  pendingApprovals f !! proposalId = None →
  Forall (requests_no proposalId) calls →
  pendingApprovals (foldl run_call f calls) !! proposalId = None.
Proof.
  induction calls as [|c calls IH]; intros f Hnone Hcalls; cbn [foldl];
    [exact Hnone|].
  apply Forall_cons in Hcalls as [Hc Hcalls]. apply IH; [|exact Hcalls].
  apply run_call_no_pending; assumption.
Qed.

(** X14. An approval can be used once: after [processApproval] has
    released the signed operation of a proposal, and as long as no approval
    is requested for that proposal anew, every later [processApproval] for
    it fails with the no-pending-approval error and changes nothing,
    whatever the response and whatever calls (executions, clean-ups,
    rejections, other proposals) were made in between. *)
Theorem processApproval_single_use (f : t) (now : Z) (response : ApprovalResponse)
    (op : PackedUserOperation) (calls : list call) (later : Z)
    (response' : ApprovalResponse) :
  (processApproval f now response).1 = Return op →
  Forall (requests_no (responseProposalId response)) calls →
  responseProposalId response' = responseProposalId response →
  let f'' := foldl run_call (processApproval f now response).2 calls in
  processApproval f'' later response'
    = (Throw (NoPendingApproval (responseProposalId response)), f'').
Proof.
  intros Hop Hcalls Hid f''.
  assert (Hgone : pendingApprovals (processApproval f now response).2
                    !! responseProposalId response = None).
  { revert Hop. unfold processApproval. cbv zeta.
    destruct (pendingApprovals f !! _) as [request|]; [|discriminate].
    destruct (expiresAt request <? now); [discriminate|].
    destruct (negb (approved response)); [discriminate|].
    destruct (webAuthnAuth response) as [auth|]; [|discriminate].
    destruct (attachPasskeySignature _ _ _); [|discriminate].
    intros _. cbn. apply lookup_delete_eq. }
  pose proof (calls_no_pending _ calls _ Hgone Hcalls) as Hnone.
  fold f'' in Hnone. rewrite <- Hid in Hnone |- *.
  apply processApproval_not_found, Hnone.
Qed.

Lemma processApproval_single_use_witness :
  let calls :=
    [ExecuteApprovedUserOp 1 "V1StGXR8_Z5j" example_userOp including_bundler;
     CleanupExpired 2] in
  ∃ op,
    (processApproval pending_flow 0 (approval (Some example_auth) 0)).1
      = Return op ∧
    Forall (requests_no "V1StGXR8_Z5j") calls ∧
    (processApproval
       (foldl run_call
          (processApproval pending_flow 0 (approval (Some example_auth) 0)).2
          calls)
       3 (approval (Some example_auth) 3)).1
      = Throw (NoPendingApproval "V1StGXR8_Z5j").
Proof.
  intros calls.
  assert (Hop : ∃ op,
            (processApproval pending_flow 0 (approval (Some example_auth) 0)).1
              = Return op) by (eexists; vm_compute; reflexivity).
  destruct Hop as [op Hop]. exists op.
  assert (Hcalls : Forall (requests_no
            (responseProposalId (approval (Some example_auth) 0))) calls).
  { repeat constructor. }
  split; [exact Hop|]. split; [exact Hcalls|].
  rewrite (processApproval_single_use pending_flow 0
             (approval (Some example_auth) 0) op calls 3
             (approval (Some example_auth) 3) Hop Hcalls eq_refl).
  reflexivity.
Defined.

(** *** The terms of a proposal *)

Lemma with_status_twice st st' p :
  with_status st' (with_status st p) = with_status st' p.
Proof. reflexivity. Qed.

Lemma same_terms_refl p : same_terms p p.
Proof. reflexivity. Qed.

Lemma same_terms_with_status st p : same_terms p (with_status st p).
Proof. reflexivity. Qed.

Lemma same_terms_trans p q r : same_terms p q → same_terms q r → same_terms p r.
Proof. unfold same_terms. congruence. Qed.

Lemma kept_refl (o : option RebalanceProposal) : option_Forall2 same_terms o o.
Proof. destruct o; constructor. reflexivity. Qed.

Lemma kept_with_status st (o : option RebalanceProposal) :
  option_Forall2 same_terms o (with_status st <$> o).
Proof. destruct o; constructor. reflexivity. Qed.

Lemma kept_trans (o1 o2 o3 : option RebalanceProposal) :
  option_Forall2 same_terms o1 o2 → option_Forall2 same_terms o2 o3 →
  option_Forall2 same_terms o1 o3.
Proof.
  intros H12 H23. destruct H12; inversion H23; subst; constructor.
  eapply same_terms_trans; eassumption.
Qed.

Lemma updateProposalStatus_kept f pid st k :
  option_Forall2 same_terms (getProposal f k)
    (getProposal (updateProposalStatus f pid st) k).
Proof.
  unfold getProposal, updateProposalStatus. cbn.
  destruct (decide (pid = k)) as [->|Hne].
  - rewrite lookup_alter_eq. apply kept_with_status.
  - rewrite lookup_alter_ne by exact Hne. apply kept_refl.
Qed.

Lemma run_call_kept f c k :
  creates_no k c →
  option_Forall2 same_terms (getProposal f k) (getProposal (run_call f c) k).
Proof.
  intros Hc.
  destruct c as [now fresh params|now proposal vault op|now response|now pid
                |now pid op bundler|now|pid st]; cbn [run_call].
  - cbn in Hc. unfold getProposal, createProposal. cbn.
    rewrite lookup_insert_ne by exact Hc. apply kept_refl.
  - unfold requestApproval.
    destruct (prepareForPasskeySigning _ _); cbn; apply kept_refl.
  - unfold processApproval. cbv zeta.
    destruct (pendingApprovals f !! _) as [request|]; [|apply kept_refl].
    destruct (expiresAt request <? now);
      [apply (updateProposalStatus_kept f _ EXPIRED)|].
    destruct (negb (approved response));
      [apply (updateProposalStatus_kept f _ REJECTED)|].
    destruct (webAuthnAuth response) as [auth|]; [|apply kept_refl].
    destruct (attachPasskeySignature _ _ _); [|apply kept_refl].
    apply (updateProposalStatus_kept f _ APPROVED).
  - unfold rejectProposal.
    destruct (pendingApprovals f !! pid); [|apply kept_refl].
    apply (updateProposalStatus_kept f _ REJECTED).
  - unfold executeApprovedUserOp.
    destruct (submitUserOp bundler);
      [|apply (updateProposalStatus_kept f _ FAILED)].
    destruct (waitForUserOp bundler) as [[txHash success]|];
      [|apply (updateProposalStatus_kept f _ FAILED)].
    apply (updateProposalStatus_kept f _ (if success then EXECUTED else FAILED)).
  - unfold getProposal.
    destruct (cleanupExpired_lookup f now k) as [_ ->].
    destruct (pendingApprovals f !! k) as [request|]; [|apply kept_refl].
    destruct (expired now request); [apply kept_with_status | apply kept_refl].
  - apply updateProposalStatus_kept.
Qed.

(** X15. Once a proposal is created, nothing but its status ever changes:
    whatever calls follow (requests, approvals, rejections, executions,
    clean-ups, status updates, the creation of other proposals), the flow
    keeps a proposal under the id exactly when it did before, and with the
    same protocols, amount, rates, gas estimate and two dates; in
    particular a later call never extends the date at which it expires. *)
Theorem proposal_terms_fixed (proposalId : string) (calls : list call) (f : t) :
  Forall (creates_no proposalId) calls →
  option_Forall2 same_terms (getProposal f proposalId)
    (getProposal (foldl run_call f calls) proposalId).
Proof.
  revert f. induction calls as [|c calls IH]; intros f Hcalls; cbn [foldl].
  - apply kept_refl.
  - apply Forall_cons in Hcalls as [Hc Hcalls].
    eapply kept_trans; [apply run_call_kept, Hc | apply IH, Hcalls].
Qed.

Lemma proposal_terms_fixed_witness :
  let calls :=
    [ProcessApproval 0 (approval (Some example_auth) 0);
     ExecuteApprovedUserOp 1 "V1StGXR8_Z5j" example_userOp including_bundler;
     CleanupExpired 2] in
  Forall (creates_no "V1StGXR8_Z5j") calls ∧
  option_Forall2 same_terms (getProposal pending_flow "V1StGXR8_Z5j")
    (getProposal (foldl run_call pending_flow calls) "V1StGXR8_Z5j") ∧
  status <$> getProposal (foldl run_call pending_flow calls) "V1StGXR8_Z5j"
    = Some EXECUTED.
Proof.
  intros calls.
  assert (Hcalls : Forall (creates_no "V1StGXR8_Z5j") calls)
    by (repeat constructor).
  split; [exact Hcalls|].
  split; [exact (proposal_terms_fixed "V1StGXR8_Z5j" calls pending_flow Hcalls)|].
  vm_compute. reflexivity.
Defined.

(** *** What a verdict leaves in the audit log *)

(** X16. [processApproval] consumes a request only with an audit entry
    that names it. Either it fails with the no-pending-approval error, the
    missing-assertion error or an error of the wallet manager, and then it
    leaves the flow as it was, the request still pending and nothing
    logged; or it takes the request off the pending ones, sets the status
    of the proposal and logs one entry at the time of the call, with the
    id of the proposal and the vault of the request: [APPROVAL_EXPIRED]
    and status [EXPIRED] with the expiry error, [APPROVAL_REJECTED] and
    [REJECTED] with the rejection error, [APPROVAL_RECEIVED] with the hash
    of the operation and [APPROVED] when it returns the signed operation. *)
Theorem processApproval_audited (f : t) (now : Z) (response : ApprovalResponse) :
  let pid := responseProposalId response in
  let out := processApproval f now response in
  (out.2 = f ∧
   (out.1 = Throw (NoPendingApproval pid) ∨ out.1 = Throw MissingWebAuthn ∨
    out.1 = Throw WalletManagerFailure)) ∨
  (∃ request ev st hash,
     pendingApprovals f !! pid = Some request ∧
     pendingApprovals out.2 = delete pid (pendingApprovals f) ∧
     getProposal out.2 pid = with_status st <$> getProposal f pid ∧
     auditLog out.2 = auditLog f ++
       [{| auditTimestamp := now; eventType := ev;
           auditProposalId := Some pid;
           auditVaultAddress := vaultAddress request;
           auditUserOpHash := hash; auditTxHash := None |}] ∧
     ((out.1 = Throw ApprovalExpired ∧ ev = APPROVAL_EXPIRED ∧
       st = EXPIRED ∧ hash = None) ∨
      (out.1 = Throw UserRejected ∧ ev = APPROVAL_REJECTED ∧
       st = REJECTED ∧ hash = None) ∨
      (∃ op, out.1 = Return op ∧ ev = APPROVAL_RECEIVED ∧
             st = APPROVED ∧ hash = Some (userOpHash request)))).
Proof.
  intros pid out. unfold out, processApproval. cbv zeta. fold pid.
  destruct (pendingApprovals f !! pid) as [request|] eqn:Hp;
    [|left; split; [reflexivity | left; reflexivity]].
  destruct (expiresAt request <? now).
  { right. exists request, APPROVAL_EXPIRED, EXPIRED, None.
    split; [reflexivity|]. split; [reflexivity|].
    split; [apply (status_after_update f pid EXPIRED)|].
    split; [reflexivity|]. left. auto. }
  destruct (negb (approved response)).
  { right. exists request, APPROVAL_REJECTED, REJECTED, None.
    split; [reflexivity|]. split; [reflexivity|].
    split; [apply (status_after_update f pid REJECTED)|].
    split; [reflexivity|]. right. left. auto. }
  destruct (webAuthnAuth response) as [auth|];
    [|left; split; [reflexivity | right; left; reflexivity]].
  destruct (attachPasskeySignature _ _ _) as [signed|];
    [|left; split; [reflexivity | right; right; reflexivity]].
  right. exists request, APPROVAL_RECEIVED, APPROVED, (Some (userOpHash request)).
  split; [reflexivity|]. split; [reflexivity|].
  split; [apply (status_after_update f pid APPROVED)|].
  split; [reflexivity|]. right. right. exists signed. auto.
Qed.

(** *** Cleaning up *)

Lemma cleanup_fold_log now l : ∀ f,
  ∃ new,
    auditLog (foldl (cleanup_step now) f l) = auditLog f ++ new ∧
    Forall (λ e, eventType e = APPROVAL_EXPIRED ∧ auditTimestamp e = now) new ∧
    length new = length (filter (λ entry, expired now entry.2 = true) l).
Proof.
  induction l as [|[pid request] l IH]; intros f; cbn [foldl].
  - exists []. rewrite app_nil_r. auto.
  - destruct (IH (cleanup_step now f (pid, request))) as (new & -> & Hall & Hlen).
    destruct (expired now request) eqn:He.
    + rewrite filter_cons_True by exact He.
      unfold cleanup_step. unfold expired in He. rewrite He.
      cbn [auditLog logAudit].
      eexists (_ :: new). rewrite <- app_assoc. split; [reflexivity|].
      split; [constructor; [split; reflexivity | exact Hall]|].
      cbn [length]. rewrite Hlen. reflexivity.
    + rewrite filter_cons_False by (cbn; congruence).
      unfold cleanup_step. unfold expired in He. rewrite He.
      exists new. auto.
Qed.

(** X17. [cleanupExpired] removes exactly the expired requests: a request
    stays pending, unchanged, if the time has not passed its [expiresAt]
    and is taken off otherwise; the proposal of every request taken off,
    if the flow tracks it, reads [EXPIRED] and every other proposal is as
    before; one [APPROVAL_EXPIRED] entry is logged per request taken off
    and nothing else; what remains pending is not expired, so that
    [processApproval] at that time no longer reports an expiry. *)
Theorem cleanupExpired_removes_expired (f : t) (now : Z) :
  let f' := cleanupExpired f now in
  (∀ k, pendingApprovals f' !! k =
          match pendingApprovals f !! k with
          | Some request => if expired now request then None else Some request
          | None => None
          end) ∧
  (∀ k, getProposal f' k =
          match pendingApprovals f !! k with
          | Some request =>
              if expired now request
              then with_status EXPIRED <$> getProposal f k
              else getProposal f k
          | None => getProposal f k
          end) ∧
  (∃ new,
     auditLog f' = auditLog f ++ new ∧
     Forall (λ e, eventType e = APPROVAL_EXPIRED ∧ auditTimestamp e = now) new ∧
     length new =
       length (filter (λ entry, expired now entry.2 = true)
                 (map_to_list (pendingApprovals f)))) ∧
  (∀ request, request ∈ getPendingApprovals f' → now ≤ expiresAt request) ∧
  (∀ response, (processApproval f' now response).1 ≠ Throw ApprovalExpired).
Proof.
  intros f'.
  assert (Hpending : ∀ k, pendingApprovals f' !! k =
            match pendingApprovals f !! k with
            | Some request => if expired now request then None else Some request
            | None => None
            end) by (intros k; apply cleanupExpired_lookup).
  assert (Hfresh : ∀ k request,
            pendingApprovals f' !! k = Some request → now ≤ expiresAt request).
  { intros k request. rewrite Hpending.
    destruct (pendingApprovals f !! k) as [request'|]; [|discriminate].
    unfold expired. destruct (expiresAt request' <? now) eqn:He; [discriminate|].
    intros [= <-]. apply Z.ltb_ge in He. exact He. }
  split; [exact Hpending|].
  split; [intros k; apply cleanupExpired_lookup|].
  split; [apply cleanup_fold_log|].
  split.
  - intros request Hin. apply getPendingApprovals_elem in Hin as [k Hk].
    eapply Hfresh, Hk.
  - intros response. unfold processApproval. cbv zeta.
    destruct (pendingApprovals f' !! _) as [request|] eqn:Hk; [|discriminate].
    apply Hfresh in Hk.
    destruct (expiresAt request <? now) eqn:He; [apply Z.ltb_lt in He; lia|].
    destruct (negb (approved response)); [discriminate|].
    destruct (webAuthnAuth response) as [auth|]; [|discriminate].
    destruct (attachPasskeySignature _ _ _); discriminate.
Qed.

(** *** Execution *)

(** X18. [executeApprovedUserOp] settles the status by the answer of the
    bundler alone: the proposal, when the flow tracks it, reads [EXECUTED]
    if the bundler includes the operation with success and [FAILED] if the
    inclusion fails or the bundler throws, whatever its status was before;
    the call returns exactly when the bundler gives a result; the pending
    requests are untouched; and the log gains [EXECUTION_STARTED] followed
    by one outcome entry, [EXECUTION_SUCCESS] exactly on success. *)
Theorem executeApprovedUserOp_settles (f : t) (now : Z) (proposalId : string)
    (signedUserOp : PackedUserOperation) (bundler : Bundler) :
  let out := executeApprovedUserOp f now proposalId signedUserOp bundler in
  let answer := submitUserOp bundler ≫= λ _, waitForUserOp bundler in
  let success := bool_decide (snd <$> answer = Some true) in
  getProposal out.2 proposalId =
    with_status (if success then EXECUTED else FAILED)
      <$> getProposal f proposalId ∧
  (∀ k, k ≠ proposalId → getProposal out.2 k = getProposal f k) ∧
  out.1 = from_option Return (Throw WalletManagerFailure) answer ∧
  pendingApprovals out.2 = pendingApprovals f ∧
  ∃ outcome,
    auditLog out.2 = auditLog f ++
      [{| auditTimestamp := now; eventType := EXECUTION_STARTED;
          auditProposalId := Some proposalId;
          auditVaultAddress := sender signedUserOp;
          auditUserOpHash := None; auditTxHash := None |};
       outcome] ∧
    auditProposalId outcome = Some proposalId ∧
    auditTxHash outcome = fst <$> answer ∧
    eventType outcome =
      (if success then EXECUTION_SUCCESS else EXECUTION_FAILED).
Proof.
  intros out answer success. unfold out, success, answer, executeApprovedUserOp.
  unfold getProposal, updateProposalStatus.
  destruct (submitUserOp bundler) as [hash|];
    [destruct (waitForUserOp bundler) as [[txHash [|]]|]|];
    cbn; rewrite lookup_alter_eq;
    (split; [reflexivity|]);
    (split; [intros k Hk; apply lookup_alter_ne; congruence|]);
    (split; [reflexivity|]); (split; [reflexivity|]);
    eexists; rewrite <- app_assoc; (split; [reflexivity|]); cbn; auto.
Qed.

(** *** From the creation of a proposal to the verdict *)

(** X19. The time to approve runs from the creation of the proposal, not
    from the request: for a proposal created at [t0] and submitted for
    approval at any later time, [processApproval] at [t] fails with the
    expiry error exactly when [t] is past [t0] plus the timeout of the
    flow (24 hours by default), the deadline itself included in the time
    allowed; and within that time an approving response with an assertion
    gets the submitted operation signed by the wallet manager. *)
Theorem approval_window (f : t) (t0 t1 t : Z) (fresh vault hash : string)
    (params : ProposalParams) (userOp : PackedUserOperation)
    (response : ApprovalResponse) :
  prepareForPasskeySigning (walletManager f) userOp = Some hash →
  responseProposalId response = fresh →
  let created := createProposal f t0 fresh params in
  let f2 := (requestApproval created.2 t1 created.1 vault userOp).2 in
  let timeout := default DEFAULT_TIMEOUT (approvalTimeout (config f)) in
  ((processApproval f2 t response).1 = Throw ApprovalExpired ↔
     t0 + timeout < t) ∧
  (t ≤ t0 + timeout → approved response = true →
   ∀ auth, webAuthnAuth response = Some auth →
     (processApproval f2 t response).1 =
       from_option Return (Throw WalletManagerFailure)
         (attachPasskeySignature (walletManager f) userOp auth)).
Proof.
  intros Hhash <- created f2 timeout.
  assert (Hpending : ∃ request,
            pendingApprovals f2 !! responseProposalId response = Some request ∧
            expiresAt request = t0 + timeout ∧
            ApprovalFlow.userOp request = userOp).
  { unfold f2, created, requestApproval, createProposal. cbn.
    rewrite Hhash. cbn. rewrite lookup_insert_eq. eauto. }
  destruct Hpending as (request & Hreq & Hexp & Hop).
  assert (Hwm : walletManager f2 = walletManager f).
  { unfold f2, created, requestApproval, createProposal. cbn.
    rewrite Hhash. reflexivity. }
  unfold processApproval. cbv zeta. rewrite Hreq, Hexp, Hop, Hwm.
  destruct (t0 + timeout <? t) eqn:He.
  - apply Z.ltb_lt in He. split; [split; [intros _; exact He | reflexivity]|].
    intros Hle. lia.
  - apply Z.ltb_ge in He. split.
    + split; [|intros Hlt; lia].
      destruct (negb (approved response)); [discriminate|].
      destruct (webAuthnAuth response) as [auth|]; [|discriminate].
      destruct (attachPasskeySignature _ _ _); discriminate.
    + intros _ -> auth ->. cbn [negb].
      destruct (attachPasskeySignature _ _ _); reflexivity.
Qed.

Lemma approval_window_witness :
  let f := create example_wallet example_formatting example_config in
  let created := createProposal f 0 "V1StGXR8_Z5j" example_params in
  let f2 := (requestApproval created.2 0 created.1 example_vault example_userOp).2 in
  prepareForPasskeySigning (walletManager f) example_userOp = Some "0xabc123" ∧
  (processApproval f2 1 (approval (Some example_auth) 1)).1 ≠ Throw ApprovalExpired ∧
  (processApproval f2 2 (approval (Some example_auth) 2)).1 = Throw ApprovalExpired.
Proof.
  intros f created f2.
  assert (Hhash : prepareForPasskeySigning (walletManager f) example_userOp
                  = Some "0xabc123") by reflexivity.
  split; [exact Hhash|]. split.
  - intros Hexp.
    apply (approval_window f 0 0 1 "V1StGXR8_Z5j" example_vault "0xabc123"
             example_params example_userOp (approval (Some example_auth) 1)
             Hhash eq_refl) in Hexp.
    vm_compute in Hexp. discriminate.
  - apply (approval_window f 0 0 2 "V1StGXR8_Z5j" example_vault "0xabc123"
             example_params example_userOp (approval (Some example_auth) 2)
             Hhash eq_refl).
    vm_compute. reflexivity.
Defined.

End ApprovalFlowMoreFacts.

(** ** More on the session key manager *)

Section SessionKeyMoreFacts.
Import SecureSessionKeyManager SessionKeySpec SessionKeyLifecycle.

(** X20. A revoked key is gone at once and for good: [revokeSessionKey]
    answers whether the manager held a key for the address; afterwards
    [decryptForSigning] for that address fails with the not-found error,
    at any time and without a call of [decrypt], while every other address
    is answered as before; and revoking again answers [false] and changes
    nothing. *)
Theorem revokeSessionKey_effective (m : t) (addr : string) :
  let out := revokeSessionKey m addr in
  (out.1 = true ↔ is_Some (getEncryptedKey m addr)) ∧
  (∀ now, decryptForSigning out.2 now addr = ([], Throw (NoSessionKeyFound addr))) ∧
  (∀ now other, other ≠ addr →
     decryptForSigning out.2 now other = decryptForSigning m now other) ∧
  revokeSessionKey out.2 addr = (false, out.2).
Proof.
  intros out. unfold out, revokeSessionKey, getEncryptedKey. cbn [fst snd].
  split; [apply bool_decide_eq_true|].
  split.
  { intros now. apply decryptForSigning_not_found. cbn. apply lookup_delete_eq. }
  split.
  { intros now other Hne. unfold decryptForSigning, decrypt. cbn.
    rewrite lookup_delete_ne by congruence. reflexivity. }
  unfold set_encryptedKeys. cbn. rewrite lookup_delete_eq.
  rewrite bool_decide_eq_false_2 by (intros [? H]; discriminate).
  rewrite delete_delete_eq. reflexivity.
Qed.

(** *** Cleaning up *)

Lemma still_valid_to_clean_up now k : to_clean_up now k = negb (still_valid now k).
Proof.
  unfold to_clean_up, still_valid.
  destruct (Qgtb _ _) eqn:E; cbn [negb].
  - apply Qgtb_true in E. apply not_true_is_false. intros H.
    apply Qle_bool_iff in H. lra.
  - apply Qgtb_false in E. apply Qle_bool_iff. exact E.
Qed.

Lemma filter_length_perm {A} (f : A → bool) (l l' : list A) :
  l ≡ₚ l' → length (List.filter f l) = length (List.filter f l').
Proof.
  induction 1 as [|x l l' _ IH|x y l|l l' l'' _ IH1 _ IH2]; cbn.
  - reflexivity.
  - destruct (f x); cbn; congruence.
  - destruct (f x), (f y); reflexivity.
  - congruence.
Qed.

Lemma size_filter_values {V} (f : V → bool) (m : gmap string V) :
  size (filter (λ kv : string * V, f kv.2 = true) m) =
  length (List.filter f (map_to_list m).*2).
Proof.
  induction m as [|i x m Hi IH] using map_ind.
  - rewrite map_filter_empty, map_size_empty, map_to_list_empty. reflexivity.
  - rewrite (filter_length_perm f _ ((i, x) :: map_to_list m).*2)
      by (apply fmap_Permutation, map_to_list_insert, Hi).
    cbn. destruct (f x) eqn:Hx.
    + rewrite map_filter_insert_True by exact Hx.
      rewrite map_size_insert_None
        by (apply map_lookup_filter_None; left; exact Hi).
      cbn. rewrite IH. reflexivity.
    + rewrite map_filter_insert_False by (cbn; congruence).
      rewrite delete_id by exact Hi. exact IH.
Qed.

(** X21. [cleanupExpired] and [getValidSessionKeys] split the keys of the
    manager in two: a key stays, unchanged, exactly when
    [getValidSessionKeys] lists it (its [validUntil] is after the time in
    seconds) and is removed otherwise; the number returned and the number
    of valid keys add up to the number of keys held; after the clean-up
    [decryptForSigning] at that time reports no expiry, and a second
    clean-up removes nothing. *)
Theorem cleanupExpired_keeps_valid (m : t) (now : Z) :
  let out := cleanupExpired m now in
  (∀ a, getEncryptedKey out.2 a =
          match getEncryptedKey m a with
          | Some k => if still_valid now k then Some k else None
          | None => None
          end) ∧
  (out.1 + length (getValidSessionKeys m now))%nat = size (encryptedKeys m) ∧
  (∀ a, (decryptForSigning out.2 now a).2 ≠ Throw (SessionKeyExpired a)) ∧
  (cleanupExpired out.2 now).1 = 0%nat.
Proof.
  intros out.
  assert (Hlookup : ∀ a, getEncryptedKey out.2 a =
            match getEncryptedKey m a with
            | Some k => if still_valid now k then Some k else None
            | None => None
            end).
  { intros a. unfold out, cleanupExpired, getEncryptedKey. cbn.
    rewrite map_lookup_filter. destruct (encryptedKeys m !! a) as [k|]; cbn;
      [|reflexivity].
    rewrite still_valid_to_clean_up.
    destruct (still_valid now k); cbn.
    - rewrite option_guard_True by reflexivity. reflexivity.
    - rewrite option_guard_False by discriminate. reflexivity. }
  split; [exact Hlookup|]. split; [|split].
  - unfold out, cleanupExpired, getValidSessionKeys. cbn [fst].
    rewrite size_filter_values, <- length_map_to_list.
    rewrite <- (length_fmap snd (map_to_list (encryptedKeys m))).
    rewrite <- (filter_length (still_valid now) (map_to_list (encryptedKeys m)).*2).
    rewrite Nat.add_comm. f_equal. f_equal.
    apply List.filter_ext. intros k. apply still_valid_to_clean_up.
  - intros a. unfold decryptForSigning. specialize (Hlookup a).
    unfold getEncryptedKey in Hlookup. rewrite Hlookup.
    destruct (encryptedKeys m !! a) as [k|]; [|discriminate].
    destruct (still_valid now k) eqn:Hv; [|discriminate].
    unfold still_valid in Hv. apply Qgtb_true in Hv.
    destruct (Qgtb (seconds now) _) eqn:E.
    + apply Qgtb_true in E. lra.
    + destruct (decrypt out.2 (encryptedPrivateKey k) (iv k) (authTag k));
        discriminate.
  - unfold cleanupExpired at 1. cbn [fst].
    apply map_size_empty_iff, map_empty. intros a.
    apply map_lookup_filter_None. right. intros k Hk Hclean. cbn in Hclean.
    unfold out, cleanupExpired in Hk. cbn in Hk.
    apply map_lookup_filter_Some in Hk as [_ Hkeep]. cbn in Hkeep. congruence.
Qed.

(** *** The address of a key *)

Lemma run_call_filed m c :
  (∀ a k, encryptedKeys m !! a = Some k → address k = a) →
  ∀ a k, encryptedKeys (run_call m c) !! a = Some k → address k = a.
Proof.
  intros Hfiled a k.
  destruct c as [c bytes nonce cfg|c key nonce cfg|encryptedKey|addr|now];
    cbn [run_call].
  - unfold generateSessionKey. destruct (encrypt c _ _ _) as [[ct iv64] tag].
    cbn. destruct (decide (privateKeyToAddress c (bytesToHex bytes) = a)) as [<-|Hne].
    + rewrite lookup_insert_eq. intros [= <-]. reflexivity.
    + rewrite lookup_insert_ne by exact Hne. apply Hfiled.
  - unfold importSessionKey. destruct (encrypt c _ _ _) as [[ct iv64] tag].
    cbn. destruct (decide (privateKeyToAddress c key = a)) as [<-|Hne].
    + rewrite lookup_insert_eq. intros [= <-]. reflexivity.
    + rewrite lookup_insert_ne by exact Hne. apply Hfiled.
  - cbn. destruct (decide (address encryptedKey = a)) as [<-|Hne].
    + rewrite lookup_insert_eq. intros [= <-]. reflexivity.
    + rewrite lookup_insert_ne by exact Hne. apply Hfiled.
  - cbn. intros Hk. apply lookup_delete_Some in Hk as [_ Hk]. eapply Hfiled, Hk.
  - cbn. intros Hk. apply map_lookup_filter_Some in Hk as [Hk _].
    eapply Hfiled, Hk.
Qed.

Lemma reachable_filed m :
  reachable m → ∀ a k, encryptedKeys m !! a = Some k → address k = a.
Proof.
  induction 1 as [key cipher|m c _ IH].
  - intros a k H. cbn in H. rewrite lookup_empty in H. discriminate.
  - apply run_call_filed, IH.
Qed.

(** X22. A manager answers for the address it is asked about: however its
    keys came in (generated, imported, loaded) and went (revoked, cleaned
    up), every key is held under its own address, so that the key
    [decryptForSigning] returns for an address carries that address, with
    the config of the entry [getEncryptedKey] gives for it, whose
    [validUntil] the time has not passed. *)
Theorem decryptForSigning_answers_for_address (m : t) (now : Z) (addr : string)
    (key : DecryptedSessionKey) :
  reachable m →
  (decryptForSigning m now addr).2 = Return key →
  decryptedAddress key = addr ∧
  ∃ k, getEncryptedKey m addr = Some k ∧ address k = addr ∧
       decryptedConfig key = config k ∧
       now ≤ 1000 * validUntil (config k).
Proof.
  intros Hreach. pose proof (reachable_filed m Hreach addr) as Hfiled.
  unfold decryptForSigning, getEncryptedKey.
  destruct (encryptedKeys m !! addr) as [k|]; [|discriminate].
  specialize (Hfiled k eq_refl).
  destruct (Qgtb _ _) eqn:E; [discriminate|].
  assert (Hnow : now ≤ 1000 * validUntil (config k)).
  { destruct (decide (1000 * validUntil (config k) < now)) as [Hlt|]; [|lia].
    apply past_validUntil in Hlt. congruence. }
  destruct (decrypt _ _ _ _); [|discriminate].
  cbn. intros [= <-]. cbn. split; [exact Hfiled|]. exists k. auto.
Qed.

Lemma decryptForSigning_answers_for_address_witness :
  let addr := "0x2222222222222222222222222222222222222222" in
  ∃ key,
    reachable example_manager ∧
    (decryptForSigning example_manager 0 addr).2 = Return key ∧
    decryptedAddress key = addr.
Proof.
  intros addr.
  assert (Hreach : reachable example_manager).
  { apply (reach_call _ (Load example_key)), reach_new. }
  assert (Hkey : ∃ key, (decryptForSigning example_manager 0 addr).2 = Return key)
    by (eexists; vm_compute; reflexivity).
  destruct Hkey as [key Hkey]. exists key.
  split; [exact Hreach|]. split; [exact Hkey|].
  exact (proj1 (decryptForSigning_answers_for_address
                  example_manager 0 addr key Hreach Hkey)).
Defined.

(** *** Storing and reading back *)

Lemma stored_key_decrypts c m k data nonce now :
  decrypts c m →
  (encryptedPrivateKey k, iv k, authTag k) = encrypt c (encryptionKey m) nonce data →
  now ≤ 1000 * validUntil (config k) →
  decryptForSigning (set_encryptedKeys m (<[address k := k]> (encryptedKeys m)))
    now (address k) =
  ([{| callCiphertext := encryptedPrivateKey k; callIv := iv k;
       callAuthTag := authTag k |}],
   Return {| decryptedAddress := address k; privateKey := bytesToHex data;
             decryptedConfig := config k |}).
Proof.
  intros Hdec Henc Hnow.
  rewrite (decryptForSigning_decrypts _ now (address k) k);
    [|cbn; apply lookup_insert_eq | exact Hnow].
  unfold decrypt. cbn [encryptionKey aes256gcm set_encryptedKeys].
  specialize (Hdec nonce data). rewrite <- Henc in Hdec. rewrite Hdec.
  reflexivity.
Qed.

(** X23. What is stored encrypted is read back: when the cipher of the
    manager decrypts what it encrypts under the master key, a key made by
    [generateSessionKey] is held under the address derived from it, and
    until its [validUntil] has passed [decryptForSigning] for that address
    returns the private key generated, with one call of [decrypt]; a key
    taken in by [importSessionKey] is returned as the hexadecimal form of
    the bytes imported. *)
Theorem generated_key_read_back (c : Crypto) (m : t)
    (privateKeyBytes privateKey nonce : string) (cfg : SessionKeyConfig) (now : Z) :
  decrypts c m →
  now ≤ 1000 * validUntil cfg →
  let generated := generateSessionKey c m privateKeyBytes nonce cfg in
  let imported := importSessionKey c m privateKey nonce cfg in
  address generated.1 = privateKeyToAddress c (bytesToHex privateKeyBytes) ∧
  getEncryptedKey generated.2 (address generated.1) = Some generated.1 ∧
  (decryptForSigning generated.2 now (address generated.1)).2 =
    Return {| decryptedAddress := address generated.1;
              privateKey := bytesToHex privateKeyBytes;
              decryptedConfig := cfg |} ∧
  length (decryptForSigning generated.2 now (address generated.1)).1 = 1%nat ∧
  address imported.1 = privateKeyToAddress c privateKey ∧
  (decryptForSigning imported.2 now (address imported.1)).2 =
    Return {| decryptedAddress := address imported.1;
              privateKey := bytesToHex (hexToBytes c privateKey);
              decryptedConfig := cfg |}.
Proof.
  intros Hdec Hnow generated imported.
  unfold generated, imported, generateSessionKey, importSessionKey.
  destruct (encrypt c (encryptionKey m) nonce privateKeyBytes)
    as [[ct iv64] tag] eqn:Hgen.
  destruct (encrypt c (encryptionKey m) nonce (hexToBytes c privateKey))
    as [[ct' iv64'] tag'] eqn:Himp.
  cbn [fst snd address].
  split; [reflexivity|].
  split; [unfold getEncryptedKey; cbn; apply lookup_insert_eq|].
  pose proof (stored_key_decrypts c m
    {| address := privateKeyToAddress c (bytesToHex privateKeyBytes);
       encryptedPrivateKey := ct; iv := iv64; authTag := tag; config := cfg |}
    privateKeyBytes nonce now Hdec (eq_sym Hgen) Hnow) as Hg.
  pose proof (stored_key_decrypts c m
    {| address := privateKeyToAddress c privateKey;
       encryptedPrivateKey := ct'; iv := iv64'; authTag := tag'; config := cfg |}
    (hexToBytes c privateKey) nonce now Hdec (eq_sym Himp) Hnow) as Hi.
  cbn [address config encryptedPrivateKey iv authTag] in Hg, Hi.
  rewrite Hg, Hi. cbn. auto.
Qed.

Lemma generated_key_read_back_witness :
  let cfg := {| validUntil := 1700000000; spendLimit := 100000000 |} in
  let generated := generateSessionKey toy_crypto toy_manager "secret" "nonce" cfg in
  decrypts toy_crypto toy_manager ∧
  (decryptForSigning generated.2 1699999999000 (address generated.1)).2 =
    Return {| decryptedAddress := address generated.1;
              privateKey := bytesToHex "secret";
              decryptedConfig := cfg |}.
Proof.
  intros cfg generated.
  assert (Hdec : decrypts toy_crypto toy_manager).
  { intros nonce data. cbn. rewrite decide_True by reflexivity. reflexivity. }
  split; [exact Hdec|].
  destruct (generated_key_read_back toy_crypto toy_manager "secret" "0x00"
              "nonce" cfg 1699999999000 Hdec ltac:(cbn; lia))
    as (_ & _ & Hread & _).
  exact Hread.
Defined.

End SessionKeyMoreFacts.
